(** * A shallow embedding of libcomposefs' image writer (lcfs-writer.c)

    The in-memory node graph is a heap: a list of node records indexed by
    their address (a [nat]); a C pointer to a node is its index and NULL is
    [None].  The writer context and the heap are threaded through a small
    state-and-error monad.  Integers of the C code are [Z] with their
    wrap-around written out where the code narrows them; bytes are
    [Byte.byte]. *)

From stdpp Require Import base list strings sorting.
From Stdlib Require Import ZArith Lia.

(* ------------------------------------------------------------------ *)
(** ** Bytes and little-endian encodings *)

Abbreviation byte := Byte.byte.

#[global] Instance byte_eq_decision : EqDecision byte := Byte.byte_eq_dec.

Definition byte_of_Z (z : Z) : byte :=
  match Byte.of_N (Z.to_N (z mod 256)) with Some b => b | None => Byte.x00 end.

(** [w] little-endian bytes of [x] (the value is taken modulo [2^(8w)]). *)
Definition le_bytes (w : nat) (x : Z) : list byte :=
  map (fun i => byte_of_Z (Z.shiftr x (8 * Z.of_nat i))) (seq 0 w).

Definition le16 := le_bytes 2.
Definition le32 := le_bytes 4.
Definition le64 := le_bytes 8.

(** C strings: the bytes before the terminating NUL ([strlen] bytes). *)
Definition cstr (s : string) : list byte := String.list_byte_of_string s.
Definition strlen (s : string) : nat := length (cstr s).

(* ------------------------------------------------------------------ *)
(** ** Constants *)

Definition S_IFMT   : Z := 61440.   (* 0170000 *)
Definition S_IFSOCK : Z := 49152.   (* 0140000 *)
Definition S_IFLNK  : Z := 40960.   (* 0120000 *)
Definition S_IFREG  : Z := 32768.   (* 0100000 *)
Definition S_IFBLK  : Z := 24576.   (* 0060000 *)
Definition S_IFDIR  : Z := 16384.   (* 0040000 *)
Definition S_IFCHR  : Z := 8192.    (* 0020000 *)
Definition S_IFIFO  : Z := 4096.    (* 0010000 *)

Definition DT_UNKNOWN : Z := 0.
Definition DT_FIFO : Z := 1.
Definition DT_CHR  : Z := 2.
Definition DT_DIR  : Z := 4.
Definition DT_BLK  : Z := 6.
Definition DT_REG  : Z := 8.
Definition DT_LNK  : Z := 10.
Definition DT_SOCK : Z := 12.

Definition APPEND_FLAGS_DEDUP : Z := 1.
Definition APPEND_FLAGS_ALIGN : Z := 2.

(** Modelled from the spec: lcfs.h is not among the sources.  The digest
    size (32 bytes of SHA-256), the name-length cap (255) and the on-disk
    record sizes of the spec's packed layout: the superblock (magic,
    version, vdata_offset), the inode record of 5 u32, 1 u64, (u64,u32)
    twice for the times and (u64,u32) three times for the vdata slots, the
    directory header (a u32 count) and dirent (u32 inode_num, u32
    name_offset, u8 name_len, u8 d_type, padding), the xattr header (a u16
    count) and its (u16 key_length, u16 value_length) elements. *)
Definition LCFS_DIGEST_SIZE : nat := 32.
Definition LCFS_MAX_NAME_LENGTH : nat := 255.
Definition sizeof_superblock : Z := 16.
Definition sizeof_inode : Z := 88.
Definition sizeof_dir_header : Z := 4.
Definition sizeof_dirent : Z := 12.

Definition lcfs_dir_header_size (n : nat) : Z :=
  sizeof_dir_header + Z.of_nat n * sizeof_dirent.
Definition lcfs_xattr_header_size (n : nat) : Z := 2 + Z.of_nat n * 4.

Definition ALIGN_TO (x a : Z) : Z := Z.land (x + a - 1) (Z.lnot (a - 1)).

(* ------------------------------------------------------------------ *)
(** ** In-memory representation *)

Record lcfs_vdata_s := mk_vdata { off : Z; len : Z }.

Record lcfs_inode_s := mk_inode {
  st_mode : Z; st_nlink : Z; st_uid : Z; st_gid : Z; st_rdev : Z;
  st_size : Z;
  st_mtim_sec : Z; st_mtim_nsec : Z; st_ctim_sec : Z; st_ctim_nsec : Z;
  variable_data : lcfs_vdata_s; xattrs : lcfs_vdata_s; digest : lcfs_vdata_s }.

Record lcfs_xattr_s := mk_xattr { key : string; value : list byte }.

Module Node.
(** [struct lcfs_node_s]; pointers are heap indices.  The reference count
    is kept but plays no part in serialization. *)
Record lcfs_node_s := mk {
  ref_count : Z;
  parent : option nat;
  children : list nat;
  link_to : option nat;
  name : option string;
  payload : option string;
  inode_num : Z;
  xattrs : list lcfs_xattr_s;
  digest_set : bool;
  digest : list byte;
  inode : lcfs_inode_s;
  next : option nat;
  in_tree : bool }.
End Node.

Abbreviation node := Node.lcfs_node_s.

Section Setters.
Context (n : node).
Import Node.
Definition set_children c := mk (ref_count n) (parent n) c (link_to n) (name n)
  (payload n) (inode_num n) (xattrs n) (digest_set n) (digest n) (inode n) (next n) (in_tree n).
Definition set_link_to l := mk (ref_count n) (parent n) (children n) l (name n)
  (payload n) (inode_num n) (xattrs n) (digest_set n) (digest n) (inode n) (next n) (in_tree n).
Definition set_xattrs x := mk (ref_count n) (parent n) (children n) (link_to n) (name n)
  (payload n) (inode_num n) x (digest_set n) (digest n) (inode n) (next n) (in_tree n).
Definition set_inode_num i := mk (ref_count n) (parent n) (children n) (link_to n) (name n)
  (payload n) i (xattrs n) (digest_set n) (digest n) (inode n) (next n) (in_tree n).
Definition set_inode i := mk (ref_count n) (parent n) (children n) (link_to n) (name n)
  (payload n) (inode_num n) (xattrs n) (digest_set n) (digest n) i (next n) (in_tree n).
Definition set_next x := mk (ref_count n) (parent n) (children n) (link_to n) (name n)
  (payload n) (inode_num n) (xattrs n) (digest_set n) (digest n) (inode n) x (in_tree n).
Definition set_in_tree b := mk (ref_count n) (parent n) (children n) (link_to n) (name n)
  (payload n) (inode_num n) (xattrs n) (digest_set n) (digest n) (inode n) (next n) b.
Definition set_payload p := mk (ref_count n) (parent n) (children n) (link_to n) (name n)
  p (inode_num n) (xattrs n) (digest_set n) (digest n) (inode n) (next n) (in_tree n).
Definition set_digest d := mk (ref_count n) (parent n) (children n) (link_to n) (name n)
  (payload n) (inode_num n) (xattrs n) true d (inode n) (next n) (in_tree n).
Definition set_parent_name p nm := mk (ref_count n) p (children n) (link_to n) nm
  (payload n) (inode_num n) (xattrs n) (digest_set n) (digest n) (inode n) (next n) (in_tree n).
Definition set_ref_count r := mk r (parent n) (children n) (link_to n) (name n)
  (payload n) (inode_num n) (xattrs n) (digest_set n) (digest n) (inode n) (next n) (in_tree n).
End Setters.

Section InodeSetters.
Context (i : lcfs_inode_s).
Definition set_st_nlink x := mk_inode (st_mode i) x (st_uid i) (st_gid i) (st_rdev i)
  (st_size i) (st_mtim_sec i) (st_mtim_nsec i) (st_ctim_sec i) (st_ctim_nsec i)
  (variable_data i) (xattrs i) (digest i).
Definition set_st_mode x := mk_inode x (st_nlink i) (st_uid i) (st_gid i) (st_rdev i)
  (st_size i) (st_mtim_sec i) (st_mtim_nsec i) (st_ctim_sec i) (st_ctim_nsec i)
  (variable_data i) (xattrs i) (digest i).
Definition set_st_size x := mk_inode (st_mode i) (st_nlink i) (st_uid i) (st_gid i) (st_rdev i)
  x (st_mtim_sec i) (st_mtim_nsec i) (st_ctim_sec i) (st_ctim_nsec i)
  (variable_data i) (xattrs i) (digest i).
Definition set_variable_data x := mk_inode (st_mode i) (st_nlink i) (st_uid i) (st_gid i)
  (st_rdev i) (st_size i) (st_mtim_sec i) (st_mtim_nsec i) (st_ctim_sec i) (st_ctim_nsec i)
  x (xattrs i) (digest i).
Definition set_xattrs_vd x := mk_inode (st_mode i) (st_nlink i) (st_uid i) (st_gid i)
  (st_rdev i) (st_size i) (st_mtim_sec i) (st_mtim_nsec i) (st_ctim_sec i) (st_ctim_nsec i)
  (variable_data i) x (digest i).
Definition set_digest_vd x := mk_inode (st_mode i) (st_nlink i) (st_uid i) (st_gid i)
  (st_rdev i) (st_size i) (st_mtim_sec i) (st_mtim_nsec i) (st_ctim_sec i) (st_ctim_nsec i)
  (variable_data i) (xattrs i) x.
End InodeSetters.

Definition inode0 : lcfs_inode_s :=
  mk_inode 0 0 0 0 0 0 0 0 0 0 (mk_vdata 0 0) (mk_vdata 0 0) (mk_vdata 0 0).

(** [lcfs_node_new]: calloc, then ref_count 1 and st_nlink 1. *)
Definition lcfs_node_new : node :=
  Node.mk 1 None [] None None None 0 [] false [] (set_st_nlink inode0 1) None false.

Definition ifmt (n : node) : Z := Z.land (st_mode (Node.inode n)) S_IFMT.

(* ------------------------------------------------------------------ *)
(** ** The allocator *)

(** The outcome of a [malloc], [calloc], [realloc] or [strdup]: the head of
    a list of outcomes, [true] for an allocation that succeeds; once the
    list is used up, every allocation succeeds.  The list given to a run
    fixes which of its allocations fail. *)
Definition alloc_next (l : list bool) : bool * list bool :=
  match l with
  | [] => (true, [])
  | b :: l' => (b, l')
  end.

(* ------------------------------------------------------------------ *)
(** ** Node accessors and xattr functions of the public API *)

(** [lcfs_node_get_child] *)
Definition lcfs_node_get_child (n : node) (i : nat) : option nat :=
  if decide (i < length (Node.children n)) then Node.children n !! i else None.

(** [find_xattr]: index of the first xattr whose key is [name], or -1. *)
Fixpoint find_xattr_from (xs : list lcfs_xattr_s) (name : string) (i : Z) : Z :=
  match xs with
  | [] => -1
  | x :: xs' => if String.eqb name (key x) then i else find_xattr_from xs' name (i + 1)
  end.
Definition find_xattr (n : node) (name : string) : Z :=
  find_xattr_from (Node.xattrs n) name 0.

(** [lcfs_node_unset_xattr]: moves the last entry into the removed slot,
    shrinks the array and returns the C return value. *)
Definition lcfs_node_unset_xattr (n : node) (name : string) : Z * node :=
  let index := find_xattr n name in
  let xs := Node.xattrs n in
  let n' :=
    if (0 <=? index)%Z then
      let k := Z.to_nat index in
      let xs' := if negb (index =? Z.of_nat (length xs) - 1)%Z
                 then match last xs with Some l => <[k := l]> xs | None => xs end
                 else xs in
      set_xattrs n (take (length xs - 1) xs')
    else n in
  ((-1)%Z, n').

(** [lcfs_node_set_xattr]: replace the value in place or append an entry;
    [allocs] gives the outcomes of its allocations: [memdup] of the value
    when replacing, and [realloc] of the array, [strdup] of the name and
    [memdup] of the value when appending.  A failure returns -1 (ENOMEM)
    with the entries unchanged (a grown array holds the same entries). *)
Definition lcfs_node_set_xattr (allocs : list bool) (n : node) (name : string) (v : list byte)
  : Z * node :=
  let index := find_xattr n name in
  if (0 <=? index)%Z then
    let (v_ok, _) := alloc_next allocs in
    if v_ok then
      (0%Z, set_xattrs n (alter (fun x => mk_xattr (key x) v) (Z.to_nat index) (Node.xattrs n)))
    else ((-1)%Z, n)
  else
    let (xs_ok, a1) := alloc_next allocs in
    if negb xs_ok then ((-1)%Z, n) else
    let (k_ok, a2) := alloc_next a1 in
    let (v_ok, _) := alloc_next a2 in
    if k_ok && v_ok then (0%Z, set_xattrs n (Node.xattrs n ++ [mk_xattr name v]))
    else ((-1)%Z, n).

Definition lcfs_node_get_xattr (n : node) (name : string) : option (list byte) :=
  let index := find_xattr n name in
  if (0 <=? index)%Z then value <$> Node.xattrs n !! Z.to_nat index else None.

(** The value of the first entry with key [k]. *)
Fixpoint xattr_lookup (xs : list lcfs_xattr_s) (k : string) : option (list byte) :=
  match xs with
  | [] => None
  | x :: xs' => if String.eqb k (key x) then Some (value x) else xattr_lookup xs' k
  end.

(* ------------------------------------------------------------------ *)
(** ** Heap-level API used to assemble trees *)

Definition heap_update (h : list node) (p : nat) (f : node -> node) : list node :=
  match h !! p with Some n => <[p := f n]> h | None => h end.

(** [lcfs_node_new] allocating a fresh address. *)
Definition heap_new (h : list node) : nat * list node := (length h, h ++ [lcfs_node_new]).

Definition name_of (h : list node) (p : nat) : string :=
  match h !! p with Some n => default "" (Node.name n) | None => "" end.

(** [lcfs_node_lookup_child] *)
Definition lcfs_node_lookup_child (h : list node) (parent : node) (nm : string) : option nat :=
  List.find (fun c => match h !! c with
                      | Some cn => match Node.name cn with
                                   | Some cnm => String.eqb cnm nm
                                   | None => false end
                      | None => false end) (Node.children parent).

(** [lcfs_node_add_child]: C return value and the new heap. *)
Definition lcfs_node_add_child (h : list node) (parent child : nat) (nm : string)
  : Z * list node :=
  match h !! parent, h !! child with
  | Some pn, Some cn =>
      if negb (ifmt pn =? S_IFDIR)%Z then ((-1)%Z, h)                       (* ENOTDIR *)
      else if decide (LCFS_MAX_NAME_LENGTH < strlen nm) then ((-1)%Z, h)    (* ENAMETOOLONG *)
      else if bool_decide (Node.name cn ≠ None) then ((-1)%Z, h)            (* EMLINK *)
      else if bool_decide (lcfs_node_lookup_child h pn nm ≠ None) then ((-1)%Z, h) (* EEXIST *)
      else (0%Z, heap_update (heap_update h parent
                  (fun n => set_children n (Node.children n ++ [child])))
                  child (fun n => set_parent_name n (Some parent) (Some nm)))
  | _, _ => ((-1)%Z, h)
  end.

Definition lcfs_node_set_mode (h : list node) (p : nat) (m : Z) : list node :=
  heap_update h p (fun n => set_inode n (set_st_mode (Node.inode n) m)).
Definition lcfs_node_set_size (h : list node) (p : nat) (sz : Z) : list node :=
  heap_update h p (fun n => set_inode n (set_st_size (Node.inode n) sz)).
Definition lcfs_node_set_payload (h : list node) (p : nat) (s : string) : list node :=
  heap_update h p (fun n => set_payload n (Some s)).
Definition lcfs_node_set_fsverity_digest (h : list node) (p : nat) (d : list byte) : list node :=
  heap_update h p (fun n => set_digest n (take LCFS_DIGEST_SIZE d)).
(** [lcfs_node_set_xattr] on the node at [p], every allocation succeeding. *)
Definition heap_set_xattr (h : list node) (p : nat) (k : string) (v : list byte) : list node :=
  heap_update h p (fun n => snd (lcfs_node_set_xattr [] n k v)).

(* ------------------------------------------------------------------ *)
(** ** The writer context and the monad *)

(** [struct lcfs_ctx_s] together with the node heap.  [fsverity_ctx] holds
    the bytes fed to the digest engine so far ([None]: no digest asked);
    [file] holds the bytes the write callback has accepted so far.
    [queue_end] is a node index (the C field is a pointer).  [allocs] is
    the allocator: the outcomes of the allocations still to come (see
    [alloc_next]). *)
Record state := mk_state {
  heap : list node;
  vdata : list byte;
  vdata_allocated : Z;
  ht : list lcfs_vdata_s;
  root : nat;
  queue_end : nat;
  inode_table_size : Z;
  bytes_written : Z;
  fsverity_ctx : option (list byte);
  file : list byte;
  allocs : list bool }.

Section StateSetters.
Context (s : state).
Definition set_heap h := mk_state h (vdata s) (vdata_allocated s) (ht s) (root s)
  (queue_end s) (inode_table_size s) (bytes_written s) (fsverity_ctx s) (file s) (allocs s).
Definition set_arena v a t := mk_state (heap s) v a t (root s)
  (queue_end s) (inode_table_size s) (bytes_written s) (fsverity_ctx s) (file s) (allocs s).
Definition set_queue_end q := mk_state (heap s) (vdata s) (vdata_allocated s) (ht s) (root s)
  q (inode_table_size s) (bytes_written s) (fsverity_ctx s) (file s) (allocs s).
Definition set_inode_table_size z := mk_state (heap s) (vdata s) (vdata_allocated s) (ht s)
  (root s) (queue_end s) z (bytes_written s) (fsverity_ctx s) (file s) (allocs s).
Definition set_written f b := mk_state (heap s) (vdata s) (vdata_allocated s) (ht s)
  (root s) (queue_end s) (inode_table_size s) b f (file s) (allocs s).
Definition set_file f := mk_state (heap s) (vdata s) (vdata_allocated s) (ht s)
  (root s) (queue_end s) (inode_table_size s) (bytes_written s) (fsverity_ctx s) f (allocs s).
Definition set_allocs l := mk_state (heap s) (vdata s) (vdata_allocated s) (ht s)
  (root s) (queue_end s) (inode_table_size s) (bytes_written s) (fsverity_ctx s) (file s) l.
End StateSetters.

(** Error outcomes: the errno values the writer sets, [EFAULT] for a
    dereference of an invalid node pointer (undefined behaviour in C),
    [EABORT] for a failed [assert] and [ELOOP] for a loop or recursion that
    does not terminate. *)
Inductive errno := EINVAL | EIO | ENOMEM | EFAULT | EABORT | ELOOP.

Inductive res (A : Type) := Ok (a : A) (s : state) | Err (e : errno).
Arguments Ok {A} a s.
Arguments Err {A} e.

Definition M (A : Type) := state -> res A.

Definition ret {A} (a : A) : M A := fun s => Ok a s.
Definition bind {A B} (m : M A) (k : A -> M B) : M B :=
  fun s => match m s with Ok a s' => k a s' | Err e => Err e end.
Definition fail {A} (e : errno) : M A := fun _ => Err e.
Definition gets {A} (f : state -> A) : M A := fun s => Ok (f s) s.
Definition modify (f : state -> state) : M unit := fun s => Ok tt (f s).
Definition assert (b : bool) : M unit := if b then ret tt else fail EABORT.
(** An allocation of the writer: its outcome is taken from [allocs]. *)
Definition try_alloc : M bool :=
  fun s => let (ok, l) := alloc_next (allocs s) in Ok ok (set_allocs s l).

Notation "'let*' x := m 'in' k" := (bind m (fun x => k))
  (at level 200, x name, m at level 100, k at level 200).

Definition load (p : nat) : M node :=
  fun s => match heap s !! p with Some n => Ok n s | None => Err EFAULT end.
Definition store (p : nat) (n : node) : M unit :=
  fun s => if decide (p < length (heap s)) then Ok tt (set_heap s (<[p := n]> (heap s)))
           else Err EFAULT.
Definition modify_inode (p : nat) (f : lcfs_inode_s -> lcfs_inode_s) : M unit :=
  let* n := load p in store p (set_inode n (f (Node.inode n))).

(* ------------------------------------------------------------------ *)
(** ** The variable-data arena: [lcfs_append_vdata] *)

Definition vdata_at (v : list byte) (e : lcfs_vdata_s) : list byte :=
  take (Z.to_nat (len e)) (drop (Z.to_nat (off e)) v).

(** [vdata_ht_comparator]: same length and same bytes. *)
Definition vdata_ht_comparator (v : list byte) (e : lcfs_vdata_s) (data : list byte) : bool :=
  bool_decide (Z.to_nat (len e) = length data) && bool_decide (vdata_at v e = data).

(** The dedup table: an entry matches a key when the comparator says so;
    [hash_insert] does not add a key equal to an entry already present, so
    the table holds at most one entry per content and the search order of
    the buckets does not matter. *)
Definition hash_lookup (t : list lcfs_vdata_s) (v : list byte) (data : list byte)
  : option lcfs_vdata_s := List.find (fun e => vdata_ht_comparator v e data) t.
Definition hash_insert (t : list lcfs_vdata_s) (v : list byte) (k : lcfs_vdata_s)
  : list lcfs_vdata_s :=
  match hash_lookup t v (vdata_at v k) with Some _ => t | None => k :: t end.

(** [lcfs_append_vdata].  [out->len] is a [uint32_t], so the length returned
    and stored in the dedup key is the data length modulo 2^32 (the lookup
    key [hkey.len] is the full [size_t]).  The [realloc] growing the arena
    can fail, returning -1 (ENOMEM).  The key is stored in the table only
    when its [malloc] and the allocation of [hash_insert] succeed. *)
Definition lcfs_append_vdata (data : list byte) (flags : Z) : M lcfs_vdata_s :=
  fun s =>
  let dedup := negb (Z.land flags APPEND_FLAGS_DEDUP =? 0)%Z in
  let align := negb (Z.land flags APPEND_FLAGS_ALIGN =? 0)%Z in
  match (if dedup then hash_lookup (ht s) (vdata s) data else None) with
  | Some ent => Ok (mk_vdata (off ent) (len ent)) s
  | None =>
      let vlen := Z.of_nat (length (vdata s)) in
      let pad_length := if align && negb (vlen mod 4 =? 0) then 4 - vlen mod 4 else 0 in
      let dlen := Z.of_nat (length data) in
      let grow := vdata_allocated s <? vlen + pad_length + dlen in
      let (realloc_ok, a1) := if grow then alloc_next (allocs s) else (true, allocs s) in
      if negb realloc_ok then Err ENOMEM else
      let alloc := if grow then vdata_allocated s + Z.max (2 ^ 20) (pad_length + dlen)
                   else vdata_allocated s in
      let v' := vdata s ++ repeat Byte.x00 (Z.to_nat pad_length) ++ data in
      let out := mk_vdata (vlen + pad_length) (dlen mod 2 ^ 32) in
      let (key_ok, a2) := alloc_next a1 in
      let (ins_ok, a3) := if key_ok then alloc_next a2 else (false, a2) in
      let t := if ins_ok then hash_insert (ht s) v' out else ht s in
      Ok out (set_allocs (set_arena s v' alloc t) a3)
  end%Z.

(* ------------------------------------------------------------------ *)
(** ** Canonicalization: [compute_tree] *)

Definition node_get_dtype (n : node) : Z :=
  let m := ifmt n in
  if (m =? S_IFLNK)%Z then DT_LNK
  else if (m =? S_IFDIR)%Z then DT_DIR
  else if (m =? S_IFREG)%Z then DT_REG
  else if (m =? S_IFBLK)%Z then DT_BLK
  else if (m =? S_IFCHR)%Z then DT_CHR
  else if (m =? S_IFSOCK)%Z then DT_SOCK
  else if (m =? S_IFIFO)%Z then DT_FIFO
  else DT_UNKNOWN.

(** [cmp_nodes] and [cmp_xattr] as orders for the sort ([strcmp] is the
    byte order of [String.compare]).  qsort is not stable, but names within
    a directory and keys within a node are unique, so every sort yields the
    same list. *)
Definition cmp_nodes_le (h : list node) (a b : nat) : Prop :=
  String.compare (name_of h a) (name_of h b) ≠ Gt.
Definition cmp_xattr_le (a b : lcfs_xattr_s) : Prop :=
  String.compare (key a) (key b) ≠ Gt.
#[global] Instance cmp_nodes_le_dec h : RelDecision (cmp_nodes_le h).
Proof. intros a b. unfold cmp_nodes_le. apply _. Defined.
#[global] Instance cmp_xattr_le_dec : RelDecision cmp_xattr_le.
Proof. intros a b. unfold cmp_xattr_le. apply _. Defined.

Definition is_link (n : node) : bool :=
  match Node.link_to n with Some _ => true | None => false end.

Fixpoint count_dir_children (cs : list nat) : M Z :=
  match cs with
  | [] => ret 0%Z
  | c :: cs' =>
      let* cn := load c in
      let* k := count_dir_children cs' in
      ret (if (ifmt cn =? S_IFDIR)%Z then (k + 1)%Z else k)
  end.

(** The body of the loop of [compute_tree] up to the enqueueing of the
    children: the structural check, the directory link count, the two sorts,
    the inode index ([uint32_t]) and the [in_tree] mark. *)
Definition compute_tree_visit (p : nat) (index : nat) : M unit :=
  let* n := load p in
  if negb (ifmt n =? S_IFDIR)%Z && negb (bool_decide (Node.children n = []))
  then fail EINVAL
  else
  let* n1 := (if (ifmt n =? S_IFDIR)%Z
              then let* k := count_dir_children (Node.children n) in
                   ret (set_inode n (set_st_nlink (Node.inode n) ((2 + k) mod 2 ^ 32)%Z))
              else ret n) in
  let* h := gets heap in
  let n2 := set_in_tree
              (set_inode_num
                 (set_xattrs
                    (set_children n1 (merge_sort (cmp_nodes_le h) (Node.children n1)))
                    (merge_sort cmp_xattr_le (Node.xattrs n1)))
                 (Z.of_nat index mod 2 ^ 32)%Z) true in
  let* _ := store p n2 in
  modify (fun s => set_inode_table_size s (inode_table_size s + sizeof_inode)%Z).

(** The inner loop appending the children to the intrusive queue; it skips
    every child when the node being visited is itself a hardlink. *)
Fixpoint compute_tree_enqueue (node_is_link : bool) (cs : list nat) : M unit :=
  match cs with
  | [] => ret tt
  | c :: cs' =>
      if node_is_link then compute_tree_enqueue node_is_link cs' else
      let* cn := load c in
      let* _ := assert (negb (Node.in_tree cn)) in
      let* qe := gets queue_end in
      let* qn := load qe in
      let* _ := store qe (set_next qn (Some c)) in
      let* _ := modify (fun s => set_queue_end s c) in
      compute_tree_enqueue node_is_link cs'
  end.

(** The [for (node = root, index = 0; node != NULL; node = node->next,
    index++)] loop.  A run visiting more nodes than the heap holds visits
    some node twice; it is reported as non-terminating. *)
Fixpoint compute_tree_loop (fuel : nat) (cur : option nat) (index : nat) : M unit :=
  match cur with
  | None => ret tt
  | Some p =>
      match fuel with
      | O => fail ELOOP
      | S f =>
          let* _ := compute_tree_visit p index in
          let* n := load p in
          let* _ := compute_tree_enqueue (is_link n) (Node.children n) in
          let* n' := load p in
          compute_tree_loop f (Node.next n') (S index)
      end
  end.

Definition compute_tree (r : nat) : M unit :=
  let* _ := modify (fun s => set_queue_end s r) in
  let* rn := load r in
  let* _ := store r (set_in_tree rn true) in
  let* h := gets heap in
  compute_tree_loop (S (length h)) (Some r) 0.

(** [for (node = ctx->root; node != NULL; node = node->next)] *)
Fixpoint for_each_node_from (fuel : nat) (cur : option nat) (body : nat -> M unit) : M unit :=
  match cur with
  | None => ret tt
  | Some p =>
      match fuel with
      | O => fail ELOOP
      | S f =>
          let* _ := body p in
          let* n := load p in
          for_each_node_from f (Node.next n) body
      end
  end.

Definition for_each_node (body : nat -> M unit) : M unit :=
  let* r := gets root in
  let* h := gets heap in
  for_each_node_from (S (length h)) (Some r) body.

(* ------------------------------------------------------------------ *)
(** ** Variable data: directories, payloads, digests *)

Fixpoint follow_links_fuel (h : list node) (fuel : nat) (p : nat) : errno + nat :=
  match fuel with
  | O => inl ELOOP
  | S f =>
      match h !! p with
      | None => inl EFAULT
      | Some n => match Node.link_to n with
                  | Some t => follow_links_fuel h f t
                  | None => inr p
                  end
      end
  end.

(** [follow_links]; a cyclic chain overflows the stack in C. *)
Definition follow_links (h : list node) (p : nat) : errno + nat :=
  follow_links_fuel h (S (length h)) p.

(** [lcfs_node_make_hardlink]: [node->link_to] becomes a new reference to
    the end of [target]'s chain, whose [st_nlink] ([uint32_t]) goes up by
    one.  A cyclic chain overflows the stack in C; the heap is then left
    as it was. *)
Definition lcfs_node_make_hardlink (h : list node) (p target : nat) : list node :=
  match follow_links h target with
  | inr t =>
      let h := heap_update h t (fun n => set_ref_count n (Node.ref_count n + 1)%Z) in
      let h := heap_update h p (fun n => set_link_to n (Some t)) in
      heap_update h t (fun n => set_inode n (set_st_nlink (Node.inode n)
                                                ((st_nlink (Node.inode n) + 1) mod 2 ^ 32)%Z))
  | inl _ => h
  end.

(** [lcfs_node_ref] *)
Definition lcfs_node_ref (h : list node) (p : nat) : list node :=
  heap_update h p (fun n => set_ref_count n (Node.ref_count n + 1)%Z).

(** [lcfs_node_unref] on a heap and the list of the nodes freed so far; a
    freed node stays in the heap and is added to that list.  A failed
    [assert] aborts; [fuel] bounds the recursion, which in C only fails to
    end on a cyclic graph.  The children array and [link_to] are read from
    the node as it was on entry: nothing in [lcfs_node_unref] writes them. *)
Fixpoint lcfs_node_unref (fuel : nat) (p : nat) (hf : list node * list nat)
  : errno + (list node * list nat) :=
  match fuel with
  | O => inl ELOOP
  | S fuel =>
      let '(h, freed) := hf in
      match h !! p with
      | None => inl EFAULT
      | Some n =>
          let rc := (Node.ref_count n - 1)%Z in
          let h := <[p := set_ref_count n rc]> h in
          if (0 <? rc)%Z then inr (h, freed)
          else if bool_decide (Node.parent n ≠ None) then inl EABORT
          else
            let fix unref_children (cs : list nat) (hf : list node * list nat) :=
              match cs with
              | [] => inr hf
              | c :: cs' =>
                  let '(h, freed) := hf in
                  let h := heap_update h c (fun cn => set_parent_name cn None (Node.name cn)) in
                  match lcfs_node_unref fuel c (h, freed) with
                  | inl e => inl e
                  | inr hf => unref_children cs' hf
                  end
              end in
            match unref_children (Node.children n) (h, freed) with
            | inl e => inl e
            | inr hf =>
                match Node.link_to n with
                | Some t => match lcfs_node_unref fuel t hf with
                            | inl e => inl e
                            | inr (h, freed) => inr (h, freed ++ [p])
                            end
                | None => let '(h, freed) := hf in inr (h, freed ++ [p])
                end
            end
      end
  end.

(** The loop of [lcfs_node_remove_child]: the index of the first child
    whose name is set and equal to [nm]. *)
Fixpoint find_child_index (h : list node) (cs : list nat) (nm : string) (i : nat) : option nat :=
  match cs with
  | [] => None
  | c :: cs' =>
      match h !! c with
      | Some cn => match Node.name cn with
                   | Some cnm => if String.eqb cnm nm then Some i
                                 else find_child_index h cs' nm (S i)
                   | None => find_child_index h cs' nm (S i)
                   end
      | None => find_child_index h cs' nm (S i)
      end
  end.

(** [lcfs_node_remove_child]: the C return value with the heap and the
    nodes freed by the final [lcfs_node_unref]. *)
Definition lcfs_node_remove_child (fuel : nat) (h : list node) (parent : nat) (nm : string)
  : errno + (Z * (list node * list nat)) :=
  match h !! parent with
  | None => inl EFAULT
  | Some pn =>
      if negb (ifmt pn =? S_IFDIR)%Z then inr ((-1)%Z, (h, []))            (* ENOTDIR *)
      else
        let cs := Node.children pn in
        match find_child_index h cs nm 0 with
        | None => inr ((-1)%Z, (h, []))                                    (* ENOENT *)
        | Some i =>
            match cs !! i with
            | None => inr ((-1)%Z, (h, []))
            | Some c =>
                let h := <[parent := set_children pn (take i cs ++ drop (S i) cs)]> h in
                let h := heap_update h c (fun cn => set_parent_name cn None None) in
                match lcfs_node_unref fuel c (h, []) with
                | inl e => inl e
                | inr hf => inr (0%Z, hf)
                end
            end
        end
  end.

Fixpoint names_size (h : list node) (cs : list nat) : errno + Z :=
  match cs with
  | [] => inr 0%Z
  | c :: cs' =>
      match h !! c with
      | None => inl EFAULT
      | Some cn =>
          match Node.name cn with
          | None => inl EFAULT                      (* strlen (NULL) *)
          | Some nm =>
              if decide (LCFS_MAX_NAME_LENGTH < strlen nm) then inl EINVAL
              else match names_size h cs' with
                   | inl e => inl e
                   | inr k => inr (Z.of_nat (strlen nm) + k)%Z
                   end
          end
      end
  end.

(** [compute_dirents_size]: [inl EINVAL] stands for its return of -1. *)
Definition compute_dirents_size (h : list node) (n : node) : errno + Z :=
  match Node.children n with
  | [] => inr 0%Z
  | cs => match names_size h cs with
          | inl e => inl e
          | inr k => inr (lcfs_dir_header_size (length cs) + k)%Z
          end
  end.

Module Dirent.
Record lcfs_dirent_s := mk {
  inode_num : Z; name_offset : Z; name_len : Z; d_type : Z }.
End Dirent.

(** Modelled from the spec: the byte layout of a dirent record and of a
    directory block (lcfs.h is not among the sources). *)
Definition dirent_bytes (d : Dirent.lcfs_dirent_s) : list byte :=
  le32 (Dirent.inode_num d) ++ le32 (Dirent.name_offset d)
  ++ [byte_of_Z (Dirent.name_len d); byte_of_Z (Dirent.d_type d)] ++ le16 0.

Definition dir_block (ds : list Dirent.lcfs_dirent_s) (names : list byte) : list byte :=
  le32 (Z.of_nat (length ds)) ++ concat (map dirent_bytes ds) ++ names.

(** The loop of [compute_dirents] filling the dirent records and the name
    area, for the children [cs] starting at name offset [name_offset]. *)
Fixpoint build_dirents (h : list node) (cs : list nat) (name_offset : Z)
  : errno + (list Dirent.lcfs_dirent_s * list byte) :=
  match cs with
  | [] => inr ([], [])
  | c :: cs' =>
      match h !! c with
      | None => inl EFAULT
      | Some cn =>
          match follow_links h c with
          | inl e => inl e
          | inr t =>
              match h !! t with
              | None => inl EFAULT
              | Some tn =>
                  let nm := cstr (default "" (Node.name cn)) in
                  let d := Dirent.mk (Node.inode_num tn) name_offset
                                     (Z.of_nat (length nm)) (node_get_dtype tn) in
                  match build_dirents h cs' (name_offset + Z.of_nat (length nm))%Z with
                  | inl e => inl e
                  | inr (ds, names) => inr (d :: ds, nm ++ names)
                  end
              end
          end
      end
  end.

(** [compute_dirents].  A size of -1 is not 0, so C goes on to
    [calloc (1, (size_t) -1)], which fails with ENOMEM. *)
Definition compute_dirents (p : nat) : M unit :=
  let* n := load p in
  let* h := gets heap in
  match compute_dirents_size h n with
  | inl EINVAL => fail ENOMEM
  | inl e => fail e
  | inr size =>
      if (size =? 0)%Z then ret tt else
      let* buf_ok := try_alloc in                        (* calloc (1, dirents_size) *)
      if negb buf_ok then fail ENOMEM else
      match build_dirents h (Node.children n) 0 with
      | inl e => fail e
      | inr (ds, names) =>
          let* out := lcfs_append_vdata (dir_block ds names) APPEND_FLAGS_ALIGN in
          modify_inode p (fun i => set_variable_data i out)
      end
  end.

Definition payload_bytes (n : node) : list byte :=
  match Node.payload n with Some s => cstr s | None => [] end.

Definition compute_variable_data_node (p : nat) : M unit :=
  let* n := load p in
  let* _ := (if (ifmt n =? S_IFDIR)%Z then compute_dirents p else ret tt) in
  let* n := load p in
  let* _ := (if (ifmt n =? S_IFREG)%Z then
               (* never a payload for empty files *)
               if negb (st_size (Node.inode n) =? 0)%Z && negb (bool_decide (payload_bytes n = []))
               then let* out := lcfs_append_vdata (payload_bytes n) APPEND_FLAGS_DEDUP in
                    modify_inode p (fun i => set_variable_data i out)
               else ret tt
             else ret tt) in
  let* n := load p in
  let* _ := (if (ifmt n =? S_IFLNK)%Z then
               if negb (bool_decide (payload_bytes n = []))
               then let* out := lcfs_append_vdata (payload_bytes n) APPEND_FLAGS_DEDUP in
                    modify_inode p (fun i => set_variable_data i out)
               else ret tt
             else ret tt) in
  let* n := load p in
  if Node.digest_set n then
    let* out := lcfs_append_vdata (Node.digest n) APPEND_FLAGS_DEDUP in
    modify_inode p (fun i => set_digest_vd i out)
  else ret tt.

Definition compute_variable_data : M unit := for_each_node compute_variable_data_node.

(* ------------------------------------------------------------------ *)
(** ** Xattr blocks: [compute_xattrs] *)

(** Modelled from the spec: the xattr block layout (a u16 count, a
    (u16 key_length, u16 value_length) pair per entry, then each key
    followed by its value). *)
Definition xattr_block (xs : list lcfs_xattr_s) : list byte :=
  le16 (Z.of_nat (length xs))
  ++ concat (map (fun x => le16 (Z.of_nat (strlen (key x))) ++ le16 (Z.of_nat (length (value x)))) xs)
  ++ concat (map (fun x => cstr (key x) ++ value x) xs).

Definition compute_xattrs_node (p : nat) : M unit :=
  let* n := load p in
  match Node.xattrs n with
  | [] => ret tt
  | xs =>
      let* buf_ok := try_alloc in                        (* calloc (1, buffer_len) *)
      if negb buf_ok then fail ENOMEM else
      let* out := lcfs_append_vdata (xattr_block xs)
                    (Z.lor APPEND_FLAGS_DEDUP APPEND_FLAGS_ALIGN) in
      modify_inode p (fun i => set_xattrs_vd i out)
  end.

Definition compute_xattrs : M unit := for_each_node compute_xattrs_node.

(* ------------------------------------------------------------------ *)
(** ** Emission: [lcfs_write], padding, inode records *)

(** The write callback: given the bytes it has accepted so far and the
    bytes offered, it returns how many it accepts (<= 0 is an error).  Its
    own state ([file]) is a function of what it has accepted. *)
Definition lcfs_write_cb := list byte -> list byte -> Z.

(** The retry loop of [lcfs_write]; a return above the offered length
    makes C's [data_len -= r] wrap and read past the buffer. *)
Fixpoint write_cb_loop (fuel : nat) (cb : lcfs_write_cb) (data : list byte) : M unit :=
  match data with
  | [] => ret tt
  | _ :: _ =>
      match fuel with
      | O => fail ELOOP
      | S f =>
          let* fl := gets file in
          let r := cb fl data in
          if (r <=? 0)%Z then fail EIO
          else if (Z.of_nat (length data) <? r)%Z then fail EFAULT
          else let* _ := modify (fun s => set_file s (file s ++ take (Z.to_nat r) data)) in
               write_cb_loop f cb (drop (Z.to_nat r) data)
      end
  end.

Definition lcfs_write (cb : option lcfs_write_cb) (data : list byte) : M unit :=
  let* _ := modify (fun s => set_written s (option_map (fun fed => fed ++ data) (fsverity_ctx s))
                                          (bytes_written s + Z.of_nat (length data))%Z) in
  match cb with
  | None => ret tt
  | Some f => write_cb_loop (length data) f data
  end.

Fixpoint lcfs_write_pad_loop (fuel : nat) (cb : option lcfs_write_cb) (remaining : nat) : M unit :=
  match fuel with
  | O => ret tt
  | S f =>
      match remaining with
      | O => ret tt
      | _ => let k := Nat.min 256 remaining in
             let* _ := lcfs_write cb (repeat Byte.x00 k) in
             lcfs_write_pad_loop f cb (remaining - k)
      end
  end.

(** [lcfs_write_pad]: zeros in chunks of 256 bytes. *)
Definition lcfs_write_pad (cb : option lcfs_write_cb) (n : nat) : M unit :=
  lcfs_write_pad_loop n cb n.

(** Modelled from the spec: the packed little-endian inode record. *)
Definition inode_bytes (i : lcfs_inode_s) : list byte :=
  le32 (st_mode i) ++ le32 (st_nlink i) ++ le32 (st_uid i) ++ le32 (st_gid i)
  ++ le32 (st_rdev i) ++ le64 (st_size i)
  ++ le64 (st_mtim_sec i) ++ le32 (st_mtim_nsec i)
  ++ le64 (st_ctim_sec i) ++ le32 (st_ctim_nsec i)
  ++ le64 (off (variable_data i)) ++ le32 (len (variable_data i))
  ++ le64 (off (xattrs i)) ++ le32 (len (xattrs i))
  ++ le64 (off (digest i)) ++ le32 (len (digest i)).

Definition write_inode_data (cb : option lcfs_write_cb) (p : nat) : M unit :=
  let* n := load p in lcfs_write cb (inode_bytes (Node.inode n)).

Definition write_inodes (cb : option lcfs_write_cb) : M unit :=
  for_each_node (write_inode_data cb).

(* ------------------------------------------------------------------ *)
(** ** [lcfs_write_to] *)

Section WriteTo.

(** Modelled from the spec: lcfs.h and lcfs-fsverity.c are not among the
    sources.  The magic and version constants are left abstract, and so is
    the digest engine, whose contract in the spec is that the digest is a
    function of the byte stream fed to it. *)
Variables LCFS_MAGIC LCFS_VERSION : Z.
Variable fsverity_digest : list byte -> list byte.

Definition superblock_bytes (vdata_offset : Z) : list byte :=
  le32 LCFS_MAGIC ++ le32 LCFS_VERSION ++ le64 vdata_offset.

(** [lcfs_new_ctx]: a zeroed context holding the root, with the allocator
    [allocs]; the table of [hash_initialize], whose result C does not
    check, is taken as allocated. *)
Definition lcfs_new_ctx (h : list node) (r : nat) (want_digest : bool) (allocs : list bool)
  : state :=
  mk_state h [] 0 [] r 0 0 0 (if want_digest then Some [] else None) [] allocs.

Definition lcfs_write_to_body (r : nat) (cb : option lcfs_write_cb) (want_digest : bool)
  : M (option (list byte)) :=
  let* _ := compute_tree r in
  let* its := gets inode_table_size in
  let data_offset := ALIGN_TO (sizeof_superblock + its) 4 in
  let* _ := compute_variable_data in
  let* _ := compute_xattrs in
  let* _ := lcfs_write cb (superblock_bytes data_offset) in
  let* _ := write_inodes cb in
  let* bw := gets bytes_written in
  let* its' := gets inode_table_size in
  let* _ := assert (bw =? sizeof_superblock + its')%Z in
  let* alloc := gets vdata_allocated in
  let* _ := (if (0 <? alloc)%Z then            (* ctx->vdata != NULL *)
               let* bw := gets bytes_written in
               let* _ := lcfs_write_pad cb (Z.to_nat (data_offset - bw)) in
               let* v := gets vdata in
               lcfs_write cb v
             else ret tt) in
  if want_digest then
    let* fed := gets fsverity_ctx in ret (Some (fsverity_digest (default [] fed)))
  else ret None.

(** [lcfs_write_to root file write_cb digest_out], its allocations taking
    their outcomes from [allocs]: the [calloc] of the context, then the
    digest context when a digest is asked for, then those of the body.
    [Ok digest s] is a return of 0 with the final heap and sink contents
    in [s]. *)
Definition lcfs_write_to (h : list node) (r : nat) (cb : option lcfs_write_cb)
  (want_digest : bool) (allocs : list bool) : res (option (list byte)) :=
  match alloc_next allocs with
  | (false, _) => Err ENOMEM
  | (true, a1) =>
      match (if want_digest then alloc_next a1 else (true, a1)) with
      | (false, _) => Err ENOMEM
      | (true, a2) => lcfs_write_to_body r cb want_digest (lcfs_new_ctx h r want_digest a2)
      end
  end.

End WriteTo.

(* ------------------------------------------------------------------ *)
(** ** Relations a computation establishes between its initial and final
    states *)

Definition holds (R : state -> state -> Prop) {A} (m : M A) : Prop :=
  forall s a s', m s = Ok a s' -> R s s'.

Lemma bind_Ok {A B} (m : M A) (k : A -> M B) s b s'' :
  bind m k s = Ok b s'' -> exists a s', m s = Ok a s' /\ k a s' = Ok b s''.
Proof. unfold bind. destruct (m s) as [a s'|e]; [eauto|discriminate]. Qed.

Lemma bind_gets {A B} (g : state -> A) (k : A -> M B) s : bind (gets g) k s = k (g s) s.
Proof. reflexivity. Qed.

Section Holds.
Context (R : state -> state -> Prop) `{!PreOrder R}.

Lemma holds_ret {A} (a : A) : holds R (ret a).
Proof. intros s b s' H. inversion H; subst. reflexivity. Qed.
Lemma holds_fail {A} e : holds R (fail (A:=A) e).
Proof. discriminate. Qed.
Lemma holds_gets {A} (f : state -> A) : holds R (gets f).
Proof. intros s b s' H. inversion H; subst. reflexivity. Qed.
Lemma holds_load p : holds R (load p).
Proof. intros s b s' H. unfold load in H. destruct (heap s !! p); inversion H; subst; reflexivity. Qed.
Lemma holds_assert b : holds R (assert b).
Proof. destruct b; [apply holds_ret|apply holds_fail]. Qed.
Lemma holds_bind {A B} (m : M A) (k : A -> M B) :
  holds R m -> (forall a, holds R (k a)) -> holds R (bind m k).
Proof.
  intros Hm Hk s b s'' H. apply bind_Ok in H as (a & s' & H1 & H2).
  transitivity s'; [eapply Hm|eapply Hk]; eauto.
Qed.
Lemma holds_modify f : (forall s, R s (f s)) -> holds R (modify f).
Proof. intros Hf s b s' H. inversion H; subst. apply Hf. Qed.
Lemma holds_try_alloc : (forall s l, R s (set_allocs s l)) -> holds R try_alloc.
Proof.
  intros Hf s b s' H. unfold try_alloc in H. destruct (alloc_next (allocs s)).
  inversion H; subst. apply Hf.
Qed.
Lemma holds_store p n :
  (forall s, p < length (heap s) -> R s (set_heap s (<[p := n]> (heap s)))) -> holds R (store p n).
Proof.
  intros Hf s b s' H. unfold store in H.
  destruct (decide _); inversion H; subst. by apply Hf.
Qed.

Lemma holds_for_each_node_from fuel cur body :
  (forall p, holds R (body p)) -> holds R (for_each_node_from fuel cur body).
Proof.
  intros Hb. revert cur. induction fuel as [|f IH]; intros [p|]; simpl;
    eauto using holds_ret, holds_fail, holds_bind, holds_load.
Qed.
Lemma holds_for_each_node body :
  (forall p, holds R (body p)) -> holds R (for_each_node body).
Proof.
  intros Hb. unfold for_each_node.
  eauto using holds_bind, holds_gets, holds_for_each_node_from.
Qed.

End Holds.

Ltac holds_step :=
  match goal with
  | |- holds _ (bind _ _) => apply holds_bind; try typeclasses eauto; [|intros ?]
  | |- holds _ (ret _) => apply holds_ret; typeclasses eauto
  | |- holds _ (fail _) => apply holds_fail
  | |- holds _ (gets _) => apply holds_gets; typeclasses eauto
  | |- holds _ (load _) => apply holds_load; typeclasses eauto
  | |- holds _ (assert _) => apply holds_assert; typeclasses eauto
  | |- holds _ try_alloc =>
      apply holds_try_alloc; intros ??; match goal with |- ?R ?a _ => change (R a a); reflexivity end
  | |- holds _ (if ?b then _ else _) => destruct b
  | |- holds _ (match ?x with _ => _ end) => destruct x
  end.

(** The output side of the context: what no canonicalization or layout
    phase touches. *)
Definition keeps_output (s s' : state) : Prop :=
  file s' = file s /\ bytes_written s' = bytes_written s /\
  fsverity_ctx s' = fsverity_ctx s /\ root s' = root s.

(** [compute_tree]: the arena untouched, the inode table grown by whole
    records. *)
Definition tree_rel (s s' : state) : Prop :=
  keeps_output s s' /\ vdata s' = vdata s /\ vdata_allocated s' = vdata_allocated s /\
  ((inode_table_size s' - inode_table_size s) mod sizeof_inode = 0)%Z.

(** The arena fits its allocation ([vdata_len <= vdata_allocated]). *)
Definition arena_ok (s : state) : Prop := (Z.of_nat (length (vdata s)) <= vdata_allocated s)%Z.

(** [compute_variable_data] and [compute_xattrs]: the inode table size kept,
    the arena within its allocation. *)
Definition layout_rel (s s' : state) : Prop :=
  keeps_output s s' /\ inode_table_size s' = inode_table_size s /\ (arena_ok s -> arena_ok s').

#[global] Instance keeps_output_preorder : PreOrder keeps_output.
Proof.
  split; [intros s; repeat split|].
  intros s1 s2 s3 (?&?&?&?) (?&?&?&?). repeat split; congruence.
Qed.
#[global] Instance tree_rel_preorder : PreOrder tree_rel.
Proof.
  split.
  - intros s. split; [reflexivity|]. repeat split. by rewrite Z.sub_diag.
  - intros s1 s2 s3 (?&?&?&E1) (?&?&?&E2). split; [etrans; eauto|].
    split; [congruence|]. split; [congruence|].
    replace (inode_table_size s3 - inode_table_size s1)%Z with
      ((inode_table_size s3 - inode_table_size s2) + (inode_table_size s2 - inode_table_size s1))%Z by lia.
    rewrite Z.add_mod, E1, E2 by (unfold sizeof_inode; lia). reflexivity.
Qed.
#[global] Instance layout_rel_preorder : PreOrder layout_rel.
Proof.
  split.
  - intros s. split; [reflexivity|]. split; auto.
  - intros s1 s2 s3 (?&?&?) (?&?&?). split; [etrans; eauto|]. split; [congruence|]. auto.
Qed.

Lemma tree_rel_store p n : holds tree_rel (store p n).
Proof. apply holds_store; try typeclasses eauto. intros s _. split; [repeat split|]. repeat split. by rewrite Z.sub_diag. Qed.

Lemma count_dir_children_tree cs : holds tree_rel (count_dir_children cs).
Proof. induction cs; simpl; repeat holds_step; auto. Qed.

Lemma compute_tree_visit_tree p index : holds tree_rel (compute_tree_visit p index).
Proof.
  unfold compute_tree_visit. repeat holds_step; auto using count_dir_children_tree, tree_rel_store.
  apply holds_modify; try typeclasses eauto. intros s. split; [repeat split|]. repeat split. simpl.
  replace (inode_table_size s + sizeof_inode - inode_table_size s)%Z with sizeof_inode by lia.
  reflexivity.
Qed.

Lemma compute_tree_enqueue_tree b cs : holds tree_rel (compute_tree_enqueue b cs).
Proof.
  induction cs; simpl; [apply holds_ret; typeclasses eauto|].
  destruct b; [done|]. repeat holds_step; auto using tree_rel_store.
  apply holds_modify; try typeclasses eauto. intros s. split; [repeat split|]. repeat split.
  by rewrite Z.sub_diag.
Qed.

Lemma compute_tree_loop_tree fuel cur index : holds tree_rel (compute_tree_loop fuel cur index).
Proof.
  revert cur index. induction fuel as [|f IH]; intros [p|] index; simpl; repeat holds_step;
    auto using compute_tree_visit_tree, compute_tree_enqueue_tree.
Qed.

Lemma compute_tree_tree r : holds tree_rel (compute_tree r).
Proof.
  unfold compute_tree. repeat holds_step; auto using tree_rel_store, compute_tree_loop_tree.
  apply holds_modify; try typeclasses eauto. intros s. split; [repeat split|]. repeat split.
  by rewrite Z.sub_diag.
Qed.

Lemma layout_rel_store p n : holds layout_rel (store p n).
Proof. apply holds_store; try typeclasses eauto. intros s _. split; [repeat split|]. split; auto. Qed.

Lemma layout_rel_modify_inode p f : holds layout_rel (modify_inode p f).
Proof. unfold modify_inode. repeat holds_step. apply layout_rel_store. Qed.

Lemma Forall_true_alloc_next l :
  Forall (fun b => b = true) l ->
  fst (alloc_next l) = true /\ Forall (fun b => b = true) (snd (alloc_next l)).
Proof. intros Hl. destruct Hl; simpl; auto. Qed.

(** The outcomes of [lcfs_append_vdata]: a dedup hit returns the stored
    reference and keeps the state; otherwise the data is appended after
    the pad, the length narrowed to 32 bits, and the key stored when its
    allocations succeed. *)
Lemma append_vdata_inv data flags s o s' :
  lcfs_append_vdata data flags s = Ok o s' ->
  (exists ent, negb (Z.land flags APPEND_FLAGS_DEDUP =? 0)%Z = true /\
     hash_lookup (ht s) (vdata s) data = Some ent /\ o = mk_vdata (off ent) (len ent) /\ s' = s) \/
  ((negb (Z.land flags APPEND_FLAGS_DEDUP =? 0)%Z = true -> hash_lookup (ht s) (vdata s) data = None) /\
   let vlen := Z.of_nat (length (vdata s)) in
   let pad := (if negb (Z.land flags APPEND_FLAGS_ALIGN =? 0) && negb (vlen mod 4 =? 0)
               then 4 - vlen mod 4 else 0)%Z in
   let v' := vdata s ++ repeat Byte.x00 (Z.to_nat pad) ++ data in
   o = mk_vdata (vlen + pad) (Z.of_nat (length data) mod 2 ^ 32) /\
   exists alloc t a,
     s' = set_allocs (set_arena s v' alloc t) a /\
     ((alloc = vdata_allocated s /\ vlen + pad + Z.of_nat (length data) <= vdata_allocated s) \/
      alloc = vdata_allocated s + Z.max (2 ^ 20) (pad + Z.of_nat (length data)))%Z /\
     (t = ht s \/ t = hash_insert (ht s) v' o) /\
     (Forall (fun b => b = true) (allocs s) ->
        t = hash_insert (ht s) v' o /\ Forall (fun b => b = true) a)).
Proof.
  intros H. unfold lcfs_append_vdata in H.
  destruct (if negb (Z.land flags APPEND_FLAGS_DEDUP =? 0)%Z
            then hash_lookup (ht s) (vdata s) data else None) as [ent|] eqn:E.
  - left. destruct (negb _); [|discriminate]. injection H as <- <-. eauto.
  - right. split; [intros Hd; by rewrite Hd in E|]. clear E. cbv zeta in H |- *.
    set (vlen := Z.of_nat (length (vdata s))) in *.
    set (pad := (if negb (Z.land flags APPEND_FLAGS_ALIGN =? 0) && negb (vlen mod 4 =? 0)
               then 4 - vlen mod 4 else 0)%Z) in *.
    set (v' := vdata s ++ repeat Byte.x00 (Z.to_nat pad) ++ data) in *.
    set (o' := mk_vdata (vlen + pad) (Z.of_nat (length data) mod 2 ^ 32)) in *.
    destruct (vdata_allocated s <? vlen + pad + Z.of_nat (length data))%Z eqn:Eg.
    + destruct (alloc_next (allocs s)) as [[|] a1] eqn:Ea; [|discriminate]. simpl in H.
      destruct (alloc_next a1) as [k a2] eqn:Ek.
      destruct (if k then alloc_next a2 else (false, a2)) as [i a3] eqn:Ei.
      injection H as <- <-. split; [reflexivity|].
      exists (vdata_allocated s + Z.max (2 ^ 20) (pad + Z.of_nat (length data)))%Z,
        (if i then hash_insert (ht s) v' o' else ht s), a3.
      split; [reflexivity|]. split; [by right|]. split; [destruct i; auto|].
      intros Hf. pose proof (Forall_true_alloc_next _ Hf) as [H1 H2]. rewrite Ea in H1, H2.
      simpl in H1, H2. pose proof (Forall_true_alloc_next _ H2) as [H3 H4]. rewrite Ek in H3, H4.
      simpl in H3, H4. subst k. pose proof (Forall_true_alloc_next _ H4) as [H5 H6].
      rewrite Ei in H5, H6. simpl in H5, H6. subst i. auto.
    + apply Z.ltb_ge in Eg. simpl in H.
      destruct (alloc_next (allocs s)) as [k a2] eqn:Ek.
      destruct (if k then alloc_next a2 else (false, a2)) as [i a3] eqn:Ei.
      injection H as <- <-. split; [reflexivity|].
      exists (vdata_allocated s), (if i then hash_insert (ht s) v' o' else ht s), a3.
      split; [reflexivity|]. split; [by left|]. split; [destruct i; auto|].
      intros Hf. pose proof (Forall_true_alloc_next _ Hf) as [H3 H4]. rewrite Ek in H3, H4.
      simpl in H3, H4. subst k. pose proof (Forall_true_alloc_next _ H4) as [H5 H6].
      rewrite Ei in H5, H6. simpl in H5, H6. subst i. auto.
Qed.

Lemma append_vdata_layout data flags : holds layout_rel (lcfs_append_vdata data flags).
Proof.
  intros s a s' H. apply append_vdata_inv in H as [(ent & _ & _ & _ & ->)|(_ & _ & alloc & t & a' & -> & Ha & _)].
  { reflexivity. }
  split; [repeat split|]. split; [done|].
  unfold arena_ok; simpl. rewrite !length_app, repeat_length. intros Hok.
  set (vlen := Z.of_nat (length (vdata s))) in *.
  assert (Hm : (0 <= vlen mod 4 < 4)%Z) by (apply Z.mod_pos_bound; lia).
  set (pad := (if negb (Z.land flags APPEND_FLAGS_ALIGN =? 0) && negb (vlen mod 4 =? 0)
               then 4 - vlen mod 4 else 0)%Z) in *.
  assert (Hp : (0 <= pad)%Z) by (unfold pad; destruct (_ && _)%bool; lia).
  lia.
Qed.

Lemma compute_dirents_layout p : holds layout_rel (compute_dirents p).
Proof.
  unfold compute_dirents. repeat holds_step; auto using append_vdata_layout, layout_rel_modify_inode.
Qed.

Lemma compute_variable_data_layout : holds layout_rel compute_variable_data.
Proof.
  apply holds_for_each_node; try typeclasses eauto. intros p. unfold compute_variable_data_node.
  repeat holds_step; auto using compute_dirents_layout, append_vdata_layout, layout_rel_modify_inode.
Qed.

Lemma compute_xattrs_layout : holds layout_rel compute_xattrs.
Proof.
  apply holds_for_each_node; try typeclasses eauto. intros p. unfold compute_xattrs_node.
  repeat holds_step; auto using append_vdata_layout, layout_rel_modify_inode.
Qed.

Lemma set_file_file s : set_file s (file s) = s.
Proof. by destruct s. Qed.
Lemma set_file_set_file s a b : set_file (set_file s a) b = set_file s b.
Proof. by destruct s. Qed.

(** With a callback that succeeds, the retry loop delivers exactly the
    offered bytes. *)
Lemma write_cb_loop_Ok fuel f data s u s' :
  write_cb_loop fuel f data s = Ok u s' -> s' = set_file s (file s ++ data).
Proof.
  revert data s. induction fuel as [|fu IH]; intros [|b data] s H; simpl in H.
  - inversion H; subst. by rewrite app_nil_r, set_file_file.
  - discriminate.
  - inversion H; subst. by rewrite app_nil_r, set_file_file.
  - unfold bind, gets in H.
    destruct (f (file s) (b :: data) <=? 0)%Z; [cbv [fail] in H; discriminate|].
    destruct (Z.of_nat (S (length data)) <? f (file s) (b :: data))%Z;
      [cbv [fail] in H; discriminate|].
    unfold modify in H. apply IH in H. subst. simpl.
    by rewrite set_file_set_file, <- app_assoc, take_drop.
Qed.

(** The emission phase: every byte counted in [bytes_written] is delivered;
    the heap, the arena and the inode table size are untouched. *)
Definition emit_rel (s s' : state) : Prop :=
  (Z.of_nat (length (file s')) - Z.of_nat (length (file s)) = bytes_written s' - bytes_written s)%Z /\
  heap s' = heap s /\ root s' = root s /\ vdata s' = vdata s /\
  vdata_allocated s' = vdata_allocated s /\ inode_table_size s' = inode_table_size s.

#[global] Instance emit_rel_preorder : PreOrder emit_rel.
Proof.
  split.
  - intros s. repeat split. lia.
  - intros s1 s2 s3 (?&?&?&?&?&?) (?&?&?&?&?&?). repeat split; try congruence. lia.
Qed.

Lemma lcfs_write_Ok f data s u s' :
  lcfs_write (Some f) data s = Ok u s' ->
  file s' = file s ++ data /\
  bytes_written s' = (bytes_written s + Z.of_nat (length data))%Z /\ emit_rel s s'.
Proof.
  unfold lcfs_write, bind, modify. intros H. apply write_cb_loop_Ok in H. subst.
  simpl. split; [done|]. split; [done|].
  unfold emit_rel; simpl. repeat split. rewrite length_app. lia.
Qed.

Lemma lcfs_write_emit f data : holds emit_rel (lcfs_write (Some f) data).
Proof. intros s u s' H. by apply lcfs_write_Ok in H as (_ & _ & ?). Qed.

Lemma write_inodes_emit f : holds emit_rel (write_inodes (Some f)).
Proof.
  apply holds_for_each_node; try typeclasses eauto. intros p.
  unfold write_inode_data. repeat holds_step. apply lcfs_write_emit.
Qed.

Lemma write_pad_loop_Ok fuel f n s u s' :
  n <= fuel -> lcfs_write_pad_loop fuel (Some f) n s = Ok u s' ->
  bytes_written s' = (bytes_written s + Z.of_nat n)%Z /\ emit_rel s s'.
Proof.
  revert n s. induction fuel as [|fu IH]; intros n s Hn H.
  - inversion H; subst. split; [lia|reflexivity].
  - destruct n as [|n'].
    + inversion H; subst. split; [lia|reflexivity].
    + cbn [lcfs_write_pad_loop] in H. apply bind_Ok in H as (u1 & s1 & H1 & H2).
      apply lcfs_write_Ok in H1 as (_ & Hb1 & He1).
      apply IH in H2 as [Hb2 He2]; [|lia].
      rewrite repeat_length in Hb1. split; [|etrans; eauto]. lia.
Qed.

Lemma ALIGN_TO_4 x : ALIGN_TO x 4 = ((x + 3) / 4 * 4)%Z.
Proof.
  unfold ALIGN_TO. replace (4 - 1)%Z with (Z.ones 2) by reflexivity.
  rewrite <- Z.ldiff_land, Z.ldiff_ones_r by lia.
  rewrite Z.shiftl_mul_pow2, Z.shiftr_div_pow2 by lia.
  replace (x + 4 - 1)%Z with (x + 3)%Z by lia. reflexivity.
Qed.

Lemma ALIGN_TO_4_ge x : (x <= ALIGN_TO x 4)%Z.
Proof.
  rewrite ALIGN_TO_4. pose proof (Z.div_mod (x + 3) 4 ltac:(lia)).
  pose proof (Z.mod_pos_bound (x + 3) 4 ltac:(lia)). lia.
Qed.

Lemma ALIGN_TO_4_id x : (x mod 4 = 0)%Z -> ALIGN_TO x 4 = x.
Proof.
  intros Hx. rewrite ALIGN_TO_4. pose proof (Z.div_mod x 4 ltac:(lia)).
  replace (x + 3)%Z with (3 + (x / 4) * 4)%Z by lia.
  rewrite Z.div_add, (Z.div_small 3 4) by lia. lia.
Qed.

(* ------------------------------------------------------------------ *)
(** ** The intrusive list through [next] *)

(** [chain h cur l]: following [next] from [cur] in [h] visits [l] and then
    reaches NULL. *)
Inductive chain (h : list node) : option nat -> list nat -> Prop :=
| chain_nil : chain h None []
| chain_cons p n l : h !! p = Some n -> chain h (Node.next n) l -> chain h (Some p) (p :: l).

Lemma chain_nil_inv h l : chain h None l -> l = [].
Proof. by inversion 1. Qed.

Lemma chain_insert_other h cur l p n' :
  chain h cur l -> p ∉ l -> chain (<[p := n']> h) cur l.
Proof.
  induction 1 as [|q n l Hq Hc IH]; intros Hp; [constructor|].
  apply not_elem_of_cons in Hp as [Hpq Hp].
  econstructor; [|by apply IH]. rewrite list_lookup_insert_ne; [done|congruence].
Qed.

Lemma chain_insert_same_next h cur l p n n' :
  chain h cur l -> h !! p = Some n -> Node.next n' = Node.next n ->
  chain (<[p := n']> h) cur l.
Proof.
  intros Hc Hp Hn. induction Hc as [|q m l Hq Hc IH]; [constructor|].
  destruct (decide (p = q)) as [->|Hpq].
  - rewrite Hq in Hp. injection Hp as ->. econstructor.
    + apply list_lookup_insert_eq. by eapply lookup_lt_Some.
    + by rewrite Hn.
  - econstructor; [|done]. by rewrite list_lookup_insert_ne.
Qed.

Lemma chain_snoc h cur l qe qn c cn :
  chain h cur l -> NoDup l -> last l = Some qe -> h !! qe = Some qn ->
  c ∉ l -> h !! c = Some cn -> Node.next cn = None ->
  chain (<[qe := set_next qn (Some c)]> h) cur (l ++ [c]).
Proof.
  intros Hc. induction Hc as [|p n l Hp Hc IH]; intros Hnd Hl Hqe Hcl Hcn Hnx; [done|].
  assert (Hcq : c <> qe) by (intros ->; by apply Hcl, last_Some_elem_of).
  apply NoDup_cons in Hnd as [Hpl Hnd]. apply not_elem_of_cons in Hcl as [Hcp Hcl].
  destruct l as [|x l].
  - simpl in Hl. injection Hl as <-. rewrite Hp in Hqe. injection Hqe as <-.
    simpl. econstructor.
    + apply list_lookup_insert_eq. by eapply lookup_lt_Some.
    + simpl. econstructor; [by rewrite list_lookup_insert_ne|]. rewrite Hnx. constructor.
  - assert (Hpq : p <> qe) by (intros ->; by apply Hpl, last_Some_elem_of).
    simpl. econstructor; [rewrite list_lookup_insert_ne; eauto|].
    apply IH; auto.
Qed.

Lemma chain_next h cur l1 p l2 n :
  chain h cur (l1 ++ p :: l2) -> h !! p = Some n -> NoDup (l1 ++ p :: l2) ->
  Node.next n = head l2.
Proof.
  revert cur. induction l1 as [|x l1 IH]; intros cur Hc Hp Hnd; simpl in *.
  - inversion Hc as [|? m ? Hm Hc']; subst. rewrite Hp in Hm. injection Hm as <-.
    destruct l2 as [|y l2]; by inversion Hc'.
  - inversion Hc as [|? m ? Hm Hc']; subst. eapply IH; eauto.
    by apply NoDup_cons in Hnd as [_ ?].
Qed.

Lemma chain_lookup h cur l p : chain h cur l -> p ∈ l -> is_Some (h !! p).
Proof.
  induction 1 as [|q n l Hq Hc IH]; [by intros ?%elem_of_nil|].
  intros [->|?]%elem_of_cons; eauto.
Qed.

Lemma chain_head h p l : chain h (Some p) l -> head l = Some p.
Proof. by inversion 1. Qed.

(* ------------------------------------------------------------------ *)
(** ** The shape of a tree and what [compute_tree] makes of it *)

(** The children a visited node puts on the queue: none for a hardlink. *)
Definition enq_node (n : node) : list nat := if is_link n then [] else Node.children n.
Definition enq_at (h : list node) (p : nat) : list nat :=
  match h !! p with Some n => enq_node n | None => [] end.
Definition children_at (h : list node) (p : nat) : list nat :=
  match h !! p with Some n => Node.children n | None => [] end.

(** [c] is a child of [p] in [h]; [desc h p d]: [d] is a descendant of [p]. *)
Definition child_edge (h : list node) (p c : nat) : Prop := c ∈ children_at h p.
Inductive desc (h : list node) : nat -> nat -> Prop :=
| desc_child p c : child_edge h p c -> desc h p c
| desc_step p q c : desc h p q -> child_edge h q c -> desc h p c.

Definition is_dir_at (h : list node) (c : nat) : bool :=
  match h !! c with Some n => (ifmt n =? S_IFDIR)%Z | None => false end.
(** The number of directory-typed nodes in [cs]; a hardlink counts by its
    own mode. *)
Definition count_dirs (h : list node) (cs : list nat) : nat :=
  length (List.filter (is_dir_at h) cs).

Definition inode_at (h : list node) (p : nat) : lcfs_inode_s :=
  match h !! p with Some n => Node.inode n | None => inode0 end.

(** A tree built with the API and not serialized before: no node is linked
    into a queue or marked as visited, every node has at most one parent
    (as [lcfs_node_add_child] enforces with EMLINK), and the root has none. *)
Record valid_tree (h : list node) (r : nat) : Prop := {
  vt_root : is_Some (h !! r);
  vt_fresh : Forall (fun n => Node.next n = None /\ Node.in_tree n = false) h;
  vt_nodup : NoDup (concat (map Node.children h));
  vt_orphan : r ∉ concat (map Node.children h) }.

(** The fields [compute_tree] keeps: the link, the name, the payload, the
    size and the mode; the children are permuted. *)
Definition node_static (n0 n : node) : Prop :=
  Node.link_to n = Node.link_to n0 /\ Node.name n = Node.name n0 /\
  Node.payload n = Node.payload n0 /\
  st_mode (Node.inode n) = st_mode (Node.inode n0) /\
  st_size (Node.inode n) = st_size (Node.inode n0) /\
  Node.children n ≡ₚ Node.children n0.

(** What the visit of [p] as the [i]-th node leaves in it. *)
Definition visited_ok (h0 h : list node) (i p : nat) : Prop :=
  exists n0 n, h0 !! p = Some n0 /\ h !! p = Some n /\
    Node.inode_num n = (Z.of_nat i mod 2 ^ 32)%Z /\ Node.in_tree n = true /\
    (ifmt n0 = S_IFDIR ->
       st_nlink (Node.inode n) = ((2 + Z.of_nat (count_dirs h0 (Node.children n0))) mod 2 ^ 32)%Z) /\
    (Node.children n0 <> [] -> ifmt n0 = S_IFDIR).

Definition strip_next (n : node) : node := set_next n None.

(** The loop invariant of [compute_tree]: [L] visited, [Q] queued. *)
Record tree_inv (h0 : list node) (r : nat) (L Q : list nat) (s : state) : Prop := {
  ti_static : Forall2 node_static h0 (heap s);
  ti_chain : chain (heap s) (Some r) (L ++ Q);
  ti_end : last (L ++ Q) = Some (queue_end s);
  ti_bfs : L ++ Q = r :: concat (map (enq_at (heap s)) L);
  ti_nodup : NoDup (L ++ Q);
  ti_out : forall q n, heap s !! q = Some n -> q ∉ L ++ Q ->
             Node.next n = None /\ Node.in_tree n = false;
  ti_visited : forall i p, L !! i = Some p -> visited_ok h0 (heap s) i p;
  ti_order : forall i p c, L !! i = Some p -> c ∈ enq_at (heap s) p ->
             exists j, (L ++ Q) !! j = Some c /\ i < j }.

(** *** List facts *)

Lemma NoDup_submseteq_inv {A} (l k : list A) : l ⊆+ k -> NoDup k -> NoDup l.
Proof.
  intros [k' Hk]%submseteq_Permutation Hnd. rewrite Hk in Hnd.
  by apply NoDup_app in Hnd as [? _].
Qed.

Lemma concat_map_submseteq {A B} (f g : A -> list B) (l : list A) :
  (forall x, f x ⊆+ g x) -> concat (map f l) ⊆+ concat (map g l).
Proof. intros H. induction l; simpl; [done|]. by apply submseteq_app. Qed.

Lemma concat_map_submseteq_idx {A B} (f : A -> list B) (l k : list A) :
  l ⊆+ k -> concat (map f l) ⊆+ concat (map f k).
Proof.
  induction 1; simpl.
  - done.
  - by apply submseteq_app.
  - rewrite !app_assoc. apply submseteq_app; [|done].
    apply Permutation_submseteq, Permutation_app_comm.
  - by apply submseteq_inserts_l.
  - by etrans.
Qed.

Lemma elem_of_concat_map {A B} (f : A -> list B) (l : list A) x :
  x ∈ concat (map f l) <-> exists y, y ∈ l /\ x ∈ f y.
Proof.
  induction l as [|a l IH]; simpl.
  - split; [by intros ?%elem_of_nil|]. intros (? & ?%elem_of_nil & _). done.
  - rewrite elem_of_app, IH. split.
    + intros [?|(y & ? & ?)]; [exists a; split; [left|]|exists y; split; [right|]]; done.
    + intros (y & [->|?]%elem_of_cons & ?); [left|right; exists y]; done.
Qed.

Lemma concat_children_seq h :
  concat (map Node.children h) = concat (map (children_at h) (seq 0 (length h))).
Proof.
  induction h as [|n h IH]; [done|]. simpl. f_equal. rewrite IH, <- seq_shift, map_map.
  reflexivity.
Qed.

Lemma children_at_submseteq h ks :
  NoDup ks -> (forall k, k ∈ ks -> k < length h) ->
  concat (map (children_at h) ks) ⊆+ concat (map Node.children h).
Proof.
  intros Hnd Hk. rewrite concat_children_seq. apply concat_map_submseteq_idx.
  apply NoDup_submseteq; [done|]. intros k ?%Hk. apply elem_of_seq. lia.
Qed.

Lemma enq_at_submseteq h ks : concat (map (enq_at h) ks) ⊆+ concat (map (children_at h) ks).
Proof.
  apply concat_map_submseteq. intros p. unfold enq_at, children_at, enq_node.
  destruct (h !! p); [destruct (is_link _)|]; [apply submseteq_nil_l|done|done].
Qed.

(** *** Heaps that agree up to the [next] fields *)

Definition strip_eq (h h' : list node) : Prop := strip_next <$> h = strip_next <$> h'.

Lemma strip_eq_lookup h h' p n :
  strip_eq h h' -> h !! p = Some n -> exists n', h' !! p = Some n' /\ strip_next n' = strip_next n.
Proof.
  intros He Hp. assert (Hx : (strip_next <$> h) !! p = (strip_next <$> h') !! p) by by rewrite He.
  rewrite !list_lookup_fmap, Hp in Hx. destruct (h' !! p) as [n'|] eqn:E; [|done].
  exists n'. split; [done|]. simpl in Hx. congruence.
Qed.

Lemma strip_eq_lookup_None h h' p : strip_eq h h' -> h !! p = None -> h' !! p = None.
Proof.
  intros He Hp. assert (Hx : (strip_next <$> h) !! p = (strip_next <$> h') !! p) by by rewrite He.
  rewrite !list_lookup_fmap, Hp in Hx. by destruct (h' !! p).
Qed.

Lemma strip_eq_sym h h' : strip_eq h h' -> strip_eq h' h.
Proof. done. Qed.

(** Every field but [next] is read through [strip_next]. *)
Lemma strip_next_fields n n' :
  strip_next n' = strip_next n ->
  Node.link_to n' = Node.link_to n /\ Node.name n' = Node.name n /\
  Node.payload n' = Node.payload n /\ Node.inode n' = Node.inode n /\
  Node.children n' = Node.children n /\ Node.inode_num n' = Node.inode_num n /\
  Node.in_tree n' = Node.in_tree n /\ Node.xattrs n' = Node.xattrs n /\
  Node.digest_set n' = Node.digest_set n /\ Node.digest n' = Node.digest n.
Proof. intros E. injection E. intros. repeat split; congruence. Qed.

Lemma enq_at_strip h h' p : strip_eq h h' -> enq_at h' p = enq_at h p.
Proof.
  intros He. unfold enq_at. destruct (h !! p) as [n|] eqn:E.
  - apply (strip_eq_lookup _ _ _ _ He) in E as (n' & -> & Hs).
    apply strip_next_fields in Hs as (Hl & _ & _ & _ & Hc & _).
    unfold enq_node, is_link. by rewrite Hl, Hc.
  - by rewrite (strip_eq_lookup_None _ _ _ He E).
Qed.

Lemma node_static_strip n0 n : node_static n0 (strip_next n) <-> node_static n0 n.
Proof. done. Qed.

Lemma node_static_trans n0 n1 n2 : node_static n0 n1 -> node_static n1 n2 -> node_static n0 n2.
Proof.
  intros (?&?&?&?&?&?) (?&?&?&?&?&?). repeat split; try congruence. by etrans.
Qed.

Lemma static_strip h0 h h' :
  strip_eq h h' -> Forall2 node_static h0 h -> Forall2 node_static h0 h'.
Proof.
  intros He Hs.
  assert (H1 : Forall2 node_static h0 (strip_next <$> h)).
  { apply (@Forall2_fmap_r _ _ strip_next). eapply Forall2_impl; [exact Hs|].
    intros x y ?. by apply node_static_strip. }
  rewrite He in H1. apply (@Forall2_fmap_r _ _ strip_next) in H1. eapply Forall2_impl; [exact H1|].
  intros x y ?. by apply node_static_strip.
Qed.

Lemma visited_ok_strip h0 h h' i p :
  strip_eq h h' -> visited_ok h0 h i p -> visited_ok h0 h' i p.
Proof.
  intros He (n0 & n & H0 & Hn & Hi & Ht & Hl & Hdir).
  apply (strip_eq_lookup _ _ _ _ He) in Hn as (n' & Hn' & Hs).
  apply strip_next_fields in Hs as (_ & _ & _ & Hin & _ & Hnum & Htr & _).
  exists n0, n'. repeat split; try congruence; [|done]. intros Hd. rewrite Hin. auto.
Qed.

Lemma static_lookup h0 h p n :
  Forall2 node_static h0 h -> h !! p = Some n -> exists n0, h0 !! p = Some n0 /\ node_static n0 n.
Proof.
  intros Hs Hp. apply Forall2_lookup with (i := p) in Hs. rewrite Hp in Hs.
  inversion Hs; eauto.
Qed.

Lemma static_lookup_l h0 h p n0 :
  Forall2 node_static h0 h -> h0 !! p = Some n0 -> exists n, h !! p = Some n /\ node_static n0 n.
Proof.
  intros Hs Hp. apply Forall2_lookup with (i := p) in Hs. rewrite Hp in Hs.
  inversion Hs; eauto.
Qed.

Lemma static_is_dir_at h0 h c : Forall2 node_static h0 h -> is_dir_at h c = is_dir_at h0 c.
Proof.
  intros Hs. apply Forall2_lookup with (i := c) in Hs. unfold is_dir_at, ifmt.
  inversion Hs as [n0 n (_&_&_&Hm&_) E0 E|E0 E]; [|done]. by rewrite Hm.
Qed.

Lemma count_dirs_static h0 h cs : Forall2 node_static h0 h -> count_dirs h cs = count_dirs h0 cs.
Proof.
  intros Hs. unfold count_dirs. induction cs as [|c cs IH]; [done|]. simpl.
  rewrite (static_is_dir_at _ _ _ Hs). destruct (is_dir_at h0 c); simpl; auto.
Qed.

Lemma count_dirs_perm h cs cs' : cs ≡ₚ cs' -> count_dirs h cs = count_dirs h cs'.
Proof.
  unfold count_dirs. induction 1; simpl; auto.
  - destruct (is_dir_at h x); simpl; auto.
  - destruct (is_dir_at h x), (is_dir_at h y); simpl; auto.
  - congruence.
Qed.

Lemma static_children_perm h0 h :
  Forall2 node_static h0 h -> concat (map Node.children h) ≡ₚ concat (map Node.children h0).
Proof.
  induction 1 as [|n0 n h0 h (_&_&_&_&_&Hc) _ IH]; simpl; [done|]. by rewrite Hc, IH.
Qed.

Lemma insert_strip_eq h p n n' :
  h !! p = Some n -> strip_next n' = strip_next n -> strip_eq (<[p := n']> h) h.
Proof.
  intros Hp Hs. unfold strip_eq. rewrite list_fmap_insert, Hs. apply list_insert_id.
  by rewrite list_lookup_fmap, Hp.
Qed.

(* ------------------------------------------------------------------ *)
(** ** One pass of the loop of [compute_tree] *)

Lemma count_dir_children_Ok cs s k s' :
  count_dir_children cs s = Ok k s' -> s' = s /\ k = Z.of_nat (count_dirs (heap s) cs).
Proof.
  revert k s'. induction cs as [|c cs IH]; intros k s' H; simpl in H.
  - cbv [ret] in H. injection H as <- <-. done.
  - apply bind_Ok in H as (cn & s1 & H1 & H). unfold load in H1.
    destruct (heap s !! c) as [n|] eqn:E; [|discriminate].
    injection H1 as Hn Hs1. subst cn s1.
    apply bind_Ok in H as (k' & s2 & H2 & H). apply IH in H2 as [-> ->].
    cbv [ret] in H. injection H as <- <-. split; [done|].
    unfold count_dirs. cbn [List.filter].
    replace (is_dir_at (heap s) c) with (ifmt n =? S_IFDIR)%Z by (unfold is_dir_at; by rewrite E).
    destruct (ifmt n =? S_IFDIR)%Z; cbn [length]; lia.
Qed.

Lemma store_Ok p n s u s' :
  store p n s = Ok u s' -> p < length (heap s) /\ s' = set_heap s (<[p := n]> (heap s)).
Proof. unfold store. destruct (decide _); [|discriminate]. intros H. by injection H as _ <-. Qed.

Lemma load_Ok p s n s' : load p s = Ok n s' -> heap s !! p = Some n /\ s' = s.
Proof. unfold load. destruct (heap s !! p); [|discriminate]. intros H. by injection H as <- <-. Qed.

Lemma compute_tree_visit_Ok p i s u s' :
  compute_tree_visit p i s = Ok u s' ->
  exists n n2, heap s !! p = Some n /\ heap s' = <[p := n2]> (heap s) /\
    queue_end s' = queue_end s /\ Node.next n2 = Node.next n /\
    Node.in_tree n2 = true /\ Node.inode_num n2 = (Z.of_nat i mod 2 ^ 32)%Z /\
    node_static n n2 /\
    (ifmt n = S_IFDIR ->
       st_nlink (Node.inode n2) = ((2 + Z.of_nat (count_dirs (heap s) (Node.children n))) mod 2 ^ 32)%Z) /\
    (Node.children n <> [] -> ifmt n = S_IFDIR).
Proof.
  unfold compute_tree_visit. intros H.
  apply bind_Ok in H as (n & s1 & H1 & H). apply load_Ok in H1 as [Hn ->].
  destruct (negb _ && negb _) eqn:Echk; [cbv [fail] in H; discriminate|].
  assert (Hdir : Node.children n <> [] -> ifmt n = S_IFDIR).
  { intros Hc. apply andb_false_iff in Echk as [E|E]; apply negb_false_iff in E.
    - by apply Z.eqb_eq.
    - by apply bool_decide_eq_true in E. }
  apply bind_Ok in H as (n1 & s2 & H2 & H).
  assert (Hn1 : s2 = s /\ n1 = if (ifmt n =? S_IFDIR)%Z
            then set_inode n (set_st_nlink (Node.inode n)
                   ((2 + Z.of_nat (count_dirs (heap s) (Node.children n))) mod 2 ^ 32)%Z)
            else n).
  { destruct (ifmt n =? S_IFDIR)%Z.
    - apply bind_Ok in H2 as (k & s3 & H3 & H2). apply count_dir_children_Ok in H3 as [-> ->].
      cbv [ret] in H2. by injection H2 as <- <-.
    - cbv [ret] in H2. by injection H2 as <- <-. }
  destruct Hn1 as [-> Hn1]. rewrite bind_gets in H.
  apply bind_Ok in H as (? & s3 & H3 & H). apply store_Ok in H3 as [Hlt ->].
  cbv [modify] in H. injection H as _ <-. simpl.
  eexists n, _. split; [done|]. split; [reflexivity|]. split; [reflexivity|].
  assert (Hst : node_static n n1 /\ Node.next n1 = Node.next n /\
    (ifmt n = S_IFDIR -> st_nlink (Node.inode n1) =
       ((2 + Z.of_nat (count_dirs (heap s) (Node.children n))) mod 2 ^ 32)%Z)).
  { subst n1. destruct (ifmt n =? S_IFDIR)%Z eqn:Ed.
    - split; [repeat split; reflexivity|]. split; [reflexivity|]. intros _. reflexivity.
    - split; [repeat split; reflexivity|]. split; [reflexivity|].
      intros Hd. rewrite Hd in Ed. by rewrite Z.eqb_refl in Ed. }
  destruct Hst as ((Hl & Hnm & Hp & Hm & Hs & Hc) & Hnx & Hnl).
  simpl. split; [done|]. split; [done|]. split; [done|]. split.
  - repeat split; simpl; try done. rewrite merge_sort_Permutation. done.
  - split; [|done]. intros Hd. simpl. by apply Hnl.
Qed.

Lemma compute_tree_enqueue_link cs s u s' :
  compute_tree_enqueue true cs s = Ok u s' -> s' = s.
Proof.
  revert s. induction cs as [|c cs IH]; intros s H; simpl in H.
  - cbv [ret] in H. by injection H as _ <-.
  - by apply IH.
Qed.

Lemma assert_Ok b s u s' : assert b s = Ok u s' -> b = true /\ s' = s.
Proof. destruct b; [|discriminate]. intros H. by injection H as _ <-. Qed.

Lemma modify_Ok f s u s' : modify f s = Ok u s' -> s' = f s.
Proof. intros H. by injection H as _ <-. Qed.

Lemma strip_eq_trans h1 h2 h3 : strip_eq h1 h2 -> strip_eq h2 h3 -> strip_eq h1 h3.
Proof. unfold strip_eq. congruence. Qed.

Lemma strip_eq_length h h' : strip_eq h h' -> length h = length h'.
Proof. intros He. rewrite <- (length_fmap strip_next h), He. apply length_fmap. Qed.

(** The enqueueing loop of a node that is not a hardlink appends its
    children [cs] to the queue [l], touching only [next] fields of nodes
    of [l ++ cs]. *)
Lemma compute_tree_enqueue_Ok cs : forall l r s u s',
  compute_tree_enqueue false cs s = Ok u s' ->
  chain (heap s) (Some r) l -> NoDup (l ++ cs) -> last l = Some (queue_end s) ->
  (forall q n, heap s !! q = Some n -> q ∉ l -> Node.next n = None) ->
  chain (heap s') (Some r) (l ++ cs) /\ last (l ++ cs) = Some (queue_end s') /\
  strip_eq (heap s') (heap s) /\ (forall q, q ∉ l ++ cs -> heap s' !! q = heap s !! q).
Proof.
  induction cs as [|c cs IH]; intros l r s u s' H Hc Hnd Hl Hout.
  - cbv [compute_tree_enqueue ret] in H. injection H as _ <-. rewrite app_nil_r. done.
  - cbn [compute_tree_enqueue] in H.
    apply bind_Ok in H as (cn & s1 & H1 & H). apply load_Ok in H1 as [Hcn ->].
    apply bind_Ok in H as (? & s2 & H2 & H). apply assert_Ok in H2 as [_ ->].
    rewrite bind_gets in H.
    apply bind_Ok in H as (qn & s3 & H3 & H). apply load_Ok in H3 as [Hqn ->].
    apply bind_Ok in H as (? & s4 & H4 & H). apply store_Ok in H4 as [Hlt ->].
    apply bind_Ok in H as (? & s5 & H5 & H). apply modify_Ok in H5 as ->.
    assert (Hqe : queue_end s ∈ l) by by apply last_Some_elem_of.
    assert (Hcl : c ∉ l).
    { intros Hin. apply NoDup_app in Hnd as (_ & Hd & _). apply (Hd c Hin). by left. }
    assert (Hcq : c <> queue_end s) by (intros ->; done).
    assert (Hsame : forall q, q <> queue_end s ->
              heap (set_queue_end (set_heap s (<[queue_end s := set_next qn (Some c)]> (heap s))) c) !! q
              = heap s !! q).
    { intros q Hq. simpl. by rewrite list_lookup_insert_ne by congruence. }
    destruct (IH (l ++ [c]) r _ _ _ H) as (Hc' & Hl' & Hs' & Hu').
    + simpl. eapply chain_snoc; eauto.
      * by apply NoDup_app in Hnd as (? & _ & _).
    + by rewrite <- app_assoc.
    + simpl. by rewrite last_snoc.
    + intros q n Hq Hql. rewrite Hsame in Hq.
      * eapply Hout; [done|]. intros ?. apply Hql, elem_of_app. by left.
      * intros ->. apply Hql, elem_of_app. by left.
    + rewrite <- app_assoc in Hc', Hl', Hu'. simpl in Hc', Hl', Hu'.
      split; [done|]. split; [done|]. split.
      * eapply strip_eq_trans; [exact Hs'|]. simpl.
        by eapply insert_strip_eq.
      * intros q Hq. rewrite Hu' by done. apply Hsame. intros ->.
        apply Hq, elem_of_app. by left.
Qed.

(** *** The loop invariant *)

Lemma enq_at_insert_ne h p n q : q <> p -> enq_at (<[p := n]> h) q = enq_at h q.
Proof. intros Hq. unfold enq_at. by rewrite list_lookup_insert_ne by congruence. Qed.

Lemma visited_ok_insert_ne h0 h p n i q :
  q <> p -> visited_ok h0 h i q -> visited_ok h0 (<[p := n]> h) i q.
Proof.
  intros Hq (n0 & m & ? & Hm & ?). exists n0, m. split; [done|].
  by rewrite list_lookup_insert_ne by congruence.
Qed.

Lemma lookup_snoc_inv {A} (l : list A) x i y :
  (l ++ [x]) !! i = Some y -> (l !! i = Some y /\ i < length l) \/ (i = length l /\ y = x).
Proof.
  intros H. apply lookup_app_Some in H as [H|[Hi H]].
  - left. split; [done|]. by eapply lookup_lt_Some.
  - right. destruct (i - length l) as [|k] eqn:E; simpl in H; [|by rewrite lookup_nil in H].
    injection H as <-. split; [lia|done].
Qed.

Lemma elem_of_concat_children h p n c :
  h !! p = Some n -> c ∈ Node.children n -> c ∈ concat (map Node.children h).
Proof.
  intros Hp Hc. apply elem_of_concat_map. exists n. split; [|done].
  by eapply list_elem_of_lookup_2.
Qed.

(** The queue of a BFS from [r] over a tree has no repetition. *)
Lemma bfs_nodup h0 r h ks :
  valid_tree h0 r -> Forall2 node_static h0 h -> NoDup ks ->
  (forall k, k ∈ ks -> k < length h) ->
  NoDup (r :: concat (map (enq_at h) ks)).
Proof.
  intros Hv Hs Hnd Hk.
  assert (Hsub : concat (map (enq_at h) ks) ⊆+ concat (map Node.children h)).
  { etrans; [apply enq_at_submseteq|]. by apply children_at_submseteq. }
  pose proof (static_children_perm _ _ Hs) as Hp.
  apply NoDup_cons. split.
  - intros Hr. apply (vt_orphan _ _ Hv). rewrite <- Hp. by eapply elem_of_submseteq.
  - eapply NoDup_submseteq_inv; [exact Hsub|]. rewrite Hp. apply (vt_nodup _ _ Hv).
Qed.

Lemma bfs_snoc h h' L p Q' r E :
  L ++ p :: Q' = r :: concat (map (enq_at h) L) -> p ∉ L ->
  (forall q, q <> p -> enq_at h' q = enq_at h q) -> enq_at h' p = E ->
  (L ++ p :: Q') ++ E = r :: concat (map (enq_at h') (L ++ [p])).
Proof.
  intros Hb Hp He HE. rewrite Hb, map_app, concat_app. simpl. rewrite app_nil_r, HE.
  f_equal. f_equal. f_equal. apply map_ext_in. intros q Hq. symmetry. apply He.
  intros ->. by apply Hp, list_elem_of_In.
Qed.

Lemma node_static_refl n : node_static n n.
Proof. repeat split; reflexivity. Qed.

(** One pass of the loop: the head [p] of the queue is visited as the
    [length L]-th node and its children go to the back of the queue. *)
Lemma tree_inv_step h0 r L p Q' s u1 s1 n s1' u2 s2 :
  valid_tree h0 r -> tree_inv h0 r L (p :: Q') s ->
  compute_tree_visit p (length L) s = Ok u1 s1 ->
  load p s1 = Ok n s1' ->
  compute_tree_enqueue (is_link n) (Node.children n) s1' = Ok u2 s2 ->
  tree_inv h0 r (L ++ [p]) (Q' ++ enq_at (heap s2) p) s2.
Proof.
  intros Hv [Hs Hc He Hb Hnd Ho Hvis Hord] H1 H2 H3.
  apply compute_tree_visit_Ok in H1 as (m & m2 & Hm & Hh1 & Hq1 & Hnx & Hin & Hnum & Hst & Hnl & Hdir).
  apply load_Ok in H2 as [Hn ->].
  assert (Hplt : p < length (heap s)) by (eapply lookup_lt_Some; eauto).
  rewrite Hh1, list_lookup_insert_eq in Hn by done. injection Hn as <-.
  assert (HpL : p ∉ L).
  { intros ?. apply NoDup_app in Hnd as (_ & Hd & _). eapply Hd; [done|]. by left. }
  assert (HE1 : enq_at (heap s1) p = enq_node m2).
  { unfold enq_at. by rewrite Hh1, list_lookup_insert_eq. }
  assert (Hne1 : forall q, q <> p -> enq_at (heap s1) q = enq_at (heap s) q).
  { intros q Hq. rewrite Hh1. by apply enq_at_insert_ne. }
  assert (Hs1 : Forall2 node_static h0 (heap s1)).
  { destruct (static_lookup _ _ _ _ Hs Hm) as (m0 & Hm0 & Hmm).
    rewrite Hh1, <- (list_insert_id h0 p m0) by done. apply Forall2_insert; [done|].
    by eapply node_static_trans. }
  assert (Hlt1 : length (heap s1) = length (heap s)) by (rewrite Hh1; apply length_insert).
  assert (Hkl : forall k, k ∈ L ++ [p] -> k < length (heap s1)).
  { intros k Hk. rewrite Hlt1. apply lookup_lt_is_Some. eapply chain_lookup; [exact Hc|].
    apply elem_of_app in Hk as [?|?%list_elem_of_singleton]; apply elem_of_app; [by left|].
    subst. right. by left. }
  assert (HndL : NoDup (L ++ [p])).
  { replace (L ++ p :: Q') with ((L ++ [p]) ++ Q') in Hnd by (by rewrite <- app_assoc).
    by apply NoDup_app in Hnd as (? & _ & _). }
  assert (Hb' : (L ++ p :: Q') ++ enq_node m2 = r :: concat (map (enq_at (heap s1)) (L ++ [p])))
    by (apply bfs_snoc with (h := heap s); auto).
  assert (Hnd' : NoDup ((L ++ p :: Q') ++ enq_node m2)).
  { rewrite Hb'. eapply bfs_nodup; eauto. }
  assert (Hc1 : chain (heap s1) (Some r) (L ++ p :: Q')).
  { rewrite Hh1. eapply chain_insert_same_next; eauto. }
  assert (Henq : chain (heap s2) (Some r) ((L ++ p :: Q') ++ enq_node m2) /\
                 last ((L ++ p :: Q') ++ enq_node m2) = Some (queue_end s2) /\
                 strip_eq (heap s2) (heap s1) /\
                 (forall q, q ∉ (L ++ p :: Q') ++ enq_node m2 -> heap s2 !! q = heap s1 !! q)).
  { unfold enq_node in *. destruct (is_link m2).
    - apply compute_tree_enqueue_link in H3 as ->. rewrite app_nil_r.
      split; [done|]. split; [by rewrite Hq1|]. split; [reflexivity|]. done.
    - eapply compute_tree_enqueue_Ok; eauto.
      + by rewrite Hq1.
      + intros q k Hq Hql. rewrite Hh1 in Hq.
        rewrite list_lookup_insert_ne in Hq by (intros ->; apply Hql, elem_of_app; right; left).
        eapply Ho; eauto. }
  destruct Henq as (Hc2 & He2 & Hs2 & Hu2).
  assert (Hs21 : strip_eq (heap s1) (heap s2)) by (by apply strip_eq_sym).
  assert (HE2 : enq_at (heap s2) p = enq_node m2) by (by rewrite (enq_at_strip _ _ _ Hs21)).
  rewrite HE2.
  assert (Happ : (L ++ [p]) ++ Q' ++ enq_node m2 = (L ++ p :: Q') ++ enq_node m2)
    by (by rewrite <- !app_assoc).
  constructor.
  - by eapply static_strip.
  - by rewrite Happ.
  - by rewrite Happ.
  - rewrite Happ, Hb'. f_equal. f_equal. apply map_ext. intros q.
    by rewrite (enq_at_strip _ _ _ Hs21).
  - by rewrite Happ.
  - intros q k Hq Hql. rewrite Happ in Hql. rewrite Hu2 in Hq by done.
    rewrite Hh1, list_lookup_insert_ne in Hq
      by (intros ->; apply Hql, elem_of_app; left; apply elem_of_app; right; left).
    eapply Ho; [done|]. intros ?. apply Hql, elem_of_app. by left.
  - intros i q Hi. eapply visited_ok_strip; [exact Hs21|].
    apply lookup_snoc_inv in Hi as [[Hi Hil]|[-> ->]].
    + rewrite Hh1. apply visited_ok_insert_ne; [|by apply Hvis].
      intros ->. apply HpL. by eapply list_elem_of_lookup_2.
    + destruct (static_lookup _ _ _ _ Hs Hm) as (m0 & Hm0 & (_&_&_&Hmode&_&Hch)).
      exists m0, m2. split; [done|]. split; [rewrite Hh1; by apply list_lookup_insert_eq|].
      split; [done|]. split; [done|]. split.
      * intros Hd. rewrite Hnl.
        -- rewrite (count_dirs_static h0 (heap s)) by done. by rewrite (count_dirs_perm _ _ _ Hch).
        -- unfold ifmt in *. by rewrite Hmode.
      * intros Hne. assert (Hne' : Node.children m <> []).
        { intros E. apply Hne. apply Permutation_nil. rewrite <- E. by symmetry. }
        specialize (Hdir Hne'). unfold ifmt in *. by rewrite <- Hmode.
  - intros i q c Hi Hcq. rewrite Happ.
    rewrite (enq_at_strip _ _ _ Hs21) in Hcq.
    apply lookup_snoc_inv in Hi as [[Hi Hil]|[-> ->]].
    + assert (Hqp : q <> p) by (intros ->; apply HpL; by eapply list_elem_of_lookup_2).
      rewrite Hne1 in Hcq by done. destruct (Hord i q c Hi Hcq) as (j & Hj & Hij).
      exists j. split; [|done]. rewrite lookup_app_l; [done|]. by eapply lookup_lt_Some.
    + rewrite HE1 in Hcq. apply list_elem_of_lookup_1 in Hcq as [k Hk].
      exists (length (L ++ p :: Q') + k). split.
      * rewrite lookup_app_r by lia.
        by replace (length (L ++ p :: Q') + k - length (L ++ p :: Q')) with k by lia.
      * rewrite length_app. simpl. lia.
Qed.

Lemma compute_tree_loop_inv h0 r fuel : forall L Q s u s',
  valid_tree h0 r -> tree_inv h0 r L Q s ->
  compute_tree_loop fuel (head Q) (length L) s = Ok u s' ->
  exists L', tree_inv h0 r L' [] s'.
Proof.
  induction fuel as [|f IH]; intros L Q s u s' Hv Hi H.
  - destruct Q as [|p Q']; simpl in H.
    + cbv [ret] in H. injection H as _ <-. eauto.
    + cbv [fail] in H. discriminate.
  - destruct Q as [|p Q']; cbn [head compute_tree_loop] in H.
    + cbv [ret] in H. injection H as _ <-. eauto.
    + apply bind_Ok in H as (u1 & s1 & H1 & H).
      apply bind_Ok in H as (n & s1' & H2 & H).
      apply bind_Ok in H as (u2 & s2 & H3 & H).
      pose proof (tree_inv_step _ _ _ _ _ _ _ _ _ _ _ _ Hv Hi H1 H2 H3) as Hi'.
      apply bind_Ok in H as (n' & s3 & H4 & H). apply load_Ok in H4 as [Hn' ->].
      assert (Hnx : Node.next n' = head (Q' ++ enq_at (heap s2) p)).
      { destruct Hi' as [_ Hc' _ _ Hnd' _ _ _].
        rewrite <- app_assoc in Hc', Hnd'. simpl in Hc', Hnd'. eapply chain_next; eauto. }
      rewrite Hnx in H. eapply IH; [done|exact Hi'|].
      rewrite length_app, Nat.add_1_r. exact H.
Qed.

(** [compute_tree] on a valid tree: the loop ends with the queue empty. *)
Lemma compute_tree_inv h r s u s' :
  valid_tree h r -> heap s = h -> compute_tree r s = Ok u s' ->
  exists L, tree_inv h r L [] s'.
Proof.
  intros Hv Hh H. subst h. unfold compute_tree in H.
  apply bind_Ok in H as (? & s1 & H1 & H). apply modify_Ok in H1 as ->.
  apply bind_Ok in H as (rn & s2 & H2 & H). apply load_Ok in H2 as [Hrn ->]. simpl in Hrn.
  apply bind_Ok in H as (? & s3 & H3 & H). apply store_Ok in H3 as [Hlt ->]. simpl in Hlt.
  rewrite bind_gets in H.
  eapply (compute_tree_loop_inv (heap s) r _ [] [r]); [done| |exact H].
  pose proof (vt_fresh _ _ Hv) as Hf. rewrite Forall_lookup in Hf.
  destruct (Hf r rn Hrn) as [Hrnx Hrt].
  constructor; simpl.
  - assert (Hid : Forall2 node_static (<[r := rn]> (heap s)) (<[r := set_in_tree rn true]> (heap s))).
    { apply Forall2_insert; [|repeat split; reflexivity].
      apply Forall_Forall2_diag, Forall_forall. intros. apply node_static_refl. }
    by rewrite list_insert_id in Hid.
  - econstructor; [by apply list_lookup_insert_eq|]. simpl. rewrite Hrnx. constructor.
  - reflexivity.
  - reflexivity.
  - apply NoDup_singleton.
  - intros q k Hq Hql. rewrite list_lookup_insert_ne in Hq by (intros ->; apply Hql; left).
    by apply (Hf q k).
  - intros i p Hi. by rewrite lookup_nil in Hi.
  - intros i p c Hi. by rewrite lookup_nil in Hi.
Qed.

(** *** Consequences of the final invariant *)

Lemma nodup_concat_map_unique {A B} (f : A -> list B) ks a b x :
  NoDup (concat (map f ks)) -> NoDup ks -> a ∈ ks -> b ∈ ks -> x ∈ f a -> x ∈ f b -> a = b.
Proof.
  induction ks as [|k ks IH]; intros Hnd Hk Ha Hb Hxa Hxb; [by apply elem_of_nil in Ha|].
  simpl in Hnd. apply NoDup_app in Hnd as (Hnd1 & Hdis & Hnd2).
  apply NoDup_cons in Hk as [Hkk Hk].
  apply elem_of_cons in Ha as [->|Ha], Hb as [->|Hb]; [done| | |by apply IH].
  - exfalso. apply (Hdis x Hxa). apply elem_of_concat_map. eauto.
  - exfalso. apply (Hdis x Hxb). apply elem_of_concat_map. eauto.
Qed.

(** In a valid tree every node has at most one parent. *)
Lemma child_edge_unique h r a b c :
  valid_tree h r -> child_edge h a c -> child_edge h b c -> a = b.
Proof.
  intros Hv Ha Hb. pose proof (vt_nodup _ _ Hv) as Hnd. rewrite concat_children_seq in Hnd.
  assert (Hin : forall q, c ∈ children_at h q -> q ∈ seq 0 (length h)).
  { intros q Hq. unfold children_at in Hq. destruct (h !! q) eqn:E; [|by apply elem_of_nil in Hq].
    apply elem_of_seq. apply lookup_lt_Some in E. lia. }
  eapply (nodup_concat_map_unique (children_at h)); eauto using NoDup_seq.
Qed.

Lemma enq_at_child_edge h0 h q c :
  Forall2 node_static h0 h -> c ∈ enq_at h q -> child_edge h0 q c.
Proof.
  intros Hs Hc. unfold enq_at, enq_node in Hc. destruct (h !! q) as [n|] eqn:E;
    [|by apply elem_of_nil in Hc].
  destruct (static_lookup _ _ _ _ Hs E) as (n0 & Hn0 & (_&_&_&_&_&Hch)).
  unfold child_edge, children_at. rewrite Hn0. rewrite <- Hch.
  destruct (is_link n); [by apply elem_of_nil in Hc|done].
Qed.

(** A node visited as the [j]-th comes after its parent. *)
Lemma parent_before h r L s q d j :
  valid_tree h r -> tree_inv h r L [] s -> child_edge h q d -> L !! j = Some d ->
  exists i, L !! i = Some q /\ i < j.
Proof.
  intros Hv Hi Hqd Hj. pose proof (ti_bfs _ _ _ _ _ Hi) as Hb. rewrite app_nil_r in Hb.
  assert (Hd : d ∈ L) by by eapply list_elem_of_lookup_2.
  rewrite Hb in Hd. apply elem_of_cons in Hd as [->|Hd].
  - exfalso. apply (vt_orphan _ _ Hv). unfold child_edge, children_at in Hqd.
    destruct (h !! q) eqn:E; [|by apply elem_of_nil in Hqd]. by eapply elem_of_concat_children.
  - apply elem_of_concat_map in Hd as (q' & Hq' & Hd).
    pose proof (enq_at_child_edge _ _ _ _ (ti_static _ _ _ _ _ Hi) Hd) as Hq'd.
    rewrite (child_edge_unique _ _ _ _ _ Hv Hq'd Hqd) in Hq', Hd.
    apply list_elem_of_lookup_1 in Hq' as [i Hiq].
    destruct (ti_order _ _ _ _ _ Hi i q d Hiq Hd) as (j' & Hj' & Hij).
    rewrite app_nil_r in Hj'. pose proof (ti_nodup _ _ _ _ _ Hi) as Hnd. rewrite app_nil_r in Hnd.
    rewrite (NoDup_lookup _ _ _ _ Hnd Hj' Hj) in Hij. eauto.
Qed.

Lemma desc_before h r L s p d j :
  valid_tree h r -> tree_inv h r L [] s -> desc h p d -> L !! j = Some d ->
  exists i, L !! i = Some p /\ i < j.
Proof.
  intros Hv Hi Hd. revert j. induction Hd as [p c Hpc|p q c Hpq IH Hqc]; intros j Hj.
  - eapply parent_before; eauto.
  - destruct (parent_before _ _ _ _ _ _ _ Hv Hi Hqc Hj) as (i & Hiq & Hij).
    destruct (IH i Hiq) as (i' & Hi' & Hii). exists i'. split; [done|lia].
Qed.

Lemma tree_inv_length h r L s :
  tree_inv h r L [] s -> length L <= length (heap s).
Proof.
  intros Hi. pose proof (ti_nodup _ _ _ _ _ Hi) as Hnd. rewrite app_nil_r in Hnd.
  rewrite <- (length_seq (length (heap s)) 0). apply submseteq_length.
  apply NoDup_submseteq; [done|]. intros k Hk. apply elem_of_seq.
  assert (Hs : is_Some (heap s !! k)).
  { eapply chain_lookup; [exact (ti_chain _ _ _ _ _ Hi)|]. by rewrite app_nil_r. }
  apply lookup_lt_is_Some in Hs. lia.
Qed.

(* ------------------------------------------------------------------ *)
(** ** The layout passes over the canonical list *)

(** A node with the three variable-data references of its inode zeroed:
    what [compute_variable_data] and [compute_xattrs] keep. *)
Definition skel (n : node) : node :=
  set_inode n (set_variable_data (set_xattrs_vd (set_digest_vd (Node.inode n)
    (mk_vdata 0 0)) (mk_vdata 0 0)) (mk_vdata 0 0)).
Definition skel_eq (h h' : list node) : Prop := skel <$> h = skel <$> h'.

(** A layout pass: heap equal up to the references, arena grown at its
    end. *)
Definition phase_rel (s s' : state) : Prop :=
  layout_rel s s' /\ skel_eq (heap s) (heap s') /\ vdata s `prefix_of` vdata s'.
(** The body of a layout pass for node [p]: no other node touched. *)
Definition body_rel (p : nat) (s s' : state) : Prop :=
  phase_rel s s' /\ forall q, q <> p -> heap s' !! q = heap s !! q.

#[global] Instance phase_rel_preorder : PreOrder phase_rel.
Proof.
  split.
  - intros s. split; [reflexivity|]. split; [reflexivity|]. reflexivity.
  - intros s1 s2 s3 (L1 & S1 & P1) (L2 & S2 & P2). split; [by etrans|].
    split; [unfold skel_eq in *; congruence|]. by etrans.
Qed.
#[global] Instance body_rel_preorder p : PreOrder (body_rel p).
Proof.
  split.
  - intros s. split; [reflexivity|]. done.
  - intros s1 s2 s3 (P1 & U1) (P2 & U2). split; [by etrans|].
    intros q Hq. by rewrite U2, U1.
Qed.

Lemma skel_eq_lookup h h' p n :
  skel_eq h h' -> h !! p = Some n -> exists n', h' !! p = Some n' /\ skel n' = skel n.
Proof.
  intros He Hp. assert (Hx : (skel <$> h) !! p = (skel <$> h') !! p) by by rewrite He.
  rewrite !list_lookup_fmap, Hp in Hx. destruct (h' !! p) as [n'|] eqn:E; [|done].
  exists n'. split; [done|]. simpl in Hx. congruence.
Qed.

Lemma skel_eq_lookup_None h h' p : skel_eq h h' -> h !! p = None -> h' !! p = None.
Proof.
  intros He Hp. assert (Hx : (skel <$> h) !! p = (skel <$> h') !! p) by by rewrite He.
  rewrite !list_lookup_fmap, Hp in Hx. by destruct (h' !! p).
Qed.

Lemma skel_fields n n' :
  skel n' = skel n ->
  Node.link_to n' = Node.link_to n /\ Node.name n' = Node.name n /\
  Node.children n' = Node.children n /\ Node.next n' = Node.next n /\
  Node.inode_num n' = Node.inode_num n /\
  st_mode (Node.inode n') = st_mode (Node.inode n) /\
  st_nlink (Node.inode n') = st_nlink (Node.inode n).
Proof.
  intros E.
  pose proof (f_equal Node.link_to E). pose proof (f_equal Node.name E).
  pose proof (f_equal Node.children E). pose proof (f_equal Node.next E).
  pose proof (f_equal Node.inode_num E).
  pose proof (f_equal (fun n => st_mode (Node.inode n)) E).
  pose proof (f_equal (fun n => st_nlink (Node.inode n)) E).
  simpl in *. repeat split; assumption.
Qed.

Lemma skel_eq_length h h' : skel_eq h h' -> length h = length h'.
Proof. intros He. rewrite <- (length_fmap skel h), He. apply length_fmap. Qed.

Lemma skel_eq_chain h h' cur l : skel_eq h h' -> chain h cur l -> chain h' cur l.
Proof.
  intros He. induction 1 as [|p n l Hp Hc IH]; [constructor|].
  destruct (skel_eq_lookup _ _ _ _ He Hp) as (n' & Hn' & Hs).
  apply skel_fields in Hs as (_ & _ & _ & Hnx & _).
  econstructor; [exact Hn'|]. by rewrite Hnx.
Qed.

Lemma skel_eq_insert h p n n' :
  h !! p = Some n -> skel n' = skel n -> skel_eq h (<[p := n']> h).
Proof.
  intros Hp Hs. unfold skel_eq. rewrite list_fmap_insert, Hs. symmetry. apply list_insert_id.
  by rewrite list_lookup_fmap, Hp.
Qed.

Lemma modify_inode_body p f :
  (forall i, set_variable_data (set_xattrs_vd (set_digest_vd (f i) (mk_vdata 0 0)) (mk_vdata 0 0))
               (mk_vdata 0 0)
             = set_variable_data (set_xattrs_vd (set_digest_vd i (mk_vdata 0 0)) (mk_vdata 0 0))
               (mk_vdata 0 0)) ->
  holds (body_rel p) (modify_inode p f).
Proof.
  intros Hf s u s' H. unfold modify_inode in H.
  apply bind_Ok in H as (n & s1 & H1 & H). apply load_Ok in H1 as [Hn ->].
  apply store_Ok in H as [Hlt ->].
  split; [split; [split; [repeat split|split; [done|auto]]|split]|].
  - simpl. eapply skel_eq_insert; [exact Hn|]. unfold skel. simpl. by rewrite Hf.
  - simpl. reflexivity.
  - intros q Hq. simpl. by rewrite list_lookup_insert_ne by congruence.
Qed.

(** A successful append keeps the heap and grows the arena at its end
    only. *)
Lemma append_vdata_grows data flags s out s' :
  lcfs_append_vdata data flags s = Ok out s' ->
  heap s' = heap s /\ vdata s `prefix_of` vdata s'.
Proof.
  intros H. apply append_vdata_inv in H
    as [(ent & _ & _ & _ & ->)|(_ & _ & alloc & t & a & -> & _)].
  - split; [done|reflexivity].
  - split; [done|]. eexists. reflexivity.
Qed.

(** A successful append of fewer than 2^32 bytes leaves [data] at the
    returned reference. *)
Lemma append_vdata_Ok data flags s out s' :
  (Z.of_nat (length data) < 2 ^ 32)%Z ->
  lcfs_append_vdata data flags s = Ok out s' ->
  vdata_at (vdata s') out = data /\ Z.to_nat (len out) = length data /\
  heap s' = heap s /\ vdata s `prefix_of` vdata s'.
Proof.
  intros Hb H. pose proof (append_vdata_grows _ _ _ _ _ H) as [Hh Hp].
  split; [|split]; [| |done].
  all: apply append_vdata_inv in H
    as [(ent & Ed & E & -> & ->)|(_ & -> & alloc & t & a & -> & _)].
  - unfold hash_lookup in E. apply find_some in E as [_ Hent].
    unfold vdata_ht_comparator in Hent. apply andb_true_iff in Hent as [Hl Hv].
    by apply bool_decide_eq_true in Hv.
  - simpl. set (vlen := Z.of_nat (length (vdata s))).
    set (pad := (if negb (Z.land flags APPEND_FLAGS_ALIGN =? 0) && negb (vlen mod 4 =? 0)
               then 4 - vlen mod 4 else 0)%Z).
    assert (Hm : (0 <= vlen mod 4 < 4)%Z) by (apply Z.mod_pos_bound; lia).
    assert (Hp0 : (0 <= pad)%Z) by (unfold pad; destruct (_ && _)%bool; lia).
    assert (Ho : Z.to_nat (vlen + pad) = length (vdata s ++ repeat Byte.x00 (Z.to_nat pad))).
    { rewrite length_app, repeat_length. unfold vlen. lia. }
    unfold vdata_at. simpl. rewrite Ho, app_assoc, drop_app_length.
    rewrite Z.mod_small by lia. rewrite Nat2Z.id. by rewrite take_ge.
  - unfold hash_lookup in E. apply find_some in E as [_ Hent].
    unfold vdata_ht_comparator in Hent. apply andb_true_iff in Hent as [Hl Hv].
    by apply bool_decide_eq_true in Hl.
  - simpl. rewrite Z.mod_small by lia. apply Nat2Z.id.
Qed.

(** An append fails only when the [realloc] growing the arena does. *)
Lemma append_vdata_Err data flags s e :
  lcfs_append_vdata data flags s = Err e -> e = ENOMEM.
Proof.
  intros H. unfold lcfs_append_vdata in H. cbv zeta in H.
  repeat match type of H with
  | context [match ?x with Some _ => _ | None => _ end] => destruct x
  | context [let (_, _) := ?x in _] => destruct x as [[|] ?]
  | context [if ?b then _ else _] => destruct b
  end; simpl in H; congruence.
Qed.

(** What a reference reads is kept when the arena grows. *)
Lemma vdata_at_app v w e d :
  vdata_at v e = d -> Z.to_nat (len e) = length d -> vdata_at (v ++ w) e = d.
Proof.
  unfold vdata_at. intros Hv Hl. destruct (decide (Z.to_nat (off e) <= length v)) as [Ho|Ho].
  - rewrite drop_app_le by done. rewrite take_app_le; [done|].
    rewrite Hl, <- Hv, length_take. apply Nat.le_min_r.
  - assert (Hd : drop (Z.to_nat (off e)) v = []) by (apply drop_ge; lia).
    rewrite Hd in Hv. rewrite take_nil in Hv. subst d. simpl in Hl.
    by rewrite Hl.
Qed.

Lemma append_vdata_phase data flags : holds phase_rel (lcfs_append_vdata data flags).
Proof.
  intros s out s' H. pose proof (append_vdata_layout _ _ _ _ _ H) as HL.
  apply append_vdata_grows in H as (Hh & Hp). split; [done|]. split; [|done].
  by rewrite Hh.
Qed.

Lemma phase_body p {A} (m : M A) : holds phase_rel m -> (forall s a s', m s = Ok a s' -> heap s' = heap s) ->
  holds (body_rel p) m.
Proof. intros Hm Hh s a s' H. split; [by eapply Hm|]. intros q _. by rewrite (Hh _ _ _ H). Qed.


Lemma holds_weaken (R R' : state -> state -> Prop) {A} (m : M A) :
  (forall s s', R s s' -> R' s s') -> holds R m -> holds R' m.
Proof. intros HR Hm s a s' H. apply HR. by eapply Hm. Qed.

Lemma modify_inode_Ok p f s u s' :
  modify_inode p f s = Ok u s' ->
  exists n, heap s !! p = Some n /\ p < length (heap s) /\
    s' = set_heap s (<[p := set_inode n (f (Node.inode n))]> (heap s)).
Proof.
  unfold modify_inode. intros H.
  apply bind_Ok in H as (n & s1 & H1 & H). apply load_Ok in H1 as [Hn ->].
  apply store_Ok in H as [Hlt ->]. eauto.
Qed.

Lemma compute_dirents_body p : holds (body_rel p) (compute_dirents p).
Proof.
  unfold compute_dirents. repeat holds_step.
  all: try (apply modify_inode_body; intros; reflexivity).
  apply phase_body; [apply append_vdata_phase|].
  intros ??? H. by apply append_vdata_grows in H as (? & _).
Qed.

Lemma compute_variable_data_node_body p : holds (body_rel p) (compute_variable_data_node p).
Proof.
  unfold compute_variable_data_node. repeat holds_step.
  all: try (apply modify_inode_body; intros; reflexivity).
  all: try apply compute_dirents_body.
  all: apply phase_body; [apply append_vdata_phase|].
  all: intros ??? H; by apply append_vdata_grows in H as (? & _).
Qed.

Lemma compute_xattrs_node_body p : holds (body_rel p) (compute_xattrs_node p).
Proof.
  unfold compute_xattrs_node. repeat holds_step.
  all: try (apply modify_inode_body; intros; reflexivity).
  apply phase_body; [apply append_vdata_phase|].
  intros ??? H. by apply append_vdata_grows in H as (? & _).
Qed.

(** [for (node = ...; node != NULL; node = node->next) body (node)] over
    the list [l]: a property [P p] a body establishes for its own node and
    that the bodies of the other nodes keep holds of every node of [l] at
    the end. *)
Lemma for_each_node_from_chain body (P : nat -> state -> Prop) fuel : forall cur l s a s',
  (forall p, holds (body_rel p) (body p)) ->
  (forall p s a s', body p s = Ok a s' -> P p s') ->
  (forall p s s', P p s -> phase_rel s s' -> heap s' !! p = heap s !! p -> P p s') ->
  chain (heap s) cur l -> NoDup l ->
  for_each_node_from fuel cur body s = Ok a s' ->
  phase_rel s s' /\ (forall q, q ∉ l -> heap s' !! q = heap s !! q) /\
  (forall p, p ∈ l -> P p s').
Proof.
  induction fuel as [|f IH]; intros cur l s a s' Hb HP Hst Hc Hnd H.
  - destruct cur as [p|]; simpl in H; [cbv [fail] in H; discriminate|].
    apply chain_nil_inv in Hc as ->. cbv [ret] in H. injection H as _ <-.
    split; [reflexivity|]. split; [done|]. by intros p ?%elem_of_nil.
  - destruct cur as [p|].
    + cbn [for_each_node_from] in H.
      apply bind_Ok in H as (a1 & s1 & H1 & H).
      apply bind_Ok in H as (n & s2 & H2 & H). apply load_Ok in H2 as [Hn ->].
      inversion Hc as [|? m l' Hm Hc' Heq]; subst.
      apply NoDup_cons in Hnd as [Hpl Hnd].
      pose proof (Hb p _ _ _ H1) as [(HL1 & Hsk1 & Hpre1) Hu1].
      destruct (skel_eq_lookup _ _ _ _ Hsk1 Hm) as (n' & Hn' & Hs').
      rewrite Hn in Hn'. injection Hn' as <-.
      apply skel_fields in Hs' as (_ & _ & _ & Hnx & _).
      rewrite Hnx in H.
      destruct (IH _ l' _ _ _ Hb HP Hst (skel_eq_chain _ _ _ _ Hsk1 Hc') Hnd H)
        as (Hph2 & Hu2 & HP2).
      split; [etrans; [split; [exact HL1|split; [exact Hsk1|exact Hpre1]]|exact Hph2]|].
      split.
      * intros q Hq. rewrite Hu2 by (intros ?; apply Hq; by right).
        apply Hu1. intros ->. apply Hq. by left.
      * intros q [->|Hq]%elem_of_cons; [|by apply HP2].
        eapply Hst; [by eapply HP|exact Hph2|by apply Hu2].
    + cbv [for_each_node_from ret] in H. injection H as _ <-.
      apply chain_nil_inv in Hc as ->.
      split; [reflexivity|]. split; [done|]. by intros p ?%elem_of_nil.
Qed.


(** *** Directory blocks *)

(** The directory block of [n] has fewer than 2^32 bytes whatever the
    names of its children (each at most [LCFS_MAX_NAME_LENGTH] bytes), so
    its length survives the 32-bit [len] of the arena reference. *)
Definition dir_fits (n : node) : Prop :=
  (lcfs_dir_header_size (length (Node.children n))
   + Z.of_nat (LCFS_MAX_NAME_LENGTH * length (Node.children n)) < 2 ^ 32)%Z.

(** The directory [p], when it has children and its block fits, refers to
    the block [compute_dirents] builds for them. *)
Definition dirents_ok (p : nat) (s : state) : Prop :=
  forall n, heap s !! p = Some n -> ifmt n = S_IFDIR -> Node.children n <> [] -> dir_fits n ->
  exists ds names, build_dirents (heap s) (Node.children n) 0 = inr (ds, names) /\
    vdata_at (vdata s) (variable_data (Node.inode n)) = dir_block ds names /\
    Z.to_nat (len (variable_data (Node.inode n))) = length (dir_block ds names).

(** A step that keeps the variable-data reference of [p]. *)
Definition vd_rel (p : nat) (s s' : state) : Prop :=
  phase_rel s s' /\ forall n, heap s !! p = Some n ->
    exists n', heap s' !! p = Some n' /\ variable_data (Node.inode n') = variable_data (Node.inode n).

#[global] Instance vd_rel_preorder p : PreOrder (vd_rel p).
Proof.
  split.
  - intros s. split; [reflexivity|]. eauto.
  - intros s1 s2 s3 (P1 & V1) (P2 & V2). split; [by etrans|].
    intros n Hn. destruct (V1 n Hn) as (n2 & Hn2 & E2). destruct (V2 n2 Hn2) as (n3 & Hn3 & E3).
    exists n3. split; [done|]. congruence.
Qed.

Lemma follow_links_fuel_skel h h' fuel p :
  skel_eq h h' -> follow_links_fuel h' fuel p = follow_links_fuel h fuel p.
Proof.
  intros He. revert p. induction fuel as [|f IH]; intros p; [done|]. simpl.
  destruct (h !! p) as [n|] eqn:E.
  - destruct (skel_eq_lookup _ _ _ _ He E) as (n' & -> & Hs).
    apply skel_fields in Hs as (Hl & _). rewrite Hl. destruct (Node.link_to n); auto.
  - by rewrite (skel_eq_lookup_None _ _ _ He E).
Qed.

Lemma follow_links_skel h h' p : skel_eq h h' -> follow_links h' p = follow_links h p.
Proof.
  intros He. unfold follow_links. rewrite <- (skel_eq_length _ _ He).
  by apply follow_links_fuel_skel.
Qed.

Lemma build_dirents_skel h h' cs o :
  skel_eq h h' -> build_dirents h' cs o = build_dirents h cs o.
Proof.
  intros He. revert o. induction cs as [|c cs IH]; intros o; [done|]. simpl.
  rewrite (follow_links_skel _ _ _ He).
  destruct (h !! c) as [cn|] eqn:Ec.
  - destruct (skel_eq_lookup _ _ _ _ He Ec) as (cn' & -> & Hs).
    apply skel_fields in Hs as (_ & Hnm & _).
    destruct (follow_links h c) as [e|t]; [done|].
    destruct (h !! t) as [tn|] eqn:Et.
    + destruct (skel_eq_lookup _ _ _ _ He Et) as (tn' & -> & Ht).
      apply skel_fields in Ht as (_ & _ & _ & _ & Hnum & Hmode & _).
      rewrite Hnm, Hnum. unfold node_get_dtype, ifmt. rewrite Hmode, IH. done.
    + by rewrite (skel_eq_lookup_None _ _ _ He Et).
  - by rewrite (skel_eq_lookup_None _ _ _ He Ec).
Qed.

Lemma dirents_ok_vd p s s' : vd_rel p s s' -> dirents_ok p s -> dirents_ok p s'.
Proof.
  intros [(_ & Hsk & [w Hw]) Hvd] Hok n' Hn' Hd Hc Hf.
  destruct (heap s !! p) as [n|] eqn:Hn.
  2: { by rewrite (skel_eq_lookup_None _ _ _ Hsk Hn) in Hn'. }
  destruct (Hvd n eq_refl) as (n2 & Hn2 & Ev). rewrite Hn' in Hn2. injection Hn2 as <-.
  destruct (skel_eq_lookup _ _ _ _ Hsk Hn) as (n3 & Hn3 & Hs). rewrite Hn' in Hn3.
  injection Hn3 as <-. apply skel_fields in Hs as (_ & _ & Hch & _ & _ & Hmode & _).
  destruct (Hok n) as (ds & names & Hb & Hv & Hl); [done| |congruence| |].
  { unfold ifmt in *. by rewrite <- Hmode. }
  { unfold dir_fits in *. by rewrite Hch in Hf. }
  exists ds, names. rewrite Hch, (build_dirents_skel _ _ _ _ Hsk), Ev, Hw.
  split; [done|]. split; [|done]. by apply vdata_at_app.
Qed.

Lemma names_size_nonneg h cs k : names_size h cs = inr k -> (0 <= k)%Z.
Proof.
  revert k. induction cs as [|c cs IH]; intros k H; simpl in H.
  - injection H as <-. lia.
  - destruct (h !! c) as [cn|]; [|done]. destruct (Node.name cn) as [nm|]; [|done].
    destruct (decide _); [done|]. destruct (names_size h cs) as [e|k'] eqn:E; [done|].
    injection H as <-. specialize (IH k' eq_refl). lia.
Qed.

(** The block [build_dirents] fills has one record per child and a name
    area of the size [names_size] counts. *)
Lemma build_dirents_size h cs o ds names k :
  names_size h cs = inr k -> build_dirents h cs o = inr (ds, names) ->
  length ds = length cs /\ Z.of_nat (length names) = k /\
  (k <= Z.of_nat (LCFS_MAX_NAME_LENGTH * length cs))%Z.
Proof.
  revert o ds names k. induction cs as [|c cs IH]; intros o ds names k Hk Hb.
  - injection Hk as <-. injection Hb as <- <-. simpl. lia.
  - cbn [names_size] in Hk. cbn [build_dirents] in Hb.
    destruct (h !! c) as [cn|]; [|discriminate].
    destruct (Node.name cn) as [nm|]; [|discriminate].
    destruct (decide _) as [|Hle]; [discriminate|].
    destruct (names_size h cs) as [e|k'] eqn:Ek; [discriminate|]. injection Hk as <-.
    destruct (follow_links h c) as [e|tg]; [discriminate|].
    destruct (h !! tg) as [tn|]; [|discriminate].
    destruct (build_dirents h cs _) as [e|[ds' names']] eqn:Eb; [discriminate|].
    injection Hb as <- <-. destruct (IH _ _ _ _ eq_refl Eb) as (H1 & H2 & H3).
    cbn [length default]. rewrite length_app. fold (strlen nm).
    unfold LCFS_MAX_NAME_LENGTH in *. split; [lia|]. split; lia.
Qed.

Lemma dir_block_length ds names :
  length (dir_block ds names) = (4 + 12 * length ds + length names)%nat.
Proof.
  unfold dir_block, le32, le_bytes. rewrite !length_app, length_map, length_seq.
  assert (E : length (concat (map dirent_bytes ds)) = (12 * length ds)%nat).
  { induction ds as [|d ds IH]; [done|]. cbn [map concat]. rewrite length_app, IH.
    change (length (dirent_bytes d)) with 12%nat. simpl. lia. }
  rewrite E. lia.
Qed.

Lemma compute_dirents_Ok p s u s' : compute_dirents p s = Ok u s' -> dirents_ok p s'.
Proof.
  intros H. unfold compute_dirents in H.
  apply bind_Ok in H as (n & s1 & H1 & H). apply load_Ok in H1 as [Hn ->].
  rewrite bind_gets in H.
  destruct (compute_dirents_size (heap s) n) as [e|size] eqn:Es.
  { destruct e; cbv [fail] in H; discriminate. }
  destruct (size =? 0)%Z eqn:Ez.
  - cbv [ret] in H. injection H as _ <-. intros n' Hn' _ Hc.
    rewrite Hn in Hn'. injection Hn' as <-. exfalso.
    unfold compute_dirents_size in Es. destruct (Node.children n) as [|c cs]; [done|].
    destruct (names_size (heap s) (c :: cs)) as [e|k] eqn:Ek; [done|].
    injection Es as <-. apply names_size_nonneg in Ek. apply Z.eqb_eq in Ez.
    unfold lcfs_dir_header_size, sizeof_dir_header, sizeof_dirent in Ez. lia.
  - apply bind_Ok in H as (ok & s1 & Hal & H). unfold try_alloc in Hal.
    destruct (alloc_next (allocs s)) as [[|] l]; injection Hal as <- <-;
      [|cbv [fail] in H; discriminate].
    simpl in H.
    destruct (build_dirents (heap s) (Node.children n) 0) as [e|[ds names]] eqn:Eb.
    { cbv [fail] in H; discriminate. }
    apply bind_Ok in H as (out & s2 & H2 & H).
    pose proof (append_vdata_grows _ _ _ _ _ H2) as [Hh _].
    apply modify_inode_Ok in H as (n2 & Hn2 & Hlt & ->).
    rewrite Hh in Hn2. simpl in Hn2. rewrite Hn in Hn2. injection Hn2 as <-.
    intros n' Hn' _ Hc Hfit. simpl in Hn'.
    rewrite Hh, list_lookup_insert_eq in Hn' by (rewrite <- Hh; done).
    injection Hn' as <-. simpl in Hc, Hfit |- *.
    assert (Hk : exists k, names_size (heap s) (Node.children n) = inr k).
    { unfold compute_dirents_size in Es. destruct (Node.children n) as [|c cs]; [done|].
      destruct (names_size (heap s) (c :: cs)) as [e|k]; [done|]. eauto. }
    destruct Hk as [k Hk].
    destruct (build_dirents_size _ _ _ _ _ _ Hk Eb) as (Hds & Hnm & Hle).
    apply append_vdata_Ok in H2 as (Hv & Hl & _).
    2: { rewrite dir_block_length, Hds. unfold dir_fits in Hfit.
         cbn [set_inode Node.children] in Hfit.
         unfold lcfs_dir_header_size, sizeof_dir_header, sizeof_dirent, LCFS_MAX_NAME_LENGTH in *.
         lia. }
    exists ds, names.
    split; [|split; [done|by rewrite Hl]].
    rewrite Hh. simpl. rewrite (build_dirents_skel (heap s)); [done|].
    eapply skel_eq_insert; [exact Hn|]. reflexivity.
Qed.


Lemma append_vdata_vd p data flags : holds (vd_rel p) (lcfs_append_vdata data flags).
Proof.
  intros s out s' H. split; [by eapply append_vdata_phase|].
  apply append_vdata_grows in H as (-> & _). eauto.
Qed.

Lemma modify_inode_vd p q f :
  (forall i, set_variable_data (set_xattrs_vd (set_digest_vd (f i) (mk_vdata 0 0)) (mk_vdata 0 0))
               (mk_vdata 0 0)
             = set_variable_data (set_xattrs_vd (set_digest_vd i (mk_vdata 0 0)) (mk_vdata 0 0))
               (mk_vdata 0 0)) ->
  (forall i, variable_data (f i) = variable_data i) ->
  holds (vd_rel p) (modify_inode q f).
Proof.
  intros Hf Hv s u s' H. pose proof (modify_inode_body q f Hf _ _ _ H) as [Hph _].
  split; [done|]. apply modify_inode_Ok in H as (m & Hm & Hlt & ->). intros n Hn. simpl.
  destruct (decide (p = q)) as [->|Hpq].
  - rewrite list_lookup_insert_eq by done. eexists. split; [reflexivity|]. simpl.
    rewrite Hv. congruence.
  - rewrite list_lookup_insert_ne by congruence. eauto.
Qed.

Lemma compute_xattrs_node_vd p q : holds (vd_rel p) (compute_xattrs_node q).
Proof.
  unfold compute_xattrs_node. repeat holds_step; auto using append_vdata_vd.
  apply modify_inode_vd; intros; reflexivity.
Qed.

Lemma compute_xattrs_vd p : holds (vd_rel p) compute_xattrs.
Proof.
  apply holds_for_each_node; try typeclasses eauto. intros q. apply compute_xattrs_node_vd.
Qed.

Lemma compute_variable_data_node_dirents p s a s' :
  compute_variable_data_node p s = Ok a s' -> dirents_ok p s'.
Proof.
  intros H. pose proof (compute_variable_data_node_body p _ _ _ H) as [(_ & Hsk & _) _].
  unfold compute_variable_data_node in H.
  apply bind_Ok in H as (n & s1 & H1 & H). apply load_Ok in H1 as [Hn ->].
  destruct (ifmt n =? S_IFDIR)%Z eqn:Ed.
  2: { intros n' Hn' Hd _. exfalso.
       destruct (skel_eq_lookup _ _ _ _ Hsk Hn) as (n'' & Hn'' & Hs).
       rewrite Hn' in Hn''. injection Hn'' as <-.
       apply skel_fields in Hs as (_ & _ & _ & _ & _ & Hm & _).
       unfold ifmt in Hd, Ed. rewrite Hm in Hd. rewrite Hd, Z.eqb_refl in Ed. discriminate. }
  apply bind_Ok in H as (u2 & s2 & H2 & H).
  pose proof (compute_dirents_body p _ _ _ H2) as [(_ & Hsk2 & _) _].
  apply compute_dirents_Ok in H2 as Hok2.
  destruct (skel_eq_lookup _ _ _ _ Hsk2 Hn) as (n2 & Hn2 & Hs2).
  apply skel_fields in Hs2 as (_ & _ & _ & _ & _ & Hm2 & _).
  assert (Hd2 : ifmt n2 = S_IFDIR) by (unfold ifmt; rewrite Hm2; by apply Z.eqb_eq).
  apply bind_Ok in H as (n3 & s3 & H3 & H). apply load_Ok in H3 as [Hn3 ->].
  rewrite Hn2 in Hn3. injection Hn3 as <-.
  rewrite Hd2 in H. cbn [Z.eqb S_IFDIR S_IFREG S_IFLNK Pos.eqb] in H.
  apply bind_Ok in H as (? & s4 & H4 & H). cbv [ret] in H4. injection H4 as _ <-.
  apply bind_Ok in H as (n5 & s5 & H5 & H). apply load_Ok in H5 as [Hn5 ->].
  rewrite Hn2 in Hn5. injection Hn5 as <-.
  rewrite Hd2 in H. cbn [Z.eqb S_IFDIR S_IFREG S_IFLNK Pos.eqb] in H.
  apply bind_Ok in H as (? & s6 & H6 & H). cbv [ret] in H6. injection H6 as _ <-.
  apply bind_Ok in H as (n7 & s7 & H7 & H). apply load_Ok in H7 as [Hn7 ->].
  eapply dirents_ok_vd; [|exact Hok2].
  assert (Hvd : holds (vd_rel p)
    (if Node.digest_set n7 then
       let* out := lcfs_append_vdata (Node.digest n7) APPEND_FLAGS_DEDUP in
       modify_inode p (fun i => set_digest_vd i out)
     else ret tt)).
  { repeat holds_step; auto using append_vdata_vd. apply modify_inode_vd; intros; reflexivity. }
  exact (Hvd _ _ _ H).
Qed.

Lemma compute_variable_data_Ok l s a s' :
  chain (heap s) (Some (root s)) l -> NoDup l -> compute_variable_data s = Ok a s' ->
  phase_rel s s' /\ forall p, p ∈ l -> dirents_ok p s'.
Proof.
  intros Hc Hnd H. unfold compute_variable_data, for_each_node in H. rewrite !bind_gets in H.
  eapply for_each_node_from_chain in H as (Hph & _ & Hok); [split; [exact Hph|exact Hok]| | | |exact Hc|exact Hnd].
  - apply compute_variable_data_node_body.
  - apply compute_variable_data_node_dirents.
  - intros p s1 s2 Hok1 Hph Hsame. eapply dirents_ok_vd; [|exact Hok1].
    split; [done|]. intros n Hn. exists n. by rewrite Hsame.
Qed.

Lemma compute_xattrs_phase : holds phase_rel compute_xattrs.
Proof.
  apply holds_for_each_node; try typeclasses eauto. intros q.
  eapply holds_weaken; [|apply compute_xattrs_node_body]. by intros ?? [? _].
Qed.


(** *** The emitted image *)

Lemma le_bytes_length w x : length (le_bytes w x) = w.
Proof. unfold le_bytes. by rewrite length_map, length_seq. Qed.

Lemma inode_bytes_length i : length (inode_bytes i) = 88.
Proof. unfold inode_bytes, le32, le64. by rewrite !length_app, !le_bytes_length. Qed.

Lemma superblock_bytes_length magic version o :
  length (superblock_bytes magic version o) = 16.
Proof. unfold superblock_bytes, le32, le64. by rewrite !length_app, !le_bytes_length. Qed.

Lemma inode_table_length h l :
  length (concat (map (fun p => inode_bytes (inode_at h p)) l)) = 88 * length l.
Proof.
  induction l as [|p l IH]; [done|]. cbn [map concat length]. rewrite length_app, IH, inode_bytes_length. lia.
Qed.

(** [write_inodes] along the list [l]: one inode record per node, in list
    order, the heap untouched. *)
Lemma write_inodes_from_chain f fuel : forall cur l s u s',
  chain (heap s) cur l ->
  for_each_node_from fuel cur (write_inode_data (Some f)) s = Ok u s' ->
  file s' = file s ++ concat (map (fun p => inode_bytes (inode_at (heap s) p)) l) /\
  emit_rel s s'.
Proof.
  induction fuel as [|fu IH]; intros cur l s u s' Hc H.
  - destruct cur as [p|]; simpl in H; [cbv [fail] in H; discriminate|].
    apply chain_nil_inv in Hc as ->. cbv [ret] in H. injection H as _ <-.
    split; [by rewrite app_nil_r|reflexivity].
  - destruct cur as [p|].
    + cbn [for_each_node_from] in H.
      apply bind_Ok in H as (a1 & s1 & H1 & H).
      apply bind_Ok in H as (n & s2 & H2 & H). apply load_Ok in H2 as [Hn ->].
      unfold write_inode_data in H1. apply bind_Ok in H1 as (m & s0 & H0 & H1).
      apply load_Ok in H0 as [Hm ->].
      apply lcfs_write_Ok in H1 as (F1 & _ & E1).
      destruct E1 as (L1 & Hh1 & R1 & V1 & A1 & I1).
      inversion Hc as [|? m' l' Hm' Hc' Heq]; subst.
      rewrite Hh1, Hm in Hn. injection Hn as <-. rewrite Hm' in Hm. injection Hm as <-.
      rewrite <- Hh1 in Hc'.
      destruct (IH _ l' _ _ _ Hc' H) as [F2 E2].
      split.
      * rewrite F2, F1, Hh1. cbn [map concat]. unfold inode_at. rewrite Hm'. by rewrite <- app_assoc.
      * etrans; [|exact E2]. repeat split; try done.
    + cbv [for_each_node_from ret] in H. injection H as _ <-.
      apply chain_nil_inv in Hc as ->. split; [by rewrite app_nil_r|reflexivity].
Qed.


(** A successful [lcfs_write_to] is a successful run of its body on a
    fresh context. *)
Lemma lcfs_write_to_Ok magic version dg h r cb want allocs d s :
  lcfs_write_to magic version dg h r cb want allocs = Ok d s ->
  exists a, lcfs_write_to_body magic version dg r cb want (lcfs_new_ctx h r want a) = Ok d s.
Proof.
  unfold lcfs_write_to. destruct (alloc_next allocs) as [[|] a1]; [|discriminate].
  destruct (if want then alloc_next a1 else (true, a1)) as [[|] a2]; [|discriminate]. eauto.
Qed.

(** A successful [lcfs_write_to] on a valid tree: [compute_tree] visits the
    nodes [L] (its final invariant holds in [s1]); the later passes keep the
    skeleton of every node and leave each visited directory pointing at its
    block; the sink receives the superblock, one inode record per node of
    [L] in order, and the arena.  The inode table is a multiple of 4 bytes,
    so the padding before the arena is empty. *)
Lemma write_to_layout magic version dg h r f want allocs d s :
  valid_tree h r ->
  lcfs_write_to magic version dg h r (Some f) want allocs = Ok d s ->
  exists L s1, tree_inv h r L [] s1 /\ skel_eq (heap s1) (heap s) /\
    (forall p, p ∈ L -> dirents_ok p s) /\
    file s = superblock_bytes magic version (16 + 88 * Z.of_nat (length L))
             ++ concat (map (fun p => inode_bytes (inode_at (heap s) p)) L) ++ vdata s.
Proof.
  intros Hv H. apply lcfs_write_to_Ok in H as [a H]. unfold lcfs_write_to_body in H.
  apply bind_Ok in H as (? & s1 & H1 & H).
  destruct (compute_tree_inv h r (lcfs_new_ctx h r want a) _ s1 Hv eq_refl H1) as [L Hti].
  pose proof (compute_tree_tree r _ _ _ H1) as ((F1 & B1 & _ & R1) & V1 & A1 & I1).
  clear H1. simpl in F1, B1, R1, V1, A1, I1. rewrite Z.sub_0_r in I1.
  pose proof (ti_chain _ _ _ _ _ Hti) as Hc1. pose proof (ti_nodup _ _ _ _ _ Hti) as Hnd.
  rewrite app_nil_r in Hc1, Hnd.
  rewrite bind_gets in H.
  apply bind_Ok in H as (? & s2 & H2 & H).
  destruct (compute_variable_data_Ok L s1 _ _ ltac:(by rewrite R1) Hnd H2) as [Ph2 Hd2].
  apply bind_Ok in H as (? & s3 & H3 & H).
  pose proof (compute_xattrs_phase _ _ _ H3) as Ph3.
  assert (Hd3 : forall p, p ∈ L -> dirents_ok p s3).
  { intros p Hp. eapply dirents_ok_vd; [|exact (Hd2 p Hp)]. exact (compute_xattrs_vd p _ _ _ H3). }
  clear H2 H3 Hd2.
  assert (Ph13 : phase_rel s1 s3) by (etrans; eauto).
  clear Ph2 Ph3. destruct Ph13 as (((F3 & B3 & _ & R3) & I3 & A3) & Sk3 & _).
  apply bind_Ok in H as (? & s4 & H4 & H).
  apply lcfs_write_Ok in H4 as (F4 & B4 & E4).
  apply bind_Ok in H as (? & s5 & H5 & H).
  unfold write_inodes, for_each_node in H5. rewrite !bind_gets in H5.
  destruct E4 as (L4 & Hh4 & R4 & V4 & A4 & I4).
  apply (write_inodes_from_chain _ _ _ L) in H5 as (F5 & E5).
  2: { rewrite Hh4, R4, R3, R1. by apply (skel_eq_chain _ _ _ _ Sk3). }
  pose proof E5 as (L5 & Hh5 & R5 & V5 & A5 & I5).
  rewrite !bind_gets in H.
  apply bind_Ok in H as (? & s5c & Ha & H). apply assert_Ok in Ha as [Ebw ->].
  apply Z.eqb_eq in Ebw.
  assert (Hf4 : length (file s4) = 16) by (rewrite F4, F3, F1; cbn [app]; apply superblock_bytes_length).
  assert (Hb4 : bytes_written s4 = 16%Z) by (rewrite B4, B3, B1, superblock_bytes_length; reflexivity).
  rewrite F4, F3, F1 in F5. cbn [app] in F5.
  rewrite F5, length_app, superblock_bytes_length, inode_table_length, Hf4, Hb4 in L5.
  assert (Hits : inode_table_size s1 = (88 * Z.of_nat (length L))%Z).
  { rewrite I5, I4, I3 in Ebw. unfold sizeof_superblock in Ebw. lia. }
  assert (Hoff : ALIGN_TO (sizeof_superblock + inode_table_size s1) 4
                 = (16 + 88 * Z.of_nat (length L))%Z).
  { rewrite Hits. apply ALIGN_TO_4_id. unfold sizeof_superblock.
    replace (16 + 88 * Z.of_nat (length L))%Z with ((4 + 22 * Z.of_nat (length L)) * 4)%Z by lia.
    apply Z.mod_mul. lia. }
  rewrite Hoff in F5.
  assert (Hbw5 : bytes_written s5 = (16 + 88 * Z.of_nat (length L))%Z).
  { lia. }
  rewrite bind_gets in H.
  apply bind_Ok in H as (? & s6 & H6 & H).
  assert (s = s6) as ->.
  { destruct want.
    - rewrite bind_gets in H. cbv [ret] in H. by injection H as _ <-.
    - cbv [ret] in H. by injection H as _ <-. }
  assert (Hf : file s6 = file s5 ++ vdata s5 /\ heap s6 = heap s5 /\ vdata s6 = vdata s5).
  { destruct (0 <? vdata_allocated s5)%Z eqn:Ealloc.
    - rewrite bind_gets in H6.
      apply bind_Ok in H6 as (? & s7 & H7 & H6).
      rewrite Hoff, Hbw5, Z.sub_diag in H7. cbv [lcfs_write_pad lcfs_write_pad_loop ret] in H7.
      injection H7 as _ <-. rewrite bind_gets in H6.
      apply lcfs_write_Ok in H6 as (Fw & _ & (_ & Hhw & _ & Vw & _)). done.
    - cbv [ret] in H6. injection H6 as _ <-. split; [|done].
      apply Z.ltb_ge in Ealloc.
      assert (Hv0 : vdata s5 = []).
      { unfold arena_ok in A3. rewrite V1, A1 in A3. simpl in A3.
        rewrite A5, A4 in Ealloc. specialize (A3 ltac:(lia)).
        rewrite V5, V4. destruct (vdata s3); [done|]. simpl in A3. lia. }
      by rewrite Hv0, app_nil_r. }
  destruct Hf as (Ff & Hhf & Vf).
  exists L, s1. split; [done|]. split.
  { by rewrite Hhf, Hh5, Hh4. }
  split.
  { intros p Hp. specialize (Hd3 p Hp). intros n Hn Hd Hch.
    rewrite Hhf, Hh5, Hh4 in Hn |- *. rewrite Vf, V5, V4. by apply Hd3. }
  rewrite Ff, F5, Vf, Hhf, Hh5, Hh4. by rewrite <- app_assoc.
Qed.


Lemma record_at {A B} (g : A -> list B) w l i x :
  (forall y, length (g y) = w) -> l !! i = Some x ->
  drop (w * i) (concat (map g l)) = g x ++ concat (map g (drop (S i) l)).
Proof.
  intros Hw. revert i. induction l as [|y l IH]; intros i Hi; [done|].
  destruct i as [|i]; cbn [concat map].
  - simpl in Hi. injection Hi as ->. by rewrite Nat.mul_0_r, drop_0.
  - simpl in Hi. rewrite Nat.mul_succ_r, Nat.add_comm.
    pose proof (drop_app_add (g y) (concat (map g l)) (w * i)) as E. rewrite Hw in E.
    rewrite E. by apply IH.
Qed.

(** The [i]-th inode record of the emitted image, bytes [16 + 88 i] to
    [16 + 88 (i + 1)]. *)
Lemma image_record magic version o table_nodes h v i p :
  table_nodes !! i = Some p ->
  take 88 (drop (16 + 88 * i) (superblock_bytes magic version o
     ++ concat (map (fun q => inode_bytes (inode_at h q)) table_nodes) ++ v))
  = inode_bytes (inode_at h p).
Proof.
  intros Hi.
  pose proof (drop_app_add (superblock_bytes magic version o)
    (concat (map (fun q => inode_bytes (inode_at h q)) table_nodes) ++ v) (88 * i)) as E.
  rewrite superblock_bytes_length in E. rewrite E, drop_app_le.
  - rewrite (record_at (fun q => inode_bytes (inode_at h q)) 88 _ _ _
             (fun y => inode_bytes_length _) Hi), <- app_assoc.
    rewrite <- (inode_bytes_length (inode_at h p)) at 1. apply take_app_length.
  - rewrite inode_table_length. apply lookup_lt_Some in Hi. lia.
Qed.

Lemma inode_bytes_nlink i : take 4 (drop 4 (inode_bytes i)) = le32 (st_nlink i).
Proof.
  unfold inode_bytes, le32, le64, le_bytes. reflexivity.
Qed.

(** At most [length h] children are directories, every child being a
    distinct node of the heap. *)
Lemma count_dirs_le h r p n0 :
  valid_tree h r -> h !! p = Some n0 -> count_dirs h (Node.children n0) <= length h.
Proof.
  intros Hv Hp. unfold count_dirs.
  assert (Hnd : NoDup (Node.children n0)).
  { eapply NoDup_submseteq_inv; [|exact (vt_nodup _ _ Hv)].
    assert (Hs : concat (map (children_at h) [p]) ⊆+ concat (map Node.children h)).
    { apply children_at_submseteq; [apply NoDup_singleton|].
      intros k ->%list_elem_of_singleton. by eapply lookup_lt_Some. }
    simpl in Hs. unfold children_at in Hs. rewrite Hp, app_nil_r in Hs. exact Hs. }
  rewrite <- (length_seq (length h) 0). apply submseteq_length, NoDup_submseteq.
  - apply NoDup_ListNoDup, List.NoDup_filter, NoDup_ListNoDup, Hnd.
  - intros c Hc. apply list_elem_of_In, filter_In in Hc as [_ Hc].
    apply elem_of_seq. unfold is_dir_at in Hc.
    destruct (h !! c) eqn:E; [|discriminate]. apply lookup_lt_Some in E. lia.
Qed.


(** [follow_links] stops at a node whose [link_to] is NULL. *)
Lemma follow_links_fuel_terminal h fuel : forall p t,
  follow_links_fuel h fuel p = inr t -> exists tn, h !! t = Some tn /\ Node.link_to tn = None.
Proof.
  induction fuel as [|f IH]; intros p t H; simpl in H; [discriminate|].
  destruct (h !! p) as [n|] eqn:E; [|discriminate].
  destruct (Node.link_to n) as [q|] eqn:El; [by eapply IH|].
  injection H as <-. eauto.
Qed.

Lemma follow_links_terminal h p t :
  follow_links h p = inr t -> exists tn, h !! t = Some tn /\ Node.link_to tn = None.
Proof. apply follow_links_fuel_terminal. Qed.

(** The [k]-th dirent describes the end of the link chain of the [k]-th
    child. *)
Lemma build_dirents_lookup h cs : forall o ds names k c,
  build_dirents h cs o = inr (ds, names) -> cs !! k = Some c ->
  exists t tn dd, follow_links h c = inr t /\ h !! t = Some tn /\ ds !! k = Some dd /\
    Dirent.inode_num dd = Node.inode_num tn /\ Dirent.d_type dd = node_get_dtype tn.
Proof.
  induction cs as [|c0 cs IH]; intros o ds names k c H Hk; [done|].
  cbn [build_dirents] in H.
  destruct (h !! c0) as [cn|]; [|discriminate].
  destruct (follow_links h c0) as [e|t] eqn:Ef; [discriminate|].
  destruct (h !! t) as [tn|] eqn:Et; [|discriminate].
  destruct (build_dirents h cs _) as [e|[ds' names']] eqn:Eb; [discriminate|].
  injection H as <- <-.
  destruct k as [|k]; simpl in Hk.
  - injection Hk as <-. exists t, tn. eexists. repeat split; done.
  - by apply (IH _ _ _ k c Eb).
Qed.

(** A range of the arena, read back from the image. *)
Lemma image_vdata magic version o table_nodes h v e :
  take (Z.to_nat (len e)) (drop (16 + 88 * length table_nodes + Z.to_nat (off e))
     (superblock_bytes magic version o
        ++ concat (map (fun q => inode_bytes (inode_at h q)) table_nodes) ++ v))
  = vdata_at v e.
Proof.
  rewrite app_assoc.
  pose proof (drop_app_add (superblock_bytes magic version o
     ++ concat (map (fun q => inode_bytes (inode_at h q)) table_nodes)) v (Z.to_nat (off e))) as E.
  rewrite length_app, superblock_bytes_length, inode_table_length in E.
  by rewrite E.
Qed.

(** *** The xattr list *)

Lemma find_xattr_from_range xs k i : find_xattr_from xs k i = (-1)%Z \/ (i <= find_xattr_from xs k i)%Z.
Proof.
  revert i. induction xs as [|x xs IH]; intros i; simpl; [by left|].
  destruct (String.eqb k (key x)); [right; lia|].
  destruct (IH (i + 1)%Z) as [->|?]; [by left|right; lia].
Qed.

Lemma get_xattr_from_lookup xs k i : (0 <= i)%Z ->
  (if (0 <=? find_xattr_from xs k i)%Z
   then value <$> xs !! Z.to_nat (find_xattr_from xs k i - i) else None) = xattr_lookup xs k.
Proof.
  revert i. induction xs as [|x xs IH]; intros i Hi; simpl; [done|].
  destruct (String.eqb k (key x)).
  - rewrite Z.sub_diag. simpl. by destruct (0 <=? i)%Z eqn:E; [|apply Z.leb_gt in E; lia].
  - rewrite <- (IH (i + 1)%Z) by lia.
    destruct (find_xattr_from_range xs k (i + 1)) as [->|Hr]; [done|].
    destruct (0 <=? find_xattr_from xs k (i + 1))%Z; [|done].
    replace (Z.to_nat (find_xattr_from xs k (i + 1) - i))
      with (S (Z.to_nat (find_xattr_from xs k (i + 1) - (i + 1)))) by lia. done.
Qed.

Lemma get_xattr_lookup n k : lcfs_node_get_xattr n k = xattr_lookup (Node.xattrs n) k.
Proof.
  unfold lcfs_node_get_xattr, find_xattr.
  rewrite <- (get_xattr_from_lookup _ _ 0) by lia. by rewrite Z.sub_0_r.
Qed.

Lemma set_xattr_from_lookup xs k v k' i : (0 <= i)%Z ->
  xattr_lookup (if (0 <=? find_xattr_from xs k i)%Z
                then alter (fun x => mk_xattr (key x) v) (Z.to_nat (find_xattr_from xs k i - i)) xs
                else xs ++ [mk_xattr k v]) k'
  = if String.eqb k' k then Some v else xattr_lookup xs k'.
Proof.
  revert i. induction xs as [|x xs IH]; intros i Hi; simpl.
  - by destruct (String.eqb k' k).
  - destruct (String.eqb k (key x)) eqn:Ek.
    + apply String.eqb_eq in Ek. subst k. rewrite Z.sub_diag.
      destruct (0 <=? i)%Z eqn:E; [|apply Z.leb_gt in E; lia]. simpl.
      by destruct (String.eqb k' (key x)).
    + specialize (IH (i + 1)%Z ltac:(lia)).
      destruct (find_xattr_from_range xs k (i + 1)) as [Hf|Hr].
      * rewrite Hf in IH |- *. simpl in IH |- *. rewrite IH.
        destruct (String.eqb k' (key x)) eqn:E1; [|done].
        apply String.eqb_eq in E1. subst k'.
        destruct (String.eqb (key x) k) eqn:E2; [|done].
        apply String.eqb_eq in E2. subst k. by rewrite String.eqb_refl in Ek.
      * destruct (0 <=? find_xattr_from xs k (i + 1))%Z eqn:E0; [|apply Z.leb_gt in E0; lia].
        replace (Z.to_nat (find_xattr_from xs k (i + 1) - i))
          with (S (Z.to_nat (find_xattr_from xs k (i + 1) - (i + 1)))) by lia.
        change (alter ?f (S ?j) (x :: xs)) with (x :: alter f j xs).
        simpl. rewrite IH.
        destruct (String.eqb k' (key x)) eqn:E1; [|done].
        apply String.eqb_eq in E1. subst k'.
        destruct (String.eqb (key x) k) eqn:E2; [|done].
        apply String.eqb_eq in E2. subst k. by rewrite String.eqb_refl in Ek.
Qed.

Lemma find_xattr_from_none xs k i :
  (0 <= i)%Z -> find_xattr_from xs k i = (-1)%Z -> k ∉ map key xs.
Proof.
  revert i. induction xs as [|x xs IH]; intros i Hi H; simpl in *; [by intros ?%elem_of_nil|].
  destruct (String.eqb k (key x)) eqn:E; [lia|].
  apply String.eqb_neq in E. intros [->|?]%elem_of_cons; [done|]. by eapply IH; [|exact H|]; [lia|].
Qed.

Lemma map_key_alter xs j v :
  map key (alter (fun x => mk_xattr (key x) v) j xs) = map key xs.
Proof.
  revert j. induction xs as [|x xs IH]; intros [|j]; try done.
  change (alter ?f (S j) (x :: xs)) with (x :: alter f j xs). simpl. by rewrite IH.
Qed.

Lemma xattr_lookup_app A B k :
  xattr_lookup (A ++ B) k =
  match xattr_lookup A k with Some v => Some v | None => xattr_lookup B k end.
Proof.
  induction A as [|x A IH]; simpl; [done|]. by destruct (String.eqb k (key x)).
Qed.

Lemma xattr_lookup_notin A k : k ∉ map key A -> xattr_lookup A k = None.
Proof.
  induction A as [|x A IH]; simpl; [done|]. intros Hn.
  destruct (String.eqb k (key x)) eqn:E.
  - apply String.eqb_eq in E. subst k. destruct Hn. apply elem_of_cons. by left.
  - apply IH. intros ?. apply Hn. apply elem_of_cons. by right.
Qed.

Lemma find_xattr_from_some xs k i :
  (0 <= i)%Z -> (0 <= find_xattr_from xs k i)%Z ->
  ∃ x, xs !! Z.to_nat (find_xattr_from xs k i - i) = Some x /\ key x = k.
Proof.
  revert i. induction xs as [|x xs IH]; intros i Hi Hf; simpl in *; [lia|].
  destruct (String.eqb k (key x)) eqn:E.
  - apply String.eqb_eq in E. exists x. rewrite Z.sub_diag. by split.
  - destruct (IH (i + 1)%Z ltac:(lia) Hf) as (y & Hy & Hk). exists y. split; [|done].
    destruct (find_xattr_from_range xs k (i + 1)) as [He|Hr]; [lia|].
    replace (Z.to_nat (find_xattr_from xs k (i + 1) - i))
      with (S (Z.to_nat (find_xattr_from xs k (i + 1) - (i + 1)))) by lia. done.
Qed.

Lemma nodup_keys_split A x B :
  NoDup (map key (A ++ x :: B)) ->
  (key x ∉ map key A) /\ (key x ∉ map key B) /\ NoDup (map key A) /\ NoDup (map key B) /\
  (∀ y, y ∈ map key A -> y ∉ map key B).
Proof.
  rewrite List.map_app. simpl. rewrite NoDup_app, NoDup_cons.
  intros (HA & Hd & Hx & HB). repeat split; try done.
  - intros H. exact (Hd _ H ltac:(apply elem_of_cons; by left)).
  - intros y Hy Hy'. exact (Hd _ Hy ltac:(apply elem_of_cons; by right)).
Qed.

Lemma find_xattr_split n k x A B :
  Node.xattrs n = A ++ x :: B -> key x = k -> k ∉ map key A ->
  find_xattr n k = Z.of_nat (length A).
Proof.
  intros Hx Hk HA. unfold find_xattr. rewrite Hx. clear Hx.
  enough (∀ i, find_xattr_from (A ++ x :: B) k i = (i + Z.of_nat (length A))%Z) as H by (rewrite H; lia).
  induction A as [|a A IH]; intros i; simpl.
  - rewrite <- Hk, String.eqb_refl. lia.
  - destruct (String.eqb k (key a)) eqn:E.
    + apply String.eqb_eq in E. subst k. destruct HA. apply elem_of_cons. by left.
    + rewrite IH; [lia|]. intros ?. apply HA. apply elem_of_cons. by right.
Qed.

(** [lcfs_node_unset_xattr] on the last entry drops it. *)
Lemma unset_xattr_shape_last n k x A :
  Node.xattrs n = A ++ [x] -> key x = k -> k ∉ map key A ->
  Node.xattrs (snd (lcfs_node_unset_xattr n k)) = A.
Proof.
  intros Hx Hk HA. pose proof (find_xattr_split n k x A [] Hx Hk HA) as Hf.
  unfold lcfs_node_unset_xattr. rewrite Hf. simpl.
  destruct (0 <=? Z.of_nat (length A))%Z eqn:E0; [|apply Z.leb_gt in E0; lia].
  rewrite Hx, length_app. simpl.
  destruct (Z.of_nat (length A) =? Z.of_nat (length A + 1) - 1)%Z eqn:E1;
    [|apply Z.eqb_neq in E1; lia]. simpl.
  replace (length A + 1 - 1) with (length A) by lia. by rewrite take_app_length.
Qed.

(** Elsewhere the last entry [l] takes the slot of the removed one. *)
Lemma unset_xattr_shape_mid n k x A B l :
  Node.xattrs n = A ++ x :: B ++ [l] -> key x = k -> k ∉ map key A ->
  Node.xattrs (snd (lcfs_node_unset_xattr n k)) = A ++ l :: B.
Proof.
  intros Hx Hk HA. pose proof (find_xattr_split n k x A (B ++ [l]) Hx Hk HA) as Hf.
  unfold lcfs_node_unset_xattr. rewrite Hf. simpl.
  destruct (0 <=? Z.of_nat (length A))%Z eqn:E0; [|apply Z.leb_gt in E0; lia].
  rewrite Hx, !length_app. simpl. rewrite length_app. simpl.
  destruct (Z.of_nat (length A) =? Z.of_nat (length A + S (length B + 1)) - 1)%Z eqn:E1;
    [apply Z.eqb_eq in E1; lia|]. simpl.
  replace (A ++ x :: B ++ [l]) with ((A ++ x :: B) ++ [l]) by (by rewrite <- app_assoc).
  rewrite last_snoc, <- app_assoc. simpl.
  rewrite (insert_app_r_alt A) by lia. rewrite Nat2Z.id, Nat.sub_diag. simpl.
  replace (length A + S (length B + 1) - 1) with (length (A ++ l :: B)) by (rewrite length_app; simpl; lia).
  replace (A ++ l :: B ++ [l]) with ((A ++ l :: B) ++ [l]) by (by rewrite <- app_assoc).
  by rewrite take_app_length.
Qed.


(** *** Adding and removing children *)

Lemma find_child_index_app h cs ds nm i :
  find_child_index h (cs ++ ds) nm i =
  match find_child_index h cs nm i with
  | Some j => Some j
  | None => find_child_index h ds nm (i + length cs)
  end.
Proof.
  revert i. induction cs as [|c cs IH]; intros i; simpl; [by rewrite Nat.add_0_r|].
  rewrite <- Nat.add_succ_comm.
  destruct (h !! c) as [cn|]; [destruct (Node.name cn) as [cnm|]; [destruct (String.eqb cnm nm)|]|];
    auto.
Qed.

(** The loop of [lcfs_node_remove_child] misses exactly when
    [lcfs_node_lookup_child] does. *)
Lemma find_child_index_none h pn nm i :
  lcfs_node_lookup_child h pn nm = None -> find_child_index h (Node.children pn) nm i = None.
Proof.
  unfold lcfs_node_lookup_child. generalize (Node.children pn) as cs. intros cs.
  revert i. induction cs as [|c cs IH]; intros i; simpl; [done|].
  destruct (h !! c) as [cn|]; [destruct (Node.name cn) as [cnm|]; [destruct (String.eqb cnm nm)|]|];
    auto; done.
Qed.

Lemma find_child_index_names h h' cs nm i :
  (∀ x, x ∈ cs -> Node.name <$> h' !! x = Node.name <$> h !! x) ->
  find_child_index h' cs nm i = find_child_index h cs nm i.
Proof.
  revert i. induction cs as [|c cs IH]; intros i Hn; simpl; [done|].
  pose proof (Hn c ltac:(apply elem_of_cons; by left)) as Hc.
  rewrite IH by (intros x Hx; apply Hn, elem_of_cons; by right).
  destruct (h' !! c), (h !! c); simpl in Hc; try discriminate; [|done].
  injection Hc as ->. done.
Qed.

Lemma set_children_id n : set_children n (Node.children n) = n.
Proof. by destruct n. Qed.

Lemma set_children_twice n a b : set_children (set_children n a) b = set_children n b.
Proof. by destruct n. Qed.

Lemma heap_update_Some h p n f : h !! p = Some n -> heap_update h p f = <[p := f n]> h.
Proof. unfold heap_update. by intros ->. Qed.

(** A successful [lcfs_node_add_child] checked what the C code checks. *)
Lemma add_child_Ok h p c nm pn cn :
  h !! p = Some pn -> h !! c = Some cn ->
  fst (lcfs_node_add_child h p c nm) = 0%Z ->
  ifmt pn = S_IFDIR /\ (strlen nm <= LCFS_MAX_NAME_LENGTH)%nat /\ Node.name cn = None /\
  lcfs_node_lookup_child h pn nm = None /\
  snd (lcfs_node_add_child h p c nm) =
    heap_update (heap_update h p (fun n => set_children n (Node.children n ++ [c])))
      c (fun n => set_parent_name n (Some p) (Some nm)).
Proof.
  intros Hp Hc. unfold lcfs_node_add_child. rewrite Hp, Hc.
  destruct (negb (ifmt pn =? S_IFDIR)%Z) eqn:E1; [simpl; lia|].
  destruct (decide (LCFS_MAX_NAME_LENGTH < strlen nm)); [simpl; lia|].
  destruct (bool_decide (Node.name cn ≠ None)) eqn:E3; [simpl; lia|].
  destruct (bool_decide (lcfs_node_lookup_child h pn nm ≠ None)) eqn:E4; [simpl; lia|].
  intros _. apply negb_false_iff, Z.eqb_eq in E1.
  rewrite bool_decide_eq_false in E3, E4.
  split; [done|]. split; [unfold LCFS_MAX_NAME_LENGTH in *; lia|]. split; [|split; [|done]].
  - destruct (Node.name cn); [|done]. by destruct E3.
  - destruct (lcfs_node_lookup_child h pn nm); [|done]. by destruct E4.
Qed.

(** What a successful [lcfs_node_add_child] leaves in the heap. *)
Lemma add_child_heap h p c nm :
  fst (lcfs_node_add_child h p c nm) = 0%Z ->
  ∃ pn cn, h !! p = Some pn /\ h !! c = Some cn /\
    ifmt pn = S_IFDIR /\ Node.name cn = None /\ lcfs_node_lookup_child h pn nm = None /\
    (∀ x, x ≠ c -> Node.name <$> snd (lcfs_node_add_child h p c nm) !! x = Node.name <$> h !! x) /\
    (∃ cn', snd (lcfs_node_add_child h p c nm) !! c = Some cn' /\
            Node.parent cn' = Some p /\ Node.name cn' = Some nm) /\
    (∃ pn', snd (lcfs_node_add_child h p c nm) !! p = Some pn' /\
            Node.children pn' = Node.children pn ++ [c] /\ ifmt pn' = ifmt pn).
Proof.
  intros H0.
  destruct (h !! p) as [pn|] eqn:Hp; [|unfold lcfs_node_add_child in H0; rewrite Hp in H0; simpl in H0; lia].
  destruct (h !! c) as [cn|] eqn:Hc;
    [|unfold lcfs_node_add_child in H0; rewrite Hp, Hc in H0; simpl in H0; lia].
  destruct (add_child_Ok h p c nm pn cn Hp Hc H0) as (Hd & _ & Hn & Hl & ->).
  exists pn, cn. do 5 (split; [done|]).
  rewrite (heap_update_Some h p pn) by done.
  assert (Hc1 : ∃ cn1, <[p := set_children pn (Node.children pn ++ [c])]> h !! c = Some cn1 /\
                       (p = c -> cn1 = set_children pn (Node.children pn ++ [c])) /\
                       (p ≠ c -> cn1 = cn)).
  { destruct (decide (p = c)) as [->|Hne].
    - eexists. split; [apply list_lookup_insert_eq; by apply lookup_lt_Some in Hc|].
      split; [done|]. by intros [].
    - exists cn. rewrite list_lookup_insert_ne by done. split; [done|split; [intros ?; contradiction|done]]. }
  destruct Hc1 as (cn1 & Hc1 & Hpc & Hnc).
  rewrite (heap_update_Some _ c cn1) by done.
  assert (Hlp : p < length h) by (by apply lookup_lt_Some in Hp).
  assert (Hlc : c < length h) by (by apply lookup_lt_Some in Hc).
  split; [|split].
  - intros x Hx. rewrite list_lookup_insert_ne by done.
    destruct (decide (p = x)) as [->|Hpx].
    + rewrite list_lookup_insert_eq, Hp by done. by destruct pn.
    + by rewrite list_lookup_insert_ne.
  - eexists. split; [apply list_lookup_insert_eq; by rewrite length_insert|]. by destruct cn1.
  - destruct (decide (p = c)) as [->|Hne].
    + eexists. split; [apply list_lookup_insert_eq; by rewrite length_insert|].
      rewrite (Hpc eq_refl). by destruct pn.
    + eexists. rewrite list_lookup_insert_ne by done.
      split; [apply list_lookup_insert_eq; done|]. by destruct pn.
Qed.

Lemma lookup_child_after_add (h h' : list node) (cs : list nat) (c : nat) (nm : string) :
  (∀ x, x ≠ c -> Node.name <$> h' !! x = Node.name <$> h !! x) ->
  Node.name <$> h' !! c = Some (Some nm) ->
  List.find (fun c => match h !! c with
                      | Some cn => match Node.name cn with
                                   | Some cnm => String.eqb cnm nm
                                   | None => false end
                      | None => false end) cs = None ->
  List.find (fun c => match h' !! c with
                      | Some cn => match Node.name cn with
                                   | Some cnm => String.eqb cnm nm
                                   | None => false end
                      | None => false end) (cs ++ [c]) = Some c.
Proof.
  intros Hx Hc. induction cs as [|x cs IH]; simpl.
  - destruct (h' !! c) as [cn'|]; [|done]. simpl in Hc. injection Hc as ->.
    by rewrite String.eqb_refl.
  - destruct (decide (x = c)) as [->|Hne].
    + destruct (h' !! c) as [cn'|]; [|done]. simpl in Hc. injection Hc as ->.
      by rewrite String.eqb_refl.
    + pose proof (Hx x Hne) as E.
      destruct (h' !! x) as [a|], (h !! x) as [b|]; simpl in E; try discriminate.
      * injection E as E. rewrite E.
        destruct (Node.name b); [destruct (String.eqb s nm); [discriminate|]|]; apply IH.
      * intros. by apply IH.
Qed.

(** [lcfs_node_unref] of a node still referenced elsewhere, or of a
    detached leaf: one step. *)
Lemma unref_simple fuel h fr p n :
  h !! p = Some n ->
  (1 < Node.ref_count n)%Z \/
    (Node.parent n = None /\ Node.children n = [] /\ Node.link_to n = None) ->
  lcfs_node_unref (S fuel) p (h, fr) =
  inr (<[p := set_ref_count n (Node.ref_count n - 1)]> h,
       if (0 <? Node.ref_count n - 1)%Z then fr else fr ++ [p]).
Proof.
  intros Hp Hcase. simpl. rewrite Hp.
  destruct (0 <? Node.ref_count n - 1)%Z eqn:E; [done|].
  apply Z.ltb_ge in E. destruct Hcase as [?|(Hpar & Hch & Hlk)]; [lia|].
  rewrite Hpar, Hch, Hlk. rewrite bool_decide_false by tauto. done.
Qed.

Lemma ifmt_set_children n cs : ifmt (set_children n cs) = ifmt n.
Proof. by destruct n. Qed.

(** *** The digest stream *)

(** The digest context holds exactly the bytes delivered to the sink. *)
Definition digest_inv (s : state) : Prop := fsverity_ctx s = Some (file s).

Lemma lcfs_write_digest_inv f data s u s' :
  digest_inv s -> lcfs_write (Some f) data s = Ok u s' -> digest_inv s'.
Proof.
  unfold digest_inv. intros Hi H.
  pose proof H as H'. apply lcfs_write_Ok in H' as (F & _).
  unfold lcfs_write, bind, modify in H. apply write_cb_loop_Ok in H. subst s'.
  rewrite F. destruct s; cbn in *. by rewrite Hi.
Qed.

Lemma keeps_output_digest_inv s s' : keeps_output s s' -> digest_inv s -> digest_inv s'.
Proof. unfold digest_inv. intros (F & _ & V & _) Hi. by rewrite V, F. Qed.

Lemma write_inodes_digest_inv f fuel : forall cur s u s',
  digest_inv s -> for_each_node_from fuel cur (write_inode_data (Some f)) s = Ok u s' ->
  digest_inv s'.
Proof.
  induction fuel as [|fu IH]; intros [p|] s u s' Hi H; simpl in H;
    try (injection H as _ <-; done); try discriminate.
  apply bind_Ok in H as (? & s1 & H1 & H).
  unfold write_inode_data in H1. apply bind_Ok in H1 as (n & s0 & H0 & H1).
  apply load_Ok in H0 as [_ ->].
  pose proof (lcfs_write_digest_inv _ _ _ _ _ Hi H1) as Hi1.
  apply bind_Ok in H as (m & s2 & H2 & H). apply load_Ok in H2 as [_ ->].
  exact (IH _ _ _ _ Hi1 H).
Qed.

Lemma write_pad_digest_inv f fuel : forall n s u s',
  digest_inv s -> lcfs_write_pad_loop fuel (Some f) n s = Ok u s' -> digest_inv s'.
Proof.
  induction fuel as [|fu IH]; intros n s u s' Hi H; simpl in H.
  - by injection H as _ <-.
  - destruct n as [|n']; [by injection H as _ <-|].
    apply bind_Ok in H as (? & s1 & H1 & H).
    exact (IH _ _ _ _ (lcfs_write_digest_inv _ _ _ _ _ Hi H1) H).
Qed.

(** *** Sinks that always make progress *)

(** A callback that takes at least one and at most all of the bytes it is
    offered. *)
Definition sink_progress (f : lcfs_write_cb) : Prop :=
  forall fl o, o <> [] -> (1 <= f fl o <= Z.of_nat (length o))%Z.

Lemma write_cb_loop_progress f fuel : forall data s,
  sink_progress f -> length data <= fuel ->
  exists s', write_cb_loop fuel f data s = Ok tt s'.
Proof.
  induction fuel as [|fu IH]; intros [|b data] s Hf Hl; simpl in Hl.
  - by exists s.
  - lia.
  - by exists s.
  - cbn [write_cb_loop]. unfold bind, gets.
    destruct (Hf (file s) (b :: data) ltac:(done)) as [H1 H2].
    destruct (f (file s) (b :: data) <=? 0)%Z eqn:E1; [apply Z.leb_le in E1; lia|].
    destruct (Z.of_nat (length (b :: data)) <? f (file s) (b :: data))%Z eqn:E2;
      [apply Z.ltb_lt in E2; lia|].
    unfold modify. apply IH; [done|]. rewrite length_drop. simpl in *. lia.
Qed.

Lemma lcfs_write_progress f data s :
  sink_progress f -> exists s', lcfs_write (Some f) data s = Ok tt s'.
Proof.
  intros Hf. unfold lcfs_write, bind, modify.
  by apply write_cb_loop_progress.
Qed.

Lemma write_pad_loop_zeros f fuel : forall m s,
  sink_progress f -> m <= fuel ->
  exists s', lcfs_write_pad_loop fuel (Some f) m s = Ok tt s' /\
    file s' = file s ++ repeat Byte.x00 m /\
    bytes_written s' = (bytes_written s + Z.of_nat m)%Z.
Proof.
  induction fuel as [|fu IH]; intros m s Hf Hm.
  - assert (m = 0) as -> by lia. exists s. cbn. split; [done|]. split; [by rewrite app_nil_r|lia].
  - destruct m as [|m'].
    + exists s. cbn. split; [done|]. split; [by rewrite app_nil_r|lia].
    + cbn [lcfs_write_pad_loop]. unfold bind at 1.
      destruct (lcfs_write_progress f (repeat Byte.x00 (Nat.min 256 (S m'))) s Hf) as (s1 & H1).
      rewrite H1. apply lcfs_write_Ok in H1 as (F1 & B1 & _).
      destruct (IH (S m' - Nat.min 256 (S m')) s1 Hf ltac:(lia)) as (s2 & H2 & F2 & B2).
      exists s2. split; [done|]. rewrite F2, F1, B2, B1, repeat_length, <- app_assoc, <- repeat_app.
      split; [do 2 f_equal; lia|lia].
Qed.

(** *** The canonical order of children and xattrs *)

(** Two heaps giving every address the same name. *)
Definition names_same (h h' : list node) : Prop :=
  forall q, Node.name <$> h' !! q = Node.name <$> h !! q.

(** A step keeping the names, and the children, xattrs and [in_tree] mark
    of every node. *)
Definition order_keep (s s' : state) : Prop :=
  names_same (heap s) (heap s') /\
  forall p n', heap s' !! p = Some n' -> exists n, heap s !! p = Some n /\
    Node.children n' = Node.children n /\ Node.xattrs n' = Node.xattrs n /\
    Node.in_tree n' = Node.in_tree n.

(** Every node marked in the tree, except possibly [e], has its children
    sorted by name and its xattrs sorted by key. *)
Definition sorted_except (e : option nat) (s : state) : Prop :=
  forall p n, heap s !! p = Some n -> Node.in_tree n = true -> e <> Some p ->
    Sorted (cmp_nodes_le (heap s)) (Node.children n) /\ Sorted cmp_xattr_le (Node.xattrs n).

#[global] Instance cmp_nodes_le_total h : Total (cmp_nodes_le h).
Proof.
  intros a b. unfold cmp_nodes_le.
  destruct (String.compare (name_of h a) (name_of h b)) eqn:E; [left; congruence|left; congruence|].
  right. rewrite String.compare_antisym, E. simpl. congruence.
Qed.

#[global] Instance cmp_xattr_le_total : Total cmp_xattr_le.
Proof.
  intros a b. unfold cmp_xattr_le.
  destruct (String.compare (key a) (key b)) eqn:E; [left; congruence|left; congruence|].
  right. rewrite String.compare_antisym, E. simpl. congruence.
Qed.

Lemma Sorted_mono {A} (R R' : A -> A -> Prop) l :
  (forall a b, R a b -> R' a b) -> Sorted R l -> Sorted R' l.
Proof.
  intros H. induction 1 as [|a l Hs IH Hd]; constructor; [done|].
  destruct Hd; constructor; auto.
Qed.

Lemma name_of_same h h' q : names_same h h' -> name_of h' q = name_of h q.
Proof.
  intros Hs. unfold name_of. specialize (Hs q).
  destruct (h' !! q), (h !! q); simpl in Hs; congruence.
Qed.

Lemma sorted_names h h' l :
  names_same h h' -> Sorted (cmp_nodes_le h) l -> Sorted (cmp_nodes_le h') l.
Proof.
  intros Hs. apply Sorted_mono. intros a b. unfold cmp_nodes_le.
  by rewrite !(name_of_same h h').
Qed.

#[global] Instance order_keep_preorder : PreOrder order_keep.
Proof.
  split.
  - intros s. split; [intros q; reflexivity|]. intros p n' H. exists n'. auto.
  - intros s1 s2 s3 [N1 K1] [N2 K2]. split; [intros q; by rewrite N2, N1|].
    intros p n3 H3. destruct (K2 _ _ H3) as (n2 & H2 & C2 & X2 & T2).
    destruct (K1 _ _ H2) as (n1 & H1 & C1 & X1 & T1).
    exists n1. repeat split; congruence.
Qed.

Lemma order_keep_sorted e s s' : order_keep s s' -> sorted_except e s -> sorted_except e s'.
Proof.
  intros [N K] Hs p n' Hp' Ht He. destruct (K _ _ Hp') as (n & Hp & C & X & T).
  rewrite C, X. rewrite T in Ht. destruct (Hs p n Hp Ht He) as [S1 S2].
  split; [|done]. by eapply sorted_names.
Qed.

Lemma sorted_except_None e s : sorted_except None s -> sorted_except e s.
Proof. intros Hs p n Hp Ht _. by apply (Hs p n). Qed.

Lemma heap_same_order s s' : heap s' = heap s -> order_keep s s'.
Proof.
  intros E. split; [intros q; by rewrite E|].
  intros p n' H. rewrite E in H. exists n'. auto.
Qed.

Lemma skel_order s s' : skel_eq (heap s) (heap s') -> order_keep s s'.
Proof.
  intros Hsk. split.
  - intros q. destruct (heap s !! q) as [n|] eqn:Eq.
    + destruct (skel_eq_lookup _ _ _ _ Hsk Eq) as (n' & Hn' & Hs). rewrite Hn'. simpl.
      apply skel_fields in Hs as (_ & Hnm & _). by rewrite Hnm.
    + by rewrite (skel_eq_lookup_None _ _ _ Hsk Eq).
  - intros p n' Hp'. destruct (heap s !! p) as [n|] eqn:Ep.
    + destruct (skel_eq_lookup _ _ _ _ Hsk Ep) as (m & Hm & Hs). rewrite Hp' in Hm.
      injection Hm as <-. exists n. split; [done|].
      pose proof (f_equal Node.children Hs). pose proof (f_equal Node.xattrs Hs).
      pose proof (f_equal Node.in_tree Hs). simpl in *. auto.
    + by rewrite (skel_eq_lookup_None _ _ _ Hsk Ep) in Hp'.
Qed.

Lemma store_order s p n n' :
  heap s !! p = Some n -> Node.name n' = Node.name n -> Node.children n' = Node.children n ->
  Node.xattrs n' = Node.xattrs n -> Node.in_tree n' = Node.in_tree n ->
  order_keep s (set_heap s (<[p := n']> (heap s))).
Proof.
  intros Hp Nm C X T. pose proof (lookup_lt_Some _ _ _ Hp) as Hlt. split.
  - intros q. cbn [heap set_heap]. destruct (decide (q = p)) as [->|Hq].
    + rewrite list_lookup_insert_eq by done. rewrite Hp. simpl. by rewrite Nm.
    + by rewrite list_lookup_insert_ne.
  - intros q m Hq. cbn [heap set_heap] in Hq. destruct (decide (q = p)) as [->|Hne].
    + rewrite list_lookup_insert_eq in Hq by done. injection Hq as <-. exists n. auto.
    + rewrite list_lookup_insert_ne in Hq by done. exists m. auto.
Qed.

Lemma compute_tree_enqueue_order b cs s u s' :
  compute_tree_enqueue b cs s = Ok u s' -> order_keep s s'.
Proof.
  revert s. induction cs as [|c cs IH]; intros s H; simpl in H.
  - cbv [ret] in H. injection H as _ <-. reflexivity.
  - destruct b; [by apply (IH s)|].
    apply bind_Ok in H as (cn & s1 & H1 & H). apply load_Ok in H1 as [_ ->].
    apply bind_Ok in H as (? & s2 & H2 & H). apply assert_Ok in H2 as [_ ->].
    rewrite bind_gets in H.
    apply bind_Ok in H as (qn & s3 & H3 & H). apply load_Ok in H3 as [Hqn ->].
    apply bind_Ok in H as (? & s4 & H4 & H). apply store_Ok in H4 as [_ ->].
    apply bind_Ok in H as (? & s5 & H5 & H). apply modify_Ok in H5 as ->.
    etrans; [|exact (IH _ H)]. etrans; [apply (store_order _ (queue_end s) qn (set_next qn (Some c))); auto|].
    apply heap_same_order. reflexivity.
Qed.

Lemma compute_tree_visit_sorted p i e s u s' :
  (e = None \/ e = Some p) -> sorted_except e s -> compute_tree_visit p i s = Ok u s' ->
  sorted_except None s'.
Proof.
  intros He Hs H. unfold compute_tree_visit in H.
  apply bind_Ok in H as (n & s1 & H1 & H). apply load_Ok in H1 as [Hn ->].
  destruct (negb _ && negb _); [cbv [fail] in H; discriminate|].
  apply bind_Ok in H as (n1 & s2 & H2 & H).
  assert (Hn1 : s2 = s /\ Node.name n1 = Node.name n /\ Node.children n1 = Node.children n /\
                Node.xattrs n1 = Node.xattrs n).
  { destruct (ifmt n =? S_IFDIR)%Z.
    - apply bind_Ok in H2 as (k & s3 & H3 & H2). apply count_dir_children_Ok in H3 as [-> _].
      cbv [ret] in H2. by injection H2 as <- <-.
    - cbv [ret] in H2. by injection H2 as <- <-. }
  destruct Hn1 as (-> & Nm & _ & _). rewrite bind_gets in H.
  apply bind_Ok in H as (? & s3 & H3 & H). apply store_Ok in H3 as [Hlt ->].
  apply modify_Ok in H as ->. cbn [heap set_heap set_inode_table_size].
  match goal with |- sorted_except None (set_inode_table_size (set_heap s (<[p := ?n2]> _)) _) =>
    set (n2' := n2) end.
  assert (Ns : names_same (heap s) (<[p := n2']> (heap s))).
  { intros q. destruct (decide (q = p)) as [->|Hq].
    - rewrite list_lookup_insert_eq by done. rewrite Hn. simpl. by rewrite Nm.
    - by rewrite list_lookup_insert_ne. }
  intros q m Hq Ht _. cbn [heap set_heap set_inode_table_size] in Hq |- *.
  destruct (decide (q = p)) as [->|Hne].
  - rewrite list_lookup_insert_eq in Hq by done. injection Hq as <-. subst n2'. simpl. split.
    + eapply sorted_names; [exact Ns|]. apply Sorted_merge_sort. apply _.
    + apply Sorted_merge_sort. apply _.
  - rewrite list_lookup_insert_ne in Hq by done.
    destruct (Hs q m Hq Ht) as [S1 S2]; [destruct He as [-> | ->]; congruence|].
    split; [|done]. by eapply sorted_names.
Qed.

Lemma compute_tree_loop_sorted fuel : forall cur i s u s',
  sorted_except cur s -> compute_tree_loop fuel cur i s = Ok u s' -> sorted_except None s'.
Proof.
  induction fuel as [|f IH]; intros [p|] i s u s' Hs H.
  - cbv [compute_tree_loop fail] in H. discriminate.
  - cbv [compute_tree_loop ret] in H. by injection H as _ <-.
  - cbn [compute_tree_loop] in H.
    apply bind_Ok in H as (? & s1 & H1 & H).
    apply (compute_tree_visit_sorted p i (Some p)) in H1; [|by right|exact Hs].
    apply bind_Ok in H as (n & s2 & H2 & H). apply load_Ok in H2 as [_ ->].
    apply bind_Ok in H as (? & s3 & H3 & H). apply compute_tree_enqueue_order in H3.
    apply bind_Ok in H as (n' & s4 & H4 & H). apply load_Ok in H4 as [_ ->].
    eapply IH; [|exact H]. apply sorted_except_None. by eapply order_keep_sorted.
  - cbv [compute_tree_loop ret] in H. by injection H as _ <-.
Qed.

Lemma compute_tree_sorted r s u s' :
  (forall q n, heap s !! q = Some n -> Node.in_tree n = false) ->
  compute_tree r s = Ok u s' -> sorted_except None s'.
Proof.
  intros Hf H. unfold compute_tree in H.
  apply bind_Ok in H as (? & s1 & H1 & H). apply modify_Ok in H1 as ->.
  apply bind_Ok in H as (rn & s2 & H2 & H). apply load_Ok in H2 as [_ ->].
  apply bind_Ok in H as (? & s3 & H3 & H). apply store_Ok in H3 as [_ ->].
  rewrite bind_gets in H. eapply compute_tree_loop_sorted; [|exact H].
  intros q n Hq Ht Hne. cbn [heap set_heap set_queue_end] in Hq.
  rewrite list_lookup_insert_ne in Hq by congruence.
  by rewrite (Hf q n Hq) in Ht.
Qed.

Lemma write_cb_loop_order fuel f : forall data, holds order_keep (write_cb_loop fuel f data).
Proof.
  induction fuel as [|fu IH]; intros [|x data]; cbn [write_cb_loop]; repeat holds_step; auto.
  apply holds_modify; try typeclasses eauto. intros s. by apply heap_same_order.
Qed.

Lemma lcfs_write_order cb data : holds order_keep (lcfs_write cb data).
Proof.
  unfold lcfs_write. repeat holds_step; [|apply write_cb_loop_order].
  apply holds_modify; try typeclasses eauto. intros s. by apply heap_same_order.
Qed.

Lemma write_pad_loop_order fuel cb : forall n, holds order_keep (lcfs_write_pad_loop fuel cb n).
Proof.
  induction fuel as [|fu IH]; intros [|n]; cbn [lcfs_write_pad_loop]; repeat holds_step;
    auto using lcfs_write_order.
Qed.

Lemma write_inodes_order cb : holds order_keep (write_inodes cb).
Proof.
  apply holds_for_each_node; try typeclasses eauto. intros p.
  unfold write_inode_data. repeat holds_step. apply lcfs_write_order.
Qed.

Lemma compute_variable_data_order : holds order_keep compute_variable_data.
Proof.
  apply holds_for_each_node; try typeclasses eauto. intros p.
  eapply holds_weaken; [|apply compute_variable_data_node_body].
  intros s s' ((_ & Hsk & _) & _). by apply skel_order.
Qed.

Lemma compute_xattrs_order : holds order_keep compute_xattrs.
Proof.
  eapply holds_weaken; [|apply compute_xattrs_phase].
  intros s s' (_ & Hsk & _). by apply skel_order.
Qed.

(** *** The size of a directory block *)

Lemma names_size_ok h cs nms :
  Forall2 (fun c nm => exists cn, h !! c = Some cn /\ Node.name cn = Some nm /\
                                  strlen nm <= LCFS_MAX_NAME_LENGTH) cs nms ->
  names_size h cs = inr (Z.of_nat (sum_list_with strlen nms)).
Proof.
  induction 1 as [|c nm cs nms (cn & Hc & Hn & Hl) _ IH]; [done|].
  cbn [names_size sum_list_with]. rewrite Hc, Hn, decide_False by lia. rewrite IH. f_equal. lia.
Qed.

(* ------------------------------------------------------------------ *)
(** ** Concrete inputs *)

(** A callback accepting every byte offered. *)
Definition full_sink : lcfs_write_cb := fun _ o => Z.of_nat (length o).

(** Two bytes per call at most. *)
Definition two_byte_sink : lcfs_write_cb := fun _ o => Z.of_nat (Nat.min 2 (length o)).

Definition xval25 : list byte := repeat Byte.x76 25.

(** A regular file of one byte with payload "x", an xattr "a" with a
    25-byte value, and an fs-verity digest whose 32 bytes are those of its
    own xattr block. *)
Definition heap_digest_eq_xattrs : list node :=
  let (r, h) := heap_new [] in
  let h := lcfs_node_set_mode h r (S_IFREG + 420)%Z in
  let h := lcfs_node_set_size h r 1 in
  let h := lcfs_node_set_payload h r "x"%string in
  let h := lcfs_node_set_fsverity_digest h r (xattr_block [mk_xattr "a"%string xval25]) in
  heap_set_xattr h r "a"%string xval25.

(** A regular file of size 5 with payload "blob1". *)
Definition heap_blob1 : list node :=
  let (r, h) := heap_new [] in
  let h := lcfs_node_set_mode h r (S_IFREG + 420)%Z in
  let h := lcfs_node_set_size h r 5 in
  lcfs_node_set_payload h r "blob1"%string.

(** Write [h], then set the size of node 0 to 0 and write again. *)
Definition write_resize_write (magic version : Z) (dg : list byte -> list byte)
  (h : list node) : res (option (list byte)) :=
  match lcfs_write_to magic version dg h 0 (Some full_sink) false [] with
  | Ok _ s => lcfs_write_to magic version dg (lcfs_node_set_size (heap s) 0 0)
                0 (Some full_sink) false []
  | Err e => Err e
  end.

(** A directory (mode 0755) with one regular file "a". *)
Definition heap_dir_file : list node :=
  let (r, h) := heap_new [] in
  let (c, h) := heap_new h in
  let h := lcfs_node_set_mode h r (S_IFDIR + 493)%Z in
  let h := lcfs_node_set_mode h c (S_IFREG + 420)%Z in
  snd (lcfs_node_add_child h r c "a"%string).

(** A directory (mode 0755) holding a regular file "orig" of size 3 with
    payload "x", a hardlink "alias" to it, and an empty directory "sub". *)
Definition heap_hardlink : list node :=
  let (r, h) := heap_new [] in
  let (o, h) := heap_new h in
  let (a, h) := heap_new h in
  let (d, h) := heap_new h in
  let h := lcfs_node_set_mode h r (S_IFDIR + 493)%Z in
  let h := lcfs_node_set_mode h o (S_IFREG + 420)%Z in
  let h := lcfs_node_set_size h o 3 in
  let h := lcfs_node_set_payload h o "x"%string in
  let h := lcfs_node_set_mode h d (S_IFDIR + 493)%Z in
  let h := snd (lcfs_node_add_child h r o "orig"%string) in
  let h := lcfs_node_make_hardlink h a o in
  let h := snd (lcfs_node_add_child h r a "alias"%string) in
  snd (lcfs_node_add_child h r d "sub"%string).

(** A directory (mode 0755) and a regular file not in it yet, on which
    the caller holds a second reference. *)
Definition heap_dir_loose : list node :=
  let (r, h) := heap_new [] in
  let (c, h) := heap_new h in
  let h := lcfs_node_set_mode h r (S_IFDIR + 493)%Z in
  let h := lcfs_node_set_mode h c (S_IFREG + 420)%Z in
  lcfs_node_ref h c.

(** The node at [p] of a concrete heap. *)
Definition node_at (h : list node) (p : nat) : node := default lcfs_node_new (h !! p).

Definition xattr_node : node :=
  set_xattrs lcfs_node_new [mk_xattr "user.a"%string [Byte.x31]; mk_xattr "user.b"%string [Byte.x32]].

(** Three xattrs: unsetting the first moves the last into its slot. *)
Definition xattr_node3 : node :=
  set_xattrs lcfs_node_new [mk_xattr "user.a"%string [Byte.x31]; mk_xattr "user.b"%string [Byte.x32];
                            mk_xattr "user.c"%string [Byte.x33]].

(* ------------------------------------------------------------------ *)
(** ** Claims about single API functions *)

(** C10: [lcfs_node_get_child node i] is the i-th child when [i] is below
    the number of children and NULL otherwise. *)
Theorem get_child_spec (n : node) (i : nat) :
  (i < length (Node.children n) ->
     lcfs_node_get_child n i = Node.children n !! i /\ is_Some (Node.children n !! i)) /\
  (length (Node.children n) <= i -> lcfs_node_get_child n i = None).
Proof.
  unfold lcfs_node_get_child. split; intros Hi.
  - rewrite decide_True by lia. split; [done|]. by apply lookup_lt_is_Some_2.
  - rewrite decide_False by lia. done.
Qed.

(** C8: [lcfs_node_unset_xattr] removes the entry (the last one takes its
    slot) yet returns -1, and returns the same -1 when no entry has the
    key. *)
Theorem unset_xattr_returns_error :
  lcfs_node_unset_xattr xattr_node "user.a"%string
    = ((-1)%Z, set_xattrs xattr_node [mk_xattr "user.b"%string [Byte.x32]]) /\
  lcfs_node_unset_xattr xattr_node "user.c"%string = ((-1)%Z, xattr_node).
Proof. split; reflexivity. Qed.

(** C7: an aligned append of fewer than 2^32 bytes that does not hit the
    dedup table either fails with ENOMEM (the [realloc] growing the arena
    failed) or pads the arena with zeros to the next multiple of 4,
    returns the padded offset and the data length, and stores the data
    verbatim there. *)
Theorem append_vdata_align_pads (data : list byte) (flags : Z) (s : state) :
  Z.land flags APPEND_FLAGS_ALIGN <> 0%Z ->
  (Z.land flags APPEND_FLAGS_DEDUP <> 0%Z -> hash_lookup (ht s) (vdata s) data = None) ->
  (Z.of_nat (length data) < 2 ^ 32)%Z ->
  let vlen := Z.of_nat (length (vdata s)) in
  let pad := if (vlen mod 4 =? 0)%Z then 0%Z else (4 - vlen mod 4)%Z in
  match lcfs_append_vdata data flags s with
  | Ok o s' =>
      o = mk_vdata (vlen + pad) (Z.of_nat (length data)) /\
      vdata s' = vdata s ++ repeat Byte.x00 (Z.to_nat pad) ++ data /\
      (0 <= pad < 4)%Z /\ ((vlen + pad) mod 4 = 0)%Z /\
      vdata_at (vdata s') o = data
  | Err e => e = ENOMEM
  end.
Proof.
  intros Ha Hd Hb vlen pad.
  destruct (lcfs_append_vdata data flags s) as [o s'|e] eqn:E; [|by apply append_vdata_Err in E].
  pose proof (append_vdata_Ok _ _ _ _ _ Hb E) as (Hv & _).
  apply append_vdata_inv in E as [(ent & Ed & El & _)|(_ & Ho & alloc & t & a & Hs & _)].
  { exfalso. apply negb_true_iff, Z.eqb_neq in Ed. by rewrite (Hd Ed) in El. }
  assert (Hal : negb (Z.land flags APPEND_FLAGS_ALIGN =? 0)%Z = true)
    by (apply negb_true_iff, Z.eqb_neq; done).
  rewrite Hal in Ho, Hs. cbn [andb] in Ho, Hs. fold vlen in Ho, Hs.
  assert (Hpad : (if negb (vlen mod 4 =? 0)%Z then (4 - vlen mod 4)%Z else 0%Z) = pad).
  { unfold pad. by destruct (vlen mod 4 =? 0)%Z. }
  rewrite Hpad in Ho, Hs. rewrite Z.mod_small in Ho by lia. subst o s'.
  split; [done|]. split; [done|].
  assert (Hm : (0 <= vlen mod 4 < 4)%Z) by (apply Z.mod_pos_bound; lia).
  assert (Hp : (0 <= pad < 4)%Z /\ ((vlen + pad) mod 4 = 0)%Z).
  { unfold pad. destruct (vlen mod 4 =? 0)%Z eqn:E.
    - apply Z.eqb_eq in E. split; [lia|]. by rewrite Z.add_0_r.
    - apply Z.eqb_neq in E. split; [lia|].
      rewrite Z.add_mod by lia. rewrite (Z.mod_small (4 - vlen mod 4)) by lia.
      replace (vlen mod 4 + (4 - vlen mod 4))%Z with 4%Z by lia. reflexivity. }
  split; [apply Hp|]. split; [apply Hp|]. exact Hv.
Qed.
(** C5 (the dedup path): the node's xattr block equals its digest, which
    was appended unaligned at offset 1 just before; the aligned, deduped
    append of the xattr block returns offset 1. *)
Theorem xattr_block_dedup_unaligned (magic version : Z) (dg : list byte -> list byte) :
  match lcfs_write_to magic version dg heap_digest_eq_xattrs 0 (Some full_sink) false [] with
  | Ok _ s =>
      (Node.inode <$> heap s !! 0) =
        Some (mk_inode (S_IFREG + 420) 1 0 0 0 1 0 0 0 0
                (mk_vdata 0 1) (mk_vdata 1 32) (mk_vdata 1 32)) /\
      vdata s = cstr "x" ++ xattr_block [mk_xattr "a" xval25] /\
      (1 mod 4 <> 0)%Z
  | Err _ => False
  end.
Proof. vm_compute. repeat split; discriminate. Qed.

(** C3: a regular file once written with size 5 and payload "blob1", then
    set to size 0 and written again, still carries the variable_data
    (0, 5) of the first run; the arena of the second run is empty. *)
Theorem empty_file_stale_payload (magic version : Z) (dg : list byte -> list byte) :
  match write_resize_write magic version dg heap_blob1 with
  | Ok _ s =>
      (Node.inode <$> heap s !! 0) =
        Some (mk_inode (S_IFREG + 420) 1 0 0 0 0 0 0 0 0
                (mk_vdata 0 5) (mk_vdata 0 0) (mk_vdata 0 0)) /\
      Node.payload <$> heap s !! 0 = Some (Some "blob1"%string) /\
      vdata s = [] /\
      take 88 (drop 16 (file s)) =
        inode_bytes (mk_inode (S_IFREG + 420) 1 0 0 0 0 0 0 0 0
                (mk_vdata 0 5) (mk_vdata 0 0) (mk_vdata 0 0))
  | Err _ => False
  end.
Proof. vm_compute. repeat split; reflexivity. Qed.

(** An arena of one byte, an empty dedup table. *)
Definition ctx_one_byte : state :=
  set_arena (lcfs_new_ctx [] 0 false []) [Byte.x61] 1 [].

Lemma append_vdata_align_pads_witness :
  Z.land APPEND_FLAGS_ALIGN APPEND_FLAGS_ALIGN <> 0%Z /\
  (Z.land APPEND_FLAGS_ALIGN APPEND_FLAGS_DEDUP <> 0%Z ->
     hash_lookup (ht ctx_one_byte) (vdata ctx_one_byte) [Byte.x62; Byte.x63] = None) /\
  (Z.of_nat (length [Byte.x62; Byte.x63]) < 2 ^ 32)%Z /\
  exists s',
    lcfs_append_vdata [Byte.x62; Byte.x63] APPEND_FLAGS_ALIGN ctx_one_byte
      = Ok (mk_vdata 4 2) s' /\
    vdata s' = [Byte.x61; Byte.x00; Byte.x00; Byte.x00; Byte.x62; Byte.x63].
Proof.
  assert (Ha : Z.land APPEND_FLAGS_ALIGN APPEND_FLAGS_ALIGN <> 0%Z) by (vm_compute; discriminate).
  assert (Hd : Z.land APPEND_FLAGS_ALIGN APPEND_FLAGS_DEDUP <> 0%Z ->
     hash_lookup (ht ctx_one_byte) (vdata ctx_one_byte) [Byte.x62; Byte.x63] = None)
    by (intros; reflexivity).
  assert (Hb : (Z.of_nat (length [Byte.x62; Byte.x63]) < 2 ^ 32)%Z) by (vm_compute; reflexivity).
  split; [exact Ha|]. split; [exact Hd|]. split; [exact Hb|].
  pose proof (append_vdata_align_pads [Byte.x62; Byte.x63] APPEND_FLAGS_ALIGN ctx_one_byte Ha Hd Hb)
    as H.
  cbv zeta in H.
  destruct (lcfs_append_vdata [Byte.x62; Byte.x63] APPEND_FLAGS_ALIGN ctx_one_byte) as [o s'|e] eqn:E.
  - destruct H as (Ho & Hv & _). exists s'. split.
    + rewrite Ho. reflexivity.
    + rewrite Hv. reflexivity.
  - vm_compute in E. discriminate.
Defined.

(** C9: on success, the bytes delivered to the callback number exactly
    [ALIGN_TO (sizeof superblock + inode_table_size, 4) + vdata_len], also
    when the arena is empty. *)
Theorem write_to_output_length (magic version : Z) (dg : list byte -> list byte)
  (h : list node) (r : nat) (f : lcfs_write_cb) (want : bool) (allocs : list bool)
  (d : option (list byte)) (s : state) :
  lcfs_write_to magic version dg h r (Some f) want allocs = Ok d s ->
  Z.of_nat (length (file s)) =
    (ALIGN_TO (sizeof_superblock + inode_table_size s) 4 + Z.of_nat (length (vdata s)))%Z.
Proof.
  intros H. apply lcfs_write_to_Ok in H as [a H]. unfold lcfs_write_to_body in H.
  apply bind_Ok in H as (? & s1 & H1 & H).
  pose proof (compute_tree_tree r _ _ _ H1) as ((F1 & B1 & _ & _) & V1 & A1 & I1). clear H1.
  rewrite bind_gets in H.
  apply bind_Ok in H as (? & s2 & H2 & H).
  pose proof (compute_variable_data_layout _ _ _ H2) as L2. clear H2.
  apply bind_Ok in H as (? & s3 & H3 & H).
  pose proof (compute_xattrs_layout _ _ _ H3) as L3. clear H3.
  destruct (layout_rel_preorder) as [_ Ltr].
  pose proof (Ltr _ _ _ L2 L3) as ((F3 & B3 & _ & _) & I3 & A3). clear L2 L3 Ltr.
  apply bind_Ok in H as (? & s4 & H4 & H).
  apply lcfs_write_Ok in H4 as (_ & _ & E4).
  apply bind_Ok in H as (? & s5 & H5 & H).
  pose proof (write_inodes_emit _ _ _ _ H5) as E5. clear H5.
  destruct (emit_rel_preorder) as [_ Etr].
  pose proof (Etr _ _ _ E4 E5) as (L5 & _ & _ & V5 & A5 & I5). clear E4 E5.
  rewrite !bind_gets in H.
  apply bind_Ok in H as (? & s5c & Ha & H). unfold assert in Ha.
  destruct (bytes_written s5 =? sizeof_superblock + inode_table_size s5)%Z eqn:Ebw;
    [|cbv [fail] in Ha; discriminate].
  inversion Ha; subst s5c; clear Ha. apply Z.eqb_eq in Ebw.
  rewrite bind_gets in H.
  apply bind_Ok in H as (? & s6 & H6 & H).
  assert (s = s6) as ->.
  { destruct want.
    - rewrite bind_gets in H. by inversion H.
    - by inversion H. }
  simpl in F1, B1, V1, A1, I1.
  rewrite Z.sub_0_r in I1.
  assert (Hits : (inode_table_size s5 mod 4 = 0)%Z).
  { rewrite I5, I3. unfold sizeof_inode in I1.
    apply Z.mod_divide in I1 as [k Hk]; [|lia]. rewrite Hk.
    replace (k * 88)%Z with ((k * 22) * 4)%Z by lia. apply Z.mod_mul. lia. }
  assert (Hlen5 : Z.of_nat (length (file s5)) = bytes_written s5).
  { rewrite F3, F1, B3, B1 in L5. simpl in L5. lia. }
  rewrite I5, I3 in Ebw, Hits.
  destruct (0 <? vdata_allocated s5)%Z eqn:Ealloc.
  - rewrite bind_gets in H6.
    apply bind_Ok in H6 as (? & s7 & H7 & H6).
    apply write_pad_loop_Ok in H7 as (Bp & (Lp & _ & _ & Vp & _ & Ip)); [|lia].
    rewrite bind_gets in H6.
    apply lcfs_write_Ok in H6 as (Fw & Bw & (_ & _ & _ & Vw & _ & Iw)).
    rewrite Iw, Ip, I5, I3, Vw, Vp, Fw, length_app, Nat2Z.inj_add.
    pose proof (ALIGN_TO_4_ge (sizeof_superblock + inode_table_size s1)) as HD.
    rewrite Z2Nat.id in Bp by lia.
    rewrite Vp. lia.
  - inversion H6; subst s6; clear H6.
    apply Z.ltb_ge in Ealloc.
    assert (Hv : length (vdata s5) = 0).
    { rewrite V5. unfold arena_ok in A3. rewrite V1, A1 in A3. simpl in A3.
      rewrite A5 in Ealloc. specialize (A3 ltac:(lia)). unfold arena_ok in A3. lia. }
    rewrite I5, I3, Hv, Hlen5, Ebw, ALIGN_TO_4_id; [lia|].
    unfold sizeof_superblock. rewrite Z.add_mod, Hits by lia. reflexivity.
Qed.

Lemma write_to_output_length_witness :
  exists d s,
    lcfs_write_to 1 2 (fun l => l) heap_blob1 0 (Some two_byte_sink) true [] = Ok d s /\
    Z.of_nat (length (file s)) =
      (ALIGN_TO (sizeof_superblock + inode_table_size s) 4 + Z.of_nat (length (vdata s)))%Z.
Proof.
  destruct (lcfs_write_to 1 2 (fun l => l) heap_blob1 0 (Some two_byte_sink) true []) as [d s|e] eqn:E.
  - exists d, s. split; [reflexivity|]. exact (write_to_output_length 1 2 (fun l => l) heap_blob1 0 two_byte_sink true [] d s E).
  - vm_compute in E. discriminate.
Defined.

(* ------------------------------------------------------------------ *)
(** ** A second run on the same tree *)

(** C1: [compute_tree] leaves every visited node marked [in_tree] and
    linked through [next]; nothing clears them.  A tree that one run of
    [lcfs_write_to] serializes (209 bytes) makes a second run on the same
    nodes fail the [assert (!child->in_tree)] of [compute_tree]. *)
Theorem write_to_twice_aborts (magic version : Z) (dg : list byte -> list byte) :
  match lcfs_write_to magic version dg heap_dir_file 0 (Some full_sink) false [] with
  | Ok _ s =>
      length (file s) = 209 /\
      lcfs_write_to magic version dg (heap s) 0 (Some full_sink) false [] = Err EABORT
  | Err _ => False
  end.
Proof. vm_compute. split; reflexivity. Qed.

(* ------------------------------------------------------------------ *)
(** ** Inode numbering *)

(** C6: on a valid tree of at most 2^32 nodes, [compute_tree] links the
    nodes it visits through [next] in an order [ord] that starts at the
    root, repeats no node and is a breadth-first order (the root, then the
    children queued by each visited node in turn); the node at position [i]
    gets inode index [i], so the indices are exactly [0 .. length ord - 1];
    and a node comes before each of its descendants. *)
Theorem compute_tree_bfs_numbering (h : list node) (r : nat) (want : bool) (allocs : list bool)
  (u : unit) (s : state) :
  valid_tree h r -> (Z.of_nat (length h) <= 2 ^ 32)%Z ->
  compute_tree r (lcfs_new_ctx h r want allocs) = Ok u s ->
  exists ord,
    chain (heap s) (Some r) ord /\ NoDup ord /\ ord !! 0 = Some r /\
    ord = r :: concat (map (enq_at (heap s)) ord) /\
    (forall i p, ord !! i = Some p ->
       exists n, heap s !! p = Some n /\ Node.inode_num n = Z.of_nat i) /\
    (forall p d j, desc h p d -> ord !! j = Some d -> exists i, ord !! i = Some p /\ i < j).
Proof.
  intros Hv Hlen H. destruct (compute_tree_inv h r (lcfs_new_ctx h r want allocs) u s Hv eq_refl H) as [L Hi].
  pose proof (tree_inv_length _ _ _ _ Hi) as HL.
  pose proof (Forall2_length _ _ _ (ti_static _ _ _ _ _ Hi)) as Hhs.
  pose proof (ti_bfs _ _ _ _ _ Hi) as Hb. rewrite app_nil_r in Hb.
  exists L. split; [|split; [|split; [|split; [|split]]]].
  - pose proof (ti_chain _ _ _ _ _ Hi) as Hc. by rewrite app_nil_r in Hc.
  - pose proof (ti_nodup _ _ _ _ _ Hi) as Hnd. by rewrite app_nil_r in Hnd.
  - by rewrite Hb.
  - exact Hb.
  - intros i p Hip. destruct (ti_visited _ _ _ _ _ Hi i p Hip) as (n0 & n & _ & Hn & Hnum & _).
    exists n. split; [done|]. rewrite Hnum. apply Z.mod_small.
    apply lookup_lt_Some in Hip. lia.
  - intros p d j Hd Hj. eapply desc_before; eauto.
Qed.

Lemma compute_tree_bfs_numbering_witness :
  exists u s, compute_tree 0 (lcfs_new_ctx heap_dir_file 0 false []) = Ok u s /\
  exists ord,
    chain (heap s) (Some 0) ord /\ NoDup ord /\ ord !! 0 = Some 0 /\
    ord = 0 :: concat (map (enq_at (heap s)) ord) /\
    (forall i p, ord !! i = Some p ->
       exists n, heap s !! p = Some n /\ Node.inode_num n = Z.of_nat i) /\
    (forall p d j, desc heap_dir_file p d -> ord !! j = Some d ->
       exists i, ord !! i = Some p /\ i < j).
Proof.
  assert (Hv : valid_tree heap_dir_file 0).
  { split.
    - eexists. reflexivity.
    - vm_compute. repeat constructor.
    - apply (bool_decide_unpack _). vm_compute. reflexivity.
    - apply (bool_decide_unpack _). vm_compute. reflexivity. }
  assert (Hlen : (Z.of_nat (length heap_dir_file) <= 2 ^ 32)%Z) by (vm_compute; discriminate).
  destruct (compute_tree 0 (lcfs_new_ctx heap_dir_file 0 false [])) as [u s|e] eqn:E.
  - exists u, s. split; [reflexivity|].
    exact (compute_tree_bfs_numbering heap_dir_file 0 false [] u s Hv Hlen E).
  - vm_compute in E. discriminate.
Defined.

(* ------------------------------------------------------------------ *)
(** ** Directory link counts in the image *)

(** C4: on a valid tree, the image holds one inode record per node of the
    breadth-first list [ord] (the [i]-th at byte [16 + 88 i]); for a
    directory of the tree, the [st_nlink] of its record, bytes 4 to 8 of
    it, is 2 plus the number of its direct children whose own mode is a
    directory ([count_dirs] reads each child's mode, not that of the end of
    its link chain). *)
Theorem write_to_dir_nlink (magic version : Z) (dg : list byte -> list byte)
  (h : list node) (r : nat) (f : lcfs_write_cb) (want : bool) (allocs : list bool)
  (d : option (list byte)) (s : state) :
  valid_tree h r -> (Z.of_nat (length h) + 2 < 2 ^ 32)%Z ->
  lcfs_write_to magic version dg h r (Some f) want allocs = Ok d s ->
  exists ord,
    chain (heap s) (Some r) ord /\ NoDup ord /\
    (forall i p, ord !! i = Some p ->
       take 88 (drop (16 + 88 * i) (file s)) = inode_bytes (inode_at (heap s) p)) /\
    (forall i p n0, ord !! i = Some p -> h !! p = Some n0 -> ifmt n0 = S_IFDIR ->
       st_nlink (inode_at (heap s) p) = Z.of_nat (2 + count_dirs h (Node.children n0)) /\
       take 4 (drop (16 + 88 * i + 4) (file s))
         = le32 (Z.of_nat (2 + count_dirs h (Node.children n0)))).
Proof.
  intros Hv Hb H.
  destruct (write_to_layout magic version dg h r f want allocs d s Hv H) as (L & s1 & Hti & Sk & _ & Hf).
  pose proof (ti_chain _ _ _ _ _ Hti) as Hc1. pose proof (ti_nodup _ _ _ _ _ Hti) as Hnd.
  rewrite app_nil_r in Hc1, Hnd.
  assert (Hrec : forall i p, L !! i = Some p ->
            take 88 (drop (16 + 88 * i) (file s)) = inode_bytes (inode_at (heap s) p)).
  { intros i p Hi. rewrite Hf. by apply image_record. }
  exists L. split; [exact (skel_eq_chain _ _ _ _ Sk Hc1)|]. split; [done|].
  split; [exact Hrec|].
  intros i p n0 Hi Hp Hd.
  destruct (ti_visited _ _ _ _ _ Hti i p Hi) as (m0 & m & Hm0 & Hm & _ & _ & Hnl & _).
  rewrite Hp in Hm0. injection Hm0 as <-. specialize (Hnl Hd).
  destruct (skel_eq_lookup _ _ _ _ Sk Hm) as (m' & Hm' & Hs).
  apply skel_fields in Hs as (_ & _ & _ & _ & _ & _ & Hnl').
  pose proof (count_dirs_le h r p n0 Hv Hp) as Hle.
  assert (Hn : st_nlink (inode_at (heap s) p) = Z.of_nat (2 + count_dirs h (Node.children n0))).
  { unfold inode_at. rewrite Hm', Hnl', Hnl. rewrite Z.mod_small; lia. }
  split; [exact Hn|].
  rewrite <- Hn, <- inode_bytes_nlink, <- (Hrec i p Hi).
  rewrite <- drop_drop, !take_drop_commute, take_take, Nat.min_l by lia. reflexivity.
Qed.

Lemma heap_hardlink_valid : valid_tree heap_hardlink 0.
Proof.
  split.
  - eexists. reflexivity.
  - vm_compute. repeat constructor.
  - apply (bool_decide_unpack _). vm_compute. reflexivity.
  - apply (bool_decide_unpack _). vm_compute. reflexivity.
Qed.

Lemma write_to_dir_nlink_witness :
  exists d s,
    lcfs_write_to 1 2 (fun l => l) heap_hardlink 0 (Some full_sink) false [] = Ok d s /\
    exists ord,
      chain (heap s) (Some 0) ord /\ NoDup ord /\
      (forall i p, ord !! i = Some p ->
         take 88 (drop (16 + 88 * i) (file s)) = inode_bytes (inode_at (heap s) p)) /\
      (forall i p n0, ord !! i = Some p -> heap_hardlink !! p = Some n0 -> ifmt n0 = S_IFDIR ->
         st_nlink (inode_at (heap s) p) = Z.of_nat (2 + count_dirs heap_hardlink (Node.children n0)) /\
         take 4 (drop (16 + 88 * i + 4) (file s))
           = le32 (Z.of_nat (2 + count_dirs heap_hardlink (Node.children n0)))).
Proof.
  assert (Hlen : (Z.of_nat (length heap_hardlink) + 2 < 2 ^ 32)%Z) by (vm_compute; reflexivity).
  destruct (lcfs_write_to 1 2 (fun l => l) heap_hardlink 0 (Some full_sink) false []) as [d s|e] eqn:E.
  - exists d, s. split; [reflexivity|].
    exact (write_to_dir_nlink 1 2 (fun l => l) heap_hardlink 0 full_sink false [] d s
             heap_hardlink_valid Hlen E).
  - vm_compute in E. discriminate.
Defined.

(* ------------------------------------------------------------------ *)
(** ** Hardlinks in the image *)

(** C2: on a valid tree whose directory blocks all have fewer than 2^32
    bytes (so that the 32-bit length of a block's reference is exact),
    whatever the outcomes of the allocations, a successful run's image is
    the superblock, one inode record per
    node of the breadth-first list [ord] (each node's own inode, the
    [i]-th at byte [16 + 88 i]) and the arena, and nothing else.  For a
    child [c] with [link_to] set of a node [p] of [ord]: [c] has its own
    place in [ord] when [p] is no hardlink, and the directory block of [p],
    read from the image, has at the position of [c] a dirent whose
    [inode_num] and [d_type] are those of the end [t] of [c]'s link chain;
    [t] is a node with no [link_to], and its [inode_num] is its position in
    [ord]. *)
Theorem write_to_hardlink_dirent (magic version : Z) (dg : list byte -> list byte)
  (h : list node) (r : nat) (f : lcfs_write_cb) (want : bool) (allocs : list bool)
  (d : option (list byte)) (s : state) :
  valid_tree h r -> (Z.of_nat (length h) <= 2 ^ 32)%Z -> Forall dir_fits h ->
  lcfs_write_to magic version dg h r (Some f) want allocs = Ok d s ->
  exists ord,
    chain (heap s) (Some r) ord /\ NoDup ord /\
    length (file s) = 16 + 88 * length ord + length (vdata s) /\
    (forall i p, ord !! i = Some p ->
       take 88 (drop (16 + 88 * i) (file s)) = inode_bytes (inode_at (heap s) p)) /\
    (forall p n k c cn, p ∈ ord -> heap s !! p = Some n -> Node.children n !! k = Some c ->
       heap s !! c = Some cn -> Node.link_to cn <> None ->
       (Node.link_to n = None -> c ∈ ord) /\
       exists t tn ds names dd,
         follow_links (heap s) c = inr t /\ heap s !! t = Some tn /\ Node.link_to tn = None /\
         take (Z.to_nat (len (variable_data (Node.inode n))))
           (drop (16 + 88 * length ord + Z.to_nat (off (variable_data (Node.inode n)))) (file s))
           = dir_block ds names /\
         ds !! k = Some dd /\
         Dirent.inode_num dd = Node.inode_num tn /\ Dirent.d_type dd = node_get_dtype tn /\
         (forall j, ord !! j = Some t -> Node.inode_num tn = Z.of_nat j)).
Proof.
  intros Hv Hb Hfit H.
  destruct (write_to_layout magic version dg h r f want allocs d s Hv H) as (L & s1 & Hti & Sk & Hdir & Hf).
  pose proof (ti_chain _ _ _ _ _ Hti) as Hc1. pose proof (ti_nodup _ _ _ _ _ Hti) as Hnd.
  pose proof (ti_bfs _ _ _ _ _ Hti) as Hbfs.
  rewrite app_nil_r in Hc1, Hnd, Hbfs.
  assert (Sk' : skel_eq (heap s) (heap s1)) by (unfold skel_eq in *; by symmetry).
  assert (HlenL : length L <= length h).
  { rewrite (Forall2_length _ _ _ (ti_static _ _ _ _ _ Hti)). by eapply tree_inv_length. }
  exists L. split; [exact (skel_eq_chain _ _ _ _ Sk Hc1)|]. split; [done|].
  split.
  { rewrite Hf, !length_app, superblock_bytes_length, inode_table_length. lia. }
  split.
  { intros i p Hi. rewrite Hf. by apply image_record. }
  intros p n k c cn Hp Hn Hk Hc Hl.
  apply list_elem_of_lookup_1 in Hp as Hp'. destruct Hp' as [i Hi].
  destruct (ti_visited _ _ _ _ _ Hti i p Hi) as (n0 & n1 & Hn0 & Hn1 & _ & _ & _ & Hdir0).
  destruct (skel_eq_lookup _ _ _ _ Sk' Hn) as (n1' & Hn1' & Hs).
  rewrite Hn1 in Hn1'. injection Hn1' as <-.
  apply skel_fields in Hs as (Hl1 & _ & Hch1 & _ & _ & Hm1 & _).
  destruct (static_lookup _ _ _ _ (ti_static _ _ _ _ _ Hti) Hn1) as (n0' & Hn0' & Hst).
  rewrite Hn0 in Hn0'. injection Hn0' as <-.
  destruct Hst as (_ & _ & _ & Hm0 & _ & Hperm).
  assert (Hne : Node.children n <> []) by (intros E; rewrite E in Hk; discriminate).
  assert (HD : ifmt n = S_IFDIR).
  { assert (Hne0 : Node.children n0 <> []).
    { intros E. apply Hne. rewrite <- Hch1. apply Permutation_nil. by rewrite <- E, Hperm. }
    specialize (Hdir0 Hne0). unfold ifmt in *. by rewrite <- Hm1, Hm0. }
  split.
  { intros Hln. rewrite Hbfs. right. apply elem_of_concat_map. exists p. split; [done|].
    unfold enq_at, enq_node, is_link. rewrite Hn1, Hl1, Hln, Hch1.
    by eapply list_elem_of_lookup_2. }
  assert (Hfn : dir_fits n).
  { pose proof (proj1 (Forall_lookup _ _) Hfit p n0 Hn0) as F. unfold dir_fits in *.
    by rewrite <- Hch1, (Permutation_length Hperm). }
  destruct (Hdir p Hp n Hn HD Hne Hfn) as (ds & names & Hbd & Hvd & _).
  destruct (build_dirents_lookup _ _ _ _ _ _ _ Hbd Hk) as (t & tn & dd & Ht & Htn & Hdd & Hnum & Hty).
  destruct (follow_links_terminal _ _ _ Ht) as (tn' & Htn' & Hlt).
  rewrite Htn in Htn'. injection Htn' as <-.
  exists t, tn, ds, names, dd.
  split; [done|]. split; [done|]. split; [done|].
  split; [rewrite Hf, image_vdata; exact Hvd|].
  split; [done|]. split; [done|]. split; [done|].
  intros j Hj.
  destruct (ti_visited _ _ _ _ _ Hti j t Hj) as (t0 & t1 & _ & Ht1 & Hnum1 & _).
  destruct (skel_eq_lookup _ _ _ _ Sk Ht1) as (t1' & Ht1' & Hs).
  rewrite Htn in Ht1'. injection Ht1' as <-.
  apply skel_fields in Hs as (_ & _ & _ & _ & Hnum' & _).
  rewrite Hnum', Hnum1. apply lookup_lt_Some in Hj. rewrite Z.mod_small; lia.
Qed.

Lemma write_to_hardlink_dirent_witness :
  exists d s,
    lcfs_write_to 1 2 (fun l => l) heap_hardlink 0 (Some full_sink) false [] = Ok d s /\
    exists ord,
      chain (heap s) (Some 0) ord /\ NoDup ord /\
      length (file s) = 16 + 88 * length ord + length (vdata s) /\
      (forall i p, ord !! i = Some p ->
         take 88 (drop (16 + 88 * i) (file s)) = inode_bytes (inode_at (heap s) p)) /\
      (forall p n k c cn, p ∈ ord -> heap s !! p = Some n -> Node.children n !! k = Some c ->
         heap s !! c = Some cn -> Node.link_to cn <> None ->
         (Node.link_to n = None -> c ∈ ord) /\
         exists t tn ds names dd,
           follow_links (heap s) c = inr t /\ heap s !! t = Some tn /\ Node.link_to tn = None /\
           take (Z.to_nat (len (variable_data (Node.inode n))))
             (drop (16 + 88 * length ord + Z.to_nat (off (variable_data (Node.inode n)))) (file s))
             = dir_block ds names /\
           ds !! k = Some dd /\
           Dirent.inode_num dd = Node.inode_num tn /\ Dirent.d_type dd = node_get_dtype tn /\
           (forall j, ord !! j = Some t -> Node.inode_num tn = Z.of_nat j)).
Proof.
  assert (Hlen : (Z.of_nat (length heap_hardlink) <= 2 ^ 32)%Z) by (vm_compute; discriminate).
  assert (Hfit : Forall dir_fits heap_hardlink)
    by (repeat constructor; unfold dir_fits; vm_compute; reflexivity).
  destruct (lcfs_write_to 1 2 (fun l => l) heap_hardlink 0 (Some full_sink) false []) as [d s|e] eqn:E.
  - exists d, s. split; [reflexivity|].
    exact (write_to_hardlink_dirent 1 2 (fun l => l) heap_hardlink 0 full_sink false [] d s
             heap_hardlink_valid Hlen Hfit E).
  - vm_compute in E. discriminate.
Defined.

(* ------------------------------------------------------------------ *)
(** ** Further properties of the xattr functions *)


(** [lcfs_node_set_xattr] either fails (-1, ENOMEM: an allocation of a
    copy failed) and leaves the node unchanged, or returns 0 and
    afterwards [lcfs_node_get_xattr] gives the new value for the key set
    and the old value for every other key; when every allocation
    succeeds it returns 0. *)
Theorem set_xattr_get a n k v :
  ((fst (lcfs_node_set_xattr a n k v) = (-1)%Z /\ snd (lcfs_node_set_xattr a n k v) = n) \/
   (fst (lcfs_node_set_xattr a n k v) = 0%Z /\
    ∀ k', lcfs_node_get_xattr (snd (lcfs_node_set_xattr a n k v)) k' =
          if String.eqb k' k then Some v else lcfs_node_get_xattr n k')) /\
  fst (lcfs_node_set_xattr [] n k v) = 0%Z.
Proof.
  pose proof (fun k' => set_xattr_from_lookup (Node.xattrs n) k v k' 0 ltac:(lia)) as H.
  unfold lcfs_node_set_xattr, find_xattr.
  destruct (0 <=? find_xattr_from (Node.xattrs n) k 0)%Z eqn:E.
  - split; [|reflexivity].
    destruct (alloc_next a) as [[|] a1]; [right|left]; cbn [fst snd]; [split; [done|]|done].
    intros k'. rewrite !get_xattr_lookup. rewrite <- H. by rewrite Z.sub_0_r.
  - split; [|reflexivity].
    destruct (alloc_next a) as [[|] a1]; cbn [fst snd negb]; [|by left].
    destruct (alloc_next a1) as [[|] a2]; destruct (alloc_next a2) as [[|] a3];
      cbn [fst snd andb]; [|by left..].
    right. split; [done|]. intros k'. rewrite !get_xattr_lookup. apply H.
Qed.

(** [lcfs_node_set_xattr] keeps the keys of a node distinct: it replaces
    the value of a key already present and appends only a new key. *)
Theorem set_xattr_nodup a n k v :
  NoDup (map key (Node.xattrs n)) ->
  NoDup (map key (Node.xattrs (snd (lcfs_node_set_xattr a n k v)))).
Proof.
  intros Hnd. unfold lcfs_node_set_xattr, find_xattr.
  destruct (0 <=? find_xattr_from (Node.xattrs n) k 0)%Z eqn:E.
  - destruct (alloc_next a) as [[|] a1]; simpl; [|done]. by rewrite map_key_alter.
  - destruct (alloc_next a) as [[|] a1]; [|done].
    destruct (alloc_next a1) as [[|] a2]; destruct (alloc_next a2) as [[|] a3]; simpl; try done.
    apply Z.leb_gt in E.
    destruct (find_xattr_from_range (Node.xattrs n) k 0) as [Hf|Hf]; [|lia].
    pose proof (find_xattr_from_none _ _ 0 ltac:(lia) Hf) as Hn.
    rewrite List.map_app. simpl. apply NoDup_app. split; [done|]. split.
    + intros y Hy ->%list_elem_of_singleton. done.
    + apply NoDup_singleton.
Qed.

(** On a node whose keys are distinct, [lcfs_node_unset_xattr] removes the
    key: afterwards [lcfs_node_get_xattr] finds nothing for it and the old
    value for every other key, and the keys stay distinct. *)
Theorem unset_xattr_get n k :
  NoDup (map key (Node.xattrs n)) ->
  NoDup (map key (Node.xattrs (snd (lcfs_node_unset_xattr n k)))) /\
  ∀ k', lcfs_node_get_xattr (snd (lcfs_node_unset_xattr n k)) k' =
        if String.eqb k' k then None else lcfs_node_get_xattr n k'.
Proof.
  intros Hnd.
  destruct (0 <=? find_xattr n k)%Z eqn:E.
  2:{ assert (Hu : snd (lcfs_node_unset_xattr n k) = n)
        by (unfold lcfs_node_unset_xattr; by rewrite E).
      rewrite Hu. split; [done|]. intros k'.
      apply Z.leb_gt in E. unfold find_xattr in E.
      destruct (find_xattr_from_range (Node.xattrs n) k 0) as [Hf|Hf]; [|lia].
      pose proof (find_xattr_from_none _ _ 0 ltac:(lia) Hf) as Hn.
      destruct (String.eqb k' k) eqn:Ek; [|done].
      apply String.eqb_eq in Ek. subst k'. rewrite get_xattr_lookup.
      by apply xattr_lookup_notin. }
  apply Z.leb_le in E. unfold find_xattr in E.
  destruct (find_xattr_from_some (Node.xattrs n) k 0 ltac:(lia) E) as (x & Hx & Hk).
  rewrite Z.sub_0_r in Hx.
  pose proof (take_drop_middle _ _ _ Hx) as Hsplit.
  set (A := take (Z.to_nat (find_xattr_from (Node.xattrs n) k 0)) (Node.xattrs n)) in Hsplit.
  set (B := drop (S (Z.to_nat (find_xattr_from (Node.xattrs n) k 0))) (Node.xattrs n)) in Hsplit.
  clearbody A B. symmetry in Hsplit.
  rewrite Hsplit in Hnd.
  destruct (nodup_keys_split _ _ _ Hnd) as (HxA & HxB & HA & HB & Hd).
  rewrite Hk in HxA, HxB.
  setoid_rewrite get_xattr_lookup. rewrite Hsplit.
  destruct B as [|l B _] using rev_ind.
  - rewrite (unset_xattr_shape_last n k x A Hsplit Hk HxA).
    split; [done|]. intros k'. rewrite xattr_lookup_app. simpl.
    destruct (String.eqb k' k) eqn:Ek.
    + apply String.eqb_eq in Ek. subst k'. by rewrite xattr_lookup_notin.
    + rewrite Hk, Ek. by destruct (xattr_lookup A k').
  - rewrite (unset_xattr_shape_mid n k x A B l Hsplit Hk HxA).
    rewrite List.map_app in HxB, HB. simpl in HxB, HB.
    apply NoDup_app in HB as (HB & HlB & _).
    assert (HlB' : key l ∉ map key B)
      by (intros Hin; exact (HlB _ Hin ltac:(apply list_elem_of_singleton; done))).
    assert (HxB' : k ∉ map key B)
      by (intros Hin; apply HxB, elem_of_app; by left).
    assert (Hxl : k ≠ key l)
      by (intros ->; apply HxB, elem_of_app; right; by apply list_elem_of_singleton).
    split.
    + rewrite List.map_app. simpl. apply NoDup_app. split; [done|]. split.
      * intros y Hy Hy'. apply elem_of_cons in Hy' as [->|Hy'].
        -- apply (Hd _ Hy). rewrite List.map_app. apply elem_of_app. right.
           by apply list_elem_of_singleton.
        -- apply (Hd _ Hy). rewrite List.map_app. apply elem_of_app. by left.
      * by apply NoDup_cons.
    + intros k'. rewrite !xattr_lookup_app. simpl. rewrite xattr_lookup_app. simpl.
      destruct (String.eqb k' k) eqn:Ek.
      * apply String.eqb_eq in Ek. subst k'.
        rewrite (xattr_lookup_notin A), (xattr_lookup_notin B) by done.
        destruct (String.eqb k (key l)) eqn:El; [apply String.eqb_eq in El; done|done].
      * rewrite Hk, Ek. destruct (xattr_lookup A k'); [done|].
        destruct (String.eqb k' (key l)) eqn:El.
        -- apply String.eqb_eq in El. subst k'. by rewrite xattr_lookup_notin.
        -- by destruct (xattr_lookup B k').
Qed.

Lemma set_xattr_nodup_witness :
  NoDup (map key (Node.xattrs xattr_node)) /\
  NoDup (map key (Node.xattrs (snd (lcfs_node_set_xattr [] xattr_node "user.c"%string [Byte.x33])))).
Proof.
  assert (H : NoDup (map key (Node.xattrs xattr_node)))
    by (apply (bool_decide_unpack _); vm_compute; reflexivity).
  split; [exact H | exact (set_xattr_nodup [] xattr_node "user.c"%string [Byte.x33] H)].
Defined.

Lemma unset_xattr_get_witness :
  NoDup (map key (Node.xattrs xattr_node3)) /\
  Node.xattrs (snd (lcfs_node_unset_xattr xattr_node3 "user.a"%string))
    = [mk_xattr "user.c"%string [Byte.x33]; mk_xattr "user.b"%string [Byte.x32]] /\
  lcfs_node_get_xattr (snd (lcfs_node_unset_xattr xattr_node3 "user.a"%string)) "user.a"%string = None.
Proof.
  assert (H : NoDup (map key (Node.xattrs xattr_node3)))
    by (apply (bool_decide_unpack _); vm_compute; reflexivity).
  split; [exact H|]. split; [vm_compute; reflexivity|].
  exact (proj2 (unset_xattr_get xattr_node3 "user.a"%string H) "user.a"%string).
Defined.

(* ------------------------------------------------------------------ *)
(** ** Further properties of adding and removing children *)

(** After a successful [lcfs_node_add_child], the parent's children are
    the old ones followed by the child, [lcfs_node_lookup_child] finds the
    child under its name, and the child records its parent and name. *)
Theorem add_child_lookup h p c nm :
  fst (lcfs_node_add_child h p c nm) = 0%Z ->
  ∃ pn pn' cn', h !! p = Some pn /\
    snd (lcfs_node_add_child h p c nm) !! p = Some pn' /\
    Node.children pn' = Node.children pn ++ [c] /\
    lcfs_node_lookup_child (snd (lcfs_node_add_child h p c nm)) pn' nm = Some c /\
    snd (lcfs_node_add_child h p c nm) !! c = Some cn' /\
    Node.parent cn' = Some p /\ Node.name cn' = Some nm.
Proof.
  intros H0.
  destruct (add_child_heap h p c nm H0)
    as (pn & cn & Hp & Hc & Hd & Hn & Hl & Hx & (cn' & Hc' & Hpar & Hnm) & (pn' & Hp' & Hch & _)).
  exists pn, pn', cn'. do 3 (split; [done|]). split; [|done].
  unfold lcfs_node_lookup_child. rewrite Hch.
  apply lookup_child_after_add with h; [done| by rewrite Hc'; simpl; rewrite Hnm | exact Hl].
Qed.

(** A node goes into the tree only once: after a successful
    [lcfs_node_add_child], adding the same child again (anywhere, under
    any name) or another child under the same name to the same parent
    fails and leaves the heap as it is. *)
Theorem add_child_once h p c nm p2 c2 nm2 :
  fst (lcfs_node_add_child h p c nm) = 0%Z ->
  c2 = c \/ (p2 = p /\ nm2 = nm) ->
  lcfs_node_add_child (snd (lcfs_node_add_child h p c nm)) p2 c2 nm2
    = ((-1)%Z, snd (lcfs_node_add_child h p c nm)).
Proof.
  intros H0 Hcase.
  destruct (add_child_heap h p c nm H0)
    as (pn & cn & Hp & Hc & Hd & Hn & Hl & Hx & (cn' & Hc' & Hpar & Hnm) & (pn' & Hp' & Hch & _)).
  set (h' := snd (lcfs_node_add_child h p c nm)) in *.
  unfold lcfs_node_add_child at 1.
  destruct (h' !! p2) as [pn2|] eqn:Hp2; [|done].
  destruct (h' !! c2) as [cn2|] eqn:Hc2; [|done].
  destruct (negb (ifmt pn2 =? S_IFDIR)%Z); [done|].
  destruct (decide (LCFS_MAX_NAME_LENGTH < strlen nm2)); [done|].
  destruct Hcase as [->|[-> ->]].
  - rewrite Hc' in Hc2. injection Hc2 as <-.
    rewrite bool_decide_true by (by rewrite Hnm). done.
  - rewrite Hp' in Hp2. injection Hp2 as <-.
    destruct (bool_decide (Node.name cn2 ≠ None)); [done|].
    rewrite bool_decide_true; [done|].
    unfold lcfs_node_lookup_child. rewrite Hch.
    rewrite (lookup_child_after_add h h' _ c nm Hx ltac:(by rewrite Hc'; simpl; rewrite Hnm) Hl). done.
Qed.

(** [lcfs_node_remove_child] fails with -1, leaving the heap as it is and
    freeing nothing, when the parent is not a directory or has no child of
    that name (as [lcfs_node_lookup_child] sees it). *)
Theorem remove_child_fails fuel h p nm pn :
  h !! p = Some pn ->
  ifmt pn ≠ S_IFDIR \/ lcfs_node_lookup_child h pn nm = None ->
  lcfs_node_remove_child fuel h p nm = inr ((-1)%Z, (h, [])).
Proof.
  intros Hp Hcase. unfold lcfs_node_remove_child. rewrite Hp.
  destruct (negb (ifmt pn =? S_IFDIR)%Z) eqn:E; [done|].
  apply negb_false_iff, Z.eqb_eq in E.
  destruct Hcase as [?|Hl]; [done|].
  by rewrite (find_child_index_none h pn nm 0 Hl).
Qed.

(** Removing a child just added undoes the addition: the parent is as it
    was, the child is detached with one reference less, and it is freed
    exactly when that was the last reference (for a child with no children
    and no hardlink target when it is freed). *)
Theorem add_remove_child fuel h p c nm pn cn :
  h !! p = Some pn -> h !! c = Some cn -> p ≠ c -> c ∉ Node.children pn ->
  fst (lcfs_node_add_child h p c nm) = 0%Z ->
  (1 < Node.ref_count cn)%Z \/ (Node.children cn = [] /\ Node.link_to cn = None) ->
  lcfs_node_remove_child (S fuel) (snd (lcfs_node_add_child h p c nm)) p nm =
  inr (0%Z, (<[c := set_ref_count (set_parent_name cn None None) (Node.ref_count cn - 1)]> h,
             if (0 <? Node.ref_count cn - 1)%Z then [] else [c])).
Proof.
  intros Hp Hc Hpc Hnot H0 Hcase.
  destruct (add_child_heap h p c nm H0) as (pn0 & cn0 & Hp0 & Hc0 & _ & _ & _ & Hx & _).
  rewrite Hp in Hp0. injection Hp0 as <-. rewrite Hc in Hc0. injection Hc0 as <-.
  destruct (add_child_Ok h p c nm pn cn Hp Hc H0) as (Hd & _ & Hn & Hl & Hh).
  set (cs := Node.children pn) in *.
  set (h' := snd (lcfs_node_add_child h p c nm)) in *.
  assert (Hlp : p < length h) by (by apply lookup_lt_Some in Hp).
  assert (Hlc : c < length h) by (by apply lookup_lt_Some in Hc).
  assert (Eh' : h' = <[c := set_parent_name cn (Some p) (Some nm)]>
                     (<[p := set_children pn (cs ++ [c])]> h)).
  { rewrite Hh, (heap_update_Some h p pn) by done.
    rewrite (heap_update_Some _ c cn); [done|]. by rewrite list_lookup_insert_ne. }
  assert (Hp' : h' !! p = Some (set_children pn (cs ++ [c]))).
  { rewrite Eh', list_lookup_insert_ne by done. by apply list_lookup_insert_eq. }
  assert (Hc' : h' !! c = Some (set_parent_name cn (Some p) (Some nm))).
  { rewrite Eh'. apply list_lookup_insert_eq. by rewrite length_insert. }
  assert (Hfind : find_child_index h' (cs ++ [c]) nm 0 = Some (length cs)).
  { rewrite find_child_index_app.
    rewrite (find_child_index_names h h' cs nm 0).
    - pose proof (find_child_index_none h pn nm 0 Hl) as Hn0. fold cs in Hn0.
      rewrite Hn0. simpl. rewrite Hc'. simpl.
      by rewrite String.eqb_refl.
    - intros x Hxin. apply Hx. intros ->. by apply Hnot. }
  unfold lcfs_node_remove_child. rewrite Hp', ifmt_set_children, Hd, Z.eqb_refl. simpl negb.
  cbn iota beta. replace (Node.children (set_children pn (cs ++ [c]))) with (cs ++ [c]) by (by destruct pn).
  rewrite Hfind.
  rewrite list_lookup_middle by done.
  rewrite take_app_length, drop_ge by (rewrite length_app; simpl; lia). rewrite app_nil_r.
  rewrite set_children_twice, set_children_id.
  rewrite (heap_update_Some _ c (set_parent_name cn (Some p) (Some nm)))
    by (rewrite list_lookup_insert_ne by done; exact Hc').
  rewrite unref_simple with (n := set_parent_name (set_parent_name cn (Some p) (Some nm)) None None).
  - f_equal. f_equal. f_equal.
    rewrite Eh', list_insert_insert_eq.
    rewrite (list_insert_insert_ne _ p c) by done. rewrite list_insert_insert_eq.
    rewrite list_insert_insert_eq, (list_insert_id h p pn Hp). by destruct cn.
  - apply list_lookup_insert_eq. by rewrite Eh', !length_insert.
  - destruct Hcase as [?|(Hch & Hlk)]; [left; by destruct cn|right].
    destruct cn; simpl in *; by subst.
Qed.

Lemma add_child_lookup_witness :
  fst (lcfs_node_add_child heap_dir_loose 0 1 "a"%string) = 0%Z /\
  ∃ pn pn' cn', heap_dir_loose !! 0 = Some pn /\
    snd (lcfs_node_add_child heap_dir_loose 0 1 "a"%string) !! 0 = Some pn' /\
    Node.children pn' = Node.children pn ++ [1] /\
    lcfs_node_lookup_child (snd (lcfs_node_add_child heap_dir_loose 0 1 "a"%string)) pn' "a"%string
      = Some 1 /\
    snd (lcfs_node_add_child heap_dir_loose 0 1 "a"%string) !! 1 = Some cn' /\
    Node.parent cn' = Some 0 /\ Node.name cn' = Some "a"%string.
Proof.
  assert (H : fst (lcfs_node_add_child heap_dir_loose 0 1 "a"%string) = 0%Z)
    by (vm_compute; reflexivity).
  split; [exact H | exact (add_child_lookup heap_dir_loose 0 1 "a"%string H)].
Defined.

Lemma add_child_once_witness :
  fst (lcfs_node_add_child heap_dir_loose 0 1 "a"%string) = 0%Z /\
  lcfs_node_add_child (snd (lcfs_node_add_child heap_dir_loose 0 1 "a"%string)) 0 1 "b"%string
    = ((-1)%Z, snd (lcfs_node_add_child heap_dir_loose 0 1 "a"%string)).
Proof.
  assert (H : fst (lcfs_node_add_child heap_dir_loose 0 1 "a"%string) = 0%Z)
    by (vm_compute; reflexivity).
  split; [exact H|].
  exact (add_child_once heap_dir_loose 0 1 "a"%string 0 1 "b"%string H (or_introl eq_refl)).
Defined.

Lemma remove_child_fails_witness :
  heap_dir_file !! 0 = Some (node_at heap_dir_file 0) /\
  lcfs_node_lookup_child heap_dir_file (node_at heap_dir_file 0) "b"%string = None /\
  lcfs_node_remove_child 3 heap_dir_file 0 "b"%string = inr ((-1)%Z, (heap_dir_file, [])).
Proof.
  assert (H1 : heap_dir_file !! 0 = Some (node_at heap_dir_file 0)) by (vm_compute; reflexivity).
  assert (H2 : lcfs_node_lookup_child heap_dir_file (node_at heap_dir_file 0) "b"%string = None)
    by (vm_compute; reflexivity).
  split; [exact H1|]. split; [exact H2|].
  exact (remove_child_fails 3 heap_dir_file 0 "b"%string _ H1 (or_intror H2)).
Defined.

Lemma add_remove_child_witness :
  lcfs_node_remove_child 1 (snd (lcfs_node_add_child heap_dir_loose 0 1 "a"%string)) 0 "a"%string =
  inr (0%Z, (<[1 := set_ref_count (set_parent_name (node_at heap_dir_loose 1) None None) 1%Z]>
               heap_dir_loose, [])).
Proof.
  assert (H1 : heap_dir_loose !! 0 = Some (node_at heap_dir_loose 0)) by (vm_compute; reflexivity).
  assert (H2 : heap_dir_loose !! 1 = Some (node_at heap_dir_loose 1)) by (vm_compute; reflexivity).
  assert (H3 : 1 ∉ Node.children (node_at heap_dir_loose 0))
    by (apply (bool_decide_unpack _); vm_compute; reflexivity).
  assert (H4 : fst (lcfs_node_add_child heap_dir_loose 0 1 "a"%string) = 0%Z)
    by (vm_compute; reflexivity).
  assert (H5 : (1 < Node.ref_count (node_at heap_dir_loose 1))%Z) by (vm_compute; reflexivity).
  exact (add_remove_child 0 heap_dir_loose 0 1 "a"%string _ _ H1 H2 ltac:(lia) H3 H4 (or_introl H5)).
Defined.

(* ------------------------------------------------------------------ *)
(** ** Further properties of hardlinks *)

(** [lcfs_node_make_hardlink node target], for a [node] other than the end
    [t] of [target]'s chain: [node] links straight to [t], following links
    from [node] now ends at [t], [t] gains a reference and a link count
    (modulo 2^32), and no other node changes. *)
Theorem make_hardlink_spec h a o t an :
  h !! a = Some an -> follow_links h o = inr t -> a ≠ t ->
  ∃ tn an' tn',
    h !! t = Some tn /\
    lcfs_node_make_hardlink h a o !! a = Some an' /\ an' = set_link_to an (Some t) /\
    lcfs_node_make_hardlink h a o !! t = Some tn' /\
    Node.ref_count tn' = (Node.ref_count tn + 1)%Z /\
    st_nlink (Node.inode tn') = ((st_nlink (Node.inode tn) + 1) mod 2 ^ 32)%Z /\
    follow_links (lcfs_node_make_hardlink h a o) a = inr t /\
    (∀ x, x ≠ a -> x ≠ t -> lcfs_node_make_hardlink h a o !! x = h !! x).
Proof.
  intros Ha Hf Hat.
  destruct (follow_links_terminal h o t Hf) as (tn & Ht & Hlt).
  assert (Hla : a < length h) by (by apply lookup_lt_Some in Ha).
  assert (Hlt' : t < length h) by (by apply lookup_lt_Some in Ht).
  set (tn1 := set_ref_count tn (Node.ref_count tn + 1)%Z).
  set (tn2 := set_inode tn1 (set_st_nlink (Node.inode tn1)
                              ((st_nlink (Node.inode tn1) + 1) mod 2 ^ 32)%Z)).
  assert (E : lcfs_node_make_hardlink h a o =
              <[t := tn2]> (<[a := set_link_to an (Some t)]> (<[t := tn1]> h))).
  { unfold lcfs_node_make_hardlink. rewrite Hf.
    rewrite (heap_update_Some h t tn) by done.
    rewrite (heap_update_Some _ a an) by (by rewrite list_lookup_insert_ne).
    rewrite (heap_update_Some _ t tn1); [done|].
    rewrite list_lookup_insert_ne by done. by apply list_lookup_insert_eq. }
  exists tn, (set_link_to an (Some t)), tn2. rewrite E.
  split; [done|]. split; [|split; [done|]].
  { rewrite list_lookup_insert_ne by done. apply list_lookup_insert_eq. by rewrite length_insert. }
  split; [apply list_lookup_insert_eq; by rewrite !length_insert|].
  split; [by destruct tn|]. split; [by destruct tn|]. split.
  - unfold follow_links. rewrite !length_insert.
    destruct (length h) as [|k] eqn:Hk; [lia|]. simpl.
    rewrite list_lookup_insert_ne, list_lookup_insert_eq by (rewrite ?length_insert; lia). simpl.
    rewrite list_lookup_insert_eq by (rewrite !length_insert; lia).
    replace (Node.link_to tn2) with (Node.link_to tn) by (by destruct tn). by rewrite Hlt.
  - intros x Hxa Hxt. by rewrite !list_lookup_insert_ne.
Qed.

Lemma make_hardlink_spec_witness :
  follow_links heap_hardlink 2 = inr 1 /\
  follow_links (lcfs_node_make_hardlink heap_hardlink 3 2) 3 = inr 1.
Proof.
  assert (H1 : heap_hardlink !! 3 = Some (node_at heap_hardlink 3)) by (vm_compute; reflexivity).
  assert (H2 : follow_links heap_hardlink 2 = inr 1) by (vm_compute; reflexivity).
  split; [exact H2|].
  destruct (make_hardlink_spec heap_hardlink 3 2 1 _ H1 H2 ltac:(lia))
    as (tn & an' & tn' & _ & _ & _ & _ & _ & _ & Hfl & _).
  exact Hfl.
Defined.

(* ------------------------------------------------------------------ *)
(** ** Further properties of [lcfs_write_to] *)

(** With a sink, the digest [lcfs_write_to] returns when asked for one is
    the digest of exactly the bytes the sink received, and none is returned
    otherwise. *)
Theorem write_to_digest magic version dg h r f want allocs d s :
  lcfs_write_to magic version dg h r (Some f) want allocs = Ok d s ->
  d = if want then Some (dg (file s)) else None.
Proof.
  intros H. apply lcfs_write_to_Ok in H as [a H]. unfold lcfs_write_to_body in H.
  apply bind_Ok in H as (? & s1 & H1 & H).
  pose proof (compute_tree_tree r _ _ _ H1) as (K1 & _).
  rewrite bind_gets in H.
  apply bind_Ok in H as (? & s2 & H2 & H).
  pose proof (compute_variable_data_layout _ _ _ H2) as (K2 & _).
  apply bind_Ok in H as (? & s3 & H3 & H).
  pose proof (compute_xattrs_layout _ _ _ H3) as (K3 & _).
  apply bind_Ok in H as (? & s4 & H4 & H).
  apply bind_Ok in H as (? & s5 & H5 & H).
  rewrite !bind_gets in H.
  apply bind_Ok in H as (? & s5c & Ha & H). apply assert_Ok in Ha as [_ ->].
  rewrite bind_gets in H.
  apply bind_Ok in H as (? & s6 & H6 & H).
  destruct want; [|by cbv [ret] in H; injection H as <- _].
  assert (I0 : digest_inv (lcfs_new_ctx h r true a)) by reflexivity.
  assert (I3 : digest_inv s3).
  { apply (keeps_output_digest_inv s2); [done|].
    apply (keeps_output_digest_inv s1); [done|].
    by apply (keeps_output_digest_inv (lcfs_new_ctx h r true a)). }
  pose proof (lcfs_write_digest_inv _ _ _ _ _ I3 H4) as I4.
  unfold write_inodes, for_each_node in H5. rewrite !bind_gets in H5.
  pose proof (write_inodes_digest_inv _ _ _ _ _ _ I4 H5) as I5.
  assert (I6 : digest_inv s6).
  { destruct (0 <? vdata_allocated s5)%Z.
    - rewrite bind_gets in H6. apply bind_Ok in H6 as (? & s7 & H7 & H6).
      pose proof (write_pad_digest_inv _ _ _ _ _ _ I5 H7) as I7.
      rewrite bind_gets in H6. exact (lcfs_write_digest_inv _ _ _ _ _ I7 H6).
    - cbv [ret] in H6. by injection H6 as _ <-. }
  rewrite bind_gets in H. cbv [ret] in H. injection H as <- <-.
  by rewrite I6.
Qed.

Lemma write_to_digest_witness :
  exists d s,
    lcfs_write_to 1 2 (fun l => firstn 4 l) heap_hardlink 0 (Some two_byte_sink) true [] = Ok d s /\
    d = Some (firstn 4 (file s)).
Proof.
  destruct (lcfs_write_to 1 2 (fun l => firstn 4 l) heap_hardlink 0 (Some two_byte_sink) true [])
    as [d s|e] eqn:E.
  - exists d, s. split; [reflexivity|].
    exact (write_to_digest 1 2 (fun l => firstn 4 l) heap_hardlink 0 two_byte_sink true [] d s E).
  - vm_compute in E. discriminate.
Defined.

(* ------------------------------------------------------------------ *)
(** ** Further properties of the output functions *)

(** With a callback that always accepts between one byte and all the bytes
    offered, [lcfs_write] succeeds, the sink receives the data in order,
    [bytes_written] grows by its length and the digest context is fed the
    same bytes. *)
Theorem lcfs_write_delivers f data s :
  sink_progress f ->
  exists s', lcfs_write (Some f) data s = Ok tt s' /\
    file s' = file s ++ data /\
    bytes_written s' = (bytes_written s + Z.of_nat (length data))%Z /\
    fsverity_ctx s' = option_map (fun fed => fed ++ data) (fsverity_ctx s).
Proof.
  intros Hf. destruct (lcfs_write_progress f data s Hf) as [s' H].
  exists s'. split; [done|].
  pose proof H as H'. apply lcfs_write_Ok in H' as (F & B & _).
  split; [done|]. split; [done|].
  unfold lcfs_write, bind, modify in H. apply write_cb_loop_Ok in H. subst s'.
  by destruct s.
Qed.

Lemma two_byte_sink_progress : sink_progress two_byte_sink.
Proof. intros fl [|b o] H; [done|]. unfold two_byte_sink. simpl length. lia. Qed.

Lemma lcfs_write_delivers_witness :
  sink_progress two_byte_sink /\
  exists s', lcfs_write (Some two_byte_sink) [Byte.x01; Byte.x02; Byte.x03] (lcfs_new_ctx [] 0 true [])
               = Ok tt s' /\
    file s' = [Byte.x01; Byte.x02; Byte.x03] /\
    bytes_written s' = 3%Z /\
    fsverity_ctx s' = Some [Byte.x01; Byte.x02; Byte.x03].
Proof.
  split; [exact two_byte_sink_progress|].
  exact (lcfs_write_delivers two_byte_sink [Byte.x01; Byte.x02; Byte.x03] (lcfs_new_ctx [] 0 true [])
           two_byte_sink_progress).
Defined.

(** With such a callback, [lcfs_write_pad n] succeeds and the sink
    receives exactly [n] zero bytes, in chunks of at most 256. *)
Theorem lcfs_write_pad_zeros f n s :
  sink_progress f ->
  exists s', lcfs_write_pad (Some f) n s = Ok tt s' /\
    file s' = file s ++ repeat Byte.x00 n /\
    bytes_written s' = (bytes_written s + Z.of_nat n)%Z.
Proof. intros Hf. by apply write_pad_loop_zeros. Qed.

Lemma lcfs_write_pad_zeros_witness :
  sink_progress two_byte_sink /\
  exists s', lcfs_write_pad (Some two_byte_sink) 300 (lcfs_new_ctx [] 0 false []) = Ok tt s' /\
    file s' = repeat Byte.x00 300 /\ bytes_written s' = 300%Z.
Proof.
  split; [exact two_byte_sink_progress|].
  exact (lcfs_write_pad_zeros two_byte_sink 300 (lcfs_new_ctx [] 0 false []) two_byte_sink_progress).
Defined.

(* ------------------------------------------------------------------ *)
(** ** Further properties of the variable-data arena *)

(** Appending the same fewer than 2^32 bytes again with
    [LCFS_APPEND_FLAGS_DEDUP] right after an [lcfs_append_vdata] of them
    whose allocations all succeed reuses the stored copy: the state is
    left as it is and the extent returned holds the bytes. *)
Theorem append_vdata_dedup_again data flags flags2 s o1 s1 :
  (Z.of_nat (length data) < 2 ^ 32)%Z ->
  Forall (fun b => b = true) (allocs s) ->
  lcfs_append_vdata data flags s = Ok o1 s1 ->
  (Z.land flags2 APPEND_FLAGS_DEDUP <> 0)%Z ->
  exists o2, lcfs_append_vdata data flags2 s1 = Ok o2 s1 /\ vdata_at (vdata s1) o2 = data.
Proof.
  intros Hb Hf H Hd2.
  assert (Hl : exists ent, hash_lookup (ht s1) (vdata s1) data = Some ent).
  { pose proof (append_vdata_Ok _ _ _ _ _ Hb H) as (Hv & Hlen & _).
    apply append_vdata_inv in H as [(ent & _ & El & _ & ->)|(_ & _ & alloc & t & a & -> & _ & _ & Ht)].
    - by exists ent.
    - destruct (Ht Hf) as [-> _]. simpl in Hv |- *. unfold hash_insert. rewrite Hv.
      match goal with |- context [hash_lookup (ht s) ?w data] =>
        destruct (hash_lookup (ht s) w data) as [e|] eqn:E'; [by exists e|] end.
      exists o1. unfold hash_lookup. simpl. unfold vdata_ht_comparator.
      rewrite Hv, bool_decide_true, bool_decide_true; done. }
  destruct Hl as [ent Hent].
  exists (mk_vdata (off ent) (len ent)). unfold lcfs_append_vdata.
  destruct (Z.land flags2 APPEND_FLAGS_DEDUP =? 0)%Z eqn:E2; [apply Z.eqb_eq in E2; lia|].
  simpl. rewrite Hent. split; [done|].
  unfold hash_lookup in Hent. apply List.find_some in Hent as [_ Hc].
  unfold vdata_ht_comparator in Hc. apply andb_true_iff in Hc as [_ Hc].
  apply bool_decide_eq_true in Hc. by destruct ent.
Qed.

(** [lcfs_append_vdata] of fewer than 2^32 bytes returns an extent
    holding exactly the bytes given and never moves or overwrites stored bytes: every extent inside the
    arena before the call reads the same afterwards. *)
Theorem append_vdata_keeps_extents data flags s o s' :
  (Z.of_nat (length data) < 2 ^ 32)%Z ->
  lcfs_append_vdata data flags s = Ok o s' ->
  vdata_at (vdata s') o = data /\ Z.to_nat (len o) = length data /\
  forall e, (0 <= off e)%Z -> (0 <= len e)%Z ->
    (off e + len e <= Z.of_nat (length (vdata s)))%Z ->
    vdata_at (vdata s') e = vdata_at (vdata s) e.
Proof.
  intros Hb H. destruct (append_vdata_Ok _ _ _ _ _ Hb H) as (Hd & Hl & _ & [k Hk]).
  split; [done|]. split; [done|].
  intros e H1 H2 H3. unfold vdata_at. rewrite Hk.
  rewrite drop_app_le by lia. rewrite take_app_le; [done|].
  rewrite length_drop. lia.
Qed.

Lemma append_vdata_dedup_again_witness :
  exists o1 s1, lcfs_append_vdata [Byte.x01; Byte.x02] 0 (lcfs_new_ctx [] 0 false []) = Ok o1 s1 /\
  exists o2, lcfs_append_vdata [Byte.x01; Byte.x02] APPEND_FLAGS_DEDUP s1 = Ok o2 s1 /\
             vdata_at (vdata s1) o2 = [Byte.x01; Byte.x02].
Proof.
  destruct (lcfs_append_vdata [Byte.x01; Byte.x02] 0 (lcfs_new_ctx [] 0 false [])) as [o1 s1|e] eqn:E.
  - exists o1, s1. split; [reflexivity|].
    exact (append_vdata_dedup_again [Byte.x01; Byte.x02] 0 APPEND_FLAGS_DEDUP
             (lcfs_new_ctx [] 0 false []) o1 s1 ltac:(vm_compute; reflexivity)
             (List.Forall_nil _) E ltac:(vm_compute; discriminate)).
  - vm_compute in E. discriminate.
Defined.

Lemma append_vdata_keeps_extents_witness :
  exists o1 s1 o2 s2,
    lcfs_append_vdata [Byte.x01; Byte.x02] 0 (lcfs_new_ctx [] 0 false []) = Ok o1 s1 /\
    lcfs_append_vdata [Byte.x03] APPEND_FLAGS_ALIGN s1 = Ok o2 s2 /\
    vdata_at (vdata s2) o1 = [Byte.x01; Byte.x02] /\ vdata_at (vdata s2) o2 = [Byte.x03].
Proof.
  destruct (lcfs_append_vdata [Byte.x01; Byte.x02] 0 (lcfs_new_ctx [] 0 false [])) as [o1 s1|e] eqn:E1;
    [|vm_compute in E1; discriminate].
  destruct (lcfs_append_vdata [Byte.x03] APPEND_FLAGS_ALIGN s1) as [o2 s2|e] eqn:E2;
    [|vm_compute in E1; injection E1 as <- <-; vm_compute in E2; discriminate].
  exists o1, s1, o2, s2. split; [reflexivity|]. split; [exact E2|].
  destruct (append_vdata_keeps_extents [Byte.x03] _ _ _ _ ltac:(vm_compute; reflexivity) E2)
    as (H2 & _ & Hk).
  split; [|exact H2].
  vm_compute in E1. injection E1 as <- <-.
  rewrite (Hk (mk_vdata 0 2) ltac:(simpl; lia) ltac:(simpl; lia) ltac:(simpl; lia)).
  reflexivity.
Defined.

(* ------------------------------------------------------------------ *)
(** ** Further properties of [compute_tree] *)

(** Starting from nodes none of which is marked as in the tree, a
    successful [lcfs_write_to] leaves every node it marked with its
    children sorted by name and its xattrs sorted by key, whatever the
    callback and whatever order the caller added them in. *)
Theorem write_to_canonical_order magic version dg h r cb want allocs d s :
  Forall (fun n => Node.in_tree n = false) h ->
  lcfs_write_to magic version dg h r cb want allocs = Ok d s ->
  forall p n, heap s !! p = Some n -> Node.in_tree n = true ->
    Sorted (cmp_nodes_le (heap s)) (Node.children n) /\ Sorted cmp_xattr_le (Node.xattrs n).
Proof.
  intros Hf H p n Hp Ht. apply lcfs_write_to_Ok in H as [a H]. unfold lcfs_write_to_body in H.
  apply bind_Ok in H as (? & s1 & H1 & H).
  apply compute_tree_sorted in H1.
  2: { intros q m Hq. simpl in Hq. by apply (Forall_lookup_1 _ _ _ _ Hf Hq). }
  revert H. match goal with |- ?m s1 = Ok d s -> _ =>
    assert (Hm : holds order_keep m) end.
  { repeat holds_step; auto using compute_variable_data_order, compute_xattrs_order,
      lcfs_write_order, write_inodes_order, write_pad_loop_order.
    apply write_pad_loop_order. }
  intros H. apply (order_keep_sorted _ _ _ (Hm _ _ _ H)) in H1.
  by apply (H1 p n Hp Ht).
Qed.

Lemma write_to_canonical_order_witness :
  exists d s, lcfs_write_to 1 2 (fun l => l) heap_hardlink 0 (Some full_sink) false [] = Ok d s /\
    Node.children (node_at (heap s) 0) = [2; 1; 3] /\
    Sorted (cmp_nodes_le (heap s)) (Node.children (node_at (heap s) 0)).
Proof.
  destruct (lcfs_write_to 1 2 (fun l => l) heap_hardlink 0 (Some full_sink) false [])
    as [d s|e] eqn:E; [|vm_compute in E; discriminate].
  exists d, s. split; [reflexivity|].
  pose proof E as E'. vm_compute in E'. injection E' as _ Hs. subst s.
  split; [reflexivity|].
  apply (write_to_canonical_order 1 2 (fun l => l) heap_hardlink 0 (Some full_sink) false [] d _
           ltac:(repeat constructor) E 0); reflexivity.
Defined.

(* ------------------------------------------------------------------ *)
(** ** Further properties of the directory blocks *)

(** [compute_dirents_size] is 0 for a node without children; when every
    child is in the heap with a name of at most [LCFS_MAX_NAME_LENGTH]
    bytes, it is the header for that many dirents plus the total length of
    the names. *)
Theorem compute_dirents_size_spec h n nms :
  Forall2 (fun c nm => exists cn, h !! c = Some cn /\ Node.name cn = Some nm /\
                                  strlen nm <= LCFS_MAX_NAME_LENGTH) (Node.children n) nms ->
  compute_dirents_size h n =
    if bool_decide (Node.children n = []) then inr 0%Z
    else inr (lcfs_dir_header_size (length nms) + Z.of_nat (sum_list_with strlen nms))%Z.
Proof.
  intros Hf. unfold compute_dirents_size. pose proof (Forall2_length _ _ _ Hf) as Hlen.
  destruct (Node.children n) as [|c cs] eqn:Ec; [done|].
  rewrite bool_decide_false by done. rewrite (names_size_ok h (c :: cs) nms Hf).
  by rewrite Hlen.
Qed.

Lemma compute_dirents_size_spec_witness :
  compute_dirents_size heap_dir_file (node_at heap_dir_file 0)
    = inr (lcfs_dir_header_size 1 + 1)%Z.
Proof.
  rewrite (compute_dirents_size_spec heap_dir_file (node_at heap_dir_file 0) ["a"%string]).
  - reflexivity.
  - change (Node.children (node_at heap_dir_file 0)) with [1]. constructor; [|constructor].
    exists (node_at heap_dir_file 1). split; [reflexivity|]. split; [reflexivity|].
    vm_compute; lia.
Defined.
